(** * Chow-Liu tree learning: a shallow embedding of
    [cirkit/templates/region_graph/algorithms/chow_liu.py]

    The file has four parts.

    The program, module by module:

    - [Py]            exceptions and results;
    - [Tensors]       two-dimensional tensors as lists of rows;
    - [XReal]         float values: a real number, an infinity or NaN;
    - [Categorical]   [_categorical_mutual_info];
    - [Gaussian]      the expression of the "gaussian" branch and [corrcoef];
    - [Heterogeneous] [_heterogeneous_mutual_info];
    - [SpanningTree]  [_maximum_spanning_tree] and the graph routines of the
                      library that it calls;
    - [Orchestrator]  [ChowLiuTree], with the trace of its calls.

    The facts about it: [BasicFacts], [XRealFacts], [CategoricalFacts] (the
    joint counts in closed form, Gibbs' inequality), [GaussianFacts],
    [HeterogeneousFacts], [GraphFacts] (connectivity and components),
    [KruskalFacts] (the kept edges are a spanning tree, of greatest total of
    the rounded weights), [TraversalFacts] (the predecessor array).

    The properties of the specification, one theorem each.

    Further properties of the code, function by function (X1 to X26), with
    the facts they need: [CategoricalMoreFacts], [GaussianMoreFacts],
    [HeterogeneousMoreFacts] (the estimator stage by stage, the loops in
    closed form), [TraversalMoreFacts] (the order of the traversal).

    Numbers are modelled as follows.  The estimators compute on [xreal]:
    the special values (infinities and NaN) of IEEE arithmetic are kept,
    and so is the range of float32 where a Python float enters a tensor
    ([to_float32]), but the results of the operations are not rounded; the
    theorems on the estimators state what does not depend on rounding.
    The tree builder computes on rationals and rounds the one operation it
    does on floats, [adj_matrix + 1.0], as float32 does ([float32]).  The
    joint indices of the categorical estimator are 64-bit integers
    ([int64]). *)

From Stdlib Require Import String Ascii.
From Stdlib Require Import Reals Psatz ZArith QArith Qround Qabs Qpower Bool.
From Stdlib Require Import Arith.
From Stdlib Require Import List Permutation Sorted.
Import ListNotations.

Close Scope Q_scope.
Close Scope R_scope.
Close Scope string_scope.

(* ================================================================== *)
(** ** Python results *)
(* ================================================================== *)

Module Py.

(** The exceptions the module can raise, its own ([ValueError],
    [NotImplementedError], the [assert]s) and those of the primitives it
    calls. *)
Inductive exn : Type :=
| AssertionError
| ValueError
| NotImplementedError
| KeyError
| ZeroDivisionError
| IndexError
| RuntimeError.

Inductive result (A : Type) : Type :=
| Ok (a : A)
| Raise (e : exn).
Arguments Ok {A} a.
Arguments Raise {A} e.

Definition bind {A B : Type} (r : result A) (k : A -> result B) : result B :=
  match r with
  | Ok a => k a
  | Raise e => Raise e
  end.

(** [mapM f l]: the list comprehension [[f x for x in l]], stopping at the
    first exception. *)
Fixpoint mapM {A B : Type} (f : A -> result B) (l : list A) : result (list B) :=
  match l with
  | [] => Ok []
  | x :: l' =>
      bind (f x) (fun y => bind (mapM f l') (fun ys => Ok (y :: ys)))
  end.

End Py.


(* ================================================================== *)
(** ** Tensors *)
(* ================================================================== *)

Module Tensors.

(** A two-dimensional tensor of shape [(length rows, n_cols)]: one row per
    sample, one column per feature.  The number of columns is kept apart,
    as a tensor with no row still has a shape. *)
Record matrix (A : Type) : Type := Matrix {
  n_cols : nat;
  rows : list (list A)
}.
Arguments Matrix {A} n_cols rows.
Arguments n_cols {A} m.
Arguments rows {A} m.

Definition n_rows {A : Type} (m : matrix A) : nat := length (rows m).

Definition well_shaped {A : Type} (m : matrix A) : Prop :=
  Forall (fun r => length r = n_cols m) (rows m).

Definition map_matrix {A B : Type} (f : A -> B) (m : matrix A) : matrix B :=
  Matrix (n_cols m) (map (map f) (rows m)).

(** [column d m j]: [m[:, j]]. *)
Definition column {A : Type} (d : A) (m : matrix A) (j : nat) : list A :=
  map (fun r => nth j r d) (rows m).

(** A tensor handed to the orchestrator: a matrix of finite floats
    (rationals), or a tensor of another rank, of which only the rank
    matters as it is rejected on entry.  [OtherRank k] is the [k]-th rank
    that is not two: 0, 1, 3, 4, ... *)
Inductive tensor : Type :=
| Rank2 (m : matrix Q)
| OtherRank (k : nat).

Definition ndim (t : tensor) : nat :=
  match t with
  | Rank2 _ => 2
  | OtherRank k => if Nat.ltb k 2 then k else S k
  end.

(** [l[k] = v]; the position is within the list wherever the program writes. *)
Fixpoint update {A : Type} (k : nat) (v : A) (l : list A) : list A :=
  match l, k with
  | [], _ => []
  | _ :: l', O => v :: l'
  | x :: l', S k' => x :: update k' v l'
  end.

(** [t.size(-1)] of a matrix. *)
Definition size_last (m : matrix Q) : Z := Z.of_nat (n_cols m).

(** [x.long()] on a float: truncation towards zero. *)
Definition long (q : Q) : Z := Z.quot (Qnum q) (Zpos (Qden q)).

(** [torch.div(data, d, rounding_mode="floor")] for a non-zero integer [d]. *)
Definition div_floor (d : Z) (q : Q) : Q := inject_Z (Qfloor (q / inject_Z d)%Q).

End Tensors.


(* ================================================================== *)
(** ** Float values *)
(* ================================================================== *)

Module XReal.
Local Open Scope R_scope.

(** A float is a real number, an infinity or NaN.  Arithmetic is the IEEE
    one with exact results; there is one zero, taken as positive where its
    sign would matter (a non-zero number divided by zero). *)
Inductive xreal : Type :=
| Fin (r : R)
| PInf
| NInf
| NaN.

Definition is_nan (x : xreal) : bool :=
  match x with NaN => true | _ => false end.

Definition is_finite (x : xreal) : Prop :=
  match x with Fin _ => True | _ => False end.

(** [x] is a number and at least zero. *)
Definition nonneg (x : xreal) : Prop :=
  match x with Fin r => 0 <= r | _ => False end.

Definition xneg (x : xreal) : xreal :=
  match x with
  | Fin r => Fin (- r)
  | PInf => NInf
  | NInf => PInf
  | NaN => NaN
  end.

Definition xadd (x y : xreal) : xreal :=
  match x, y with
  | NaN, _ | _, NaN => NaN
  | Fin a, Fin b => Fin (a + b)
  | PInf, NInf | NInf, PInf => NaN
  | PInf, _ | _, PInf => PInf
  | NInf, _ | _, NInf => NInf
  end.

Definition xsub (x y : xreal) : xreal := xadd x (xneg y).

(** The infinity with the sign of [r], NaN for zero. *)
Definition signed_inf (r : R) : xreal :=
  match total_order_T r 0 with
  | inleft (left _) => NInf
  | inleft (right _) => NaN
  | inright _ => PInf
  end.

Definition xmul (x y : xreal) : xreal :=
  match x, y with
  | NaN, _ | _, NaN => NaN
  | Fin a, Fin b => Fin (a * b)
  | Fin a, PInf | PInf, Fin a => signed_inf a
  | Fin a, NInf | NInf, Fin a => signed_inf (- a)
  | PInf, PInf | NInf, NInf => PInf
  | PInf, NInf | NInf, PInf => NInf
  end.

Definition xdiv (x y : xreal) : xreal :=
  match x, y with
  | NaN, _ | _, NaN => NaN
  | Fin a, Fin b => if Req_dec_T b 0 then signed_inf a else Fin (a / b)
  | Fin _, (PInf | NInf) => Fin 0
  | PInf, Fin b => if Rlt_dec b 0 then NInf else PInf
  | NInf, Fin b => if Rlt_dec b 0 then PInf else NInf
  | (PInf | NInf), (PInf | NInf) => NaN
  end.

(** [torch.log] *)
Definition xlog (x : xreal) : xreal :=
  match x with
  | Fin r =>
      match total_order_T r 0 with
      | inleft (left _) => NaN
      | inleft (right _) => NInf
      | inright _ => Fin (ln r)
      end
  | PInf => PInf
  | NInf | NaN => NaN
  end.

(** [torch.sqrt] *)
Definition xsqrt (x : xreal) : xreal :=
  match x with
  | Fin r => if Rlt_dec r 0 then NaN else Fin (sqrt r)
  | PInf => PInf
  | NInf | NaN => NaN
  end.

(** [x.clip(lo, hi)]: NaN stays NaN. *)
Definition xclip (lo hi : R) (x : xreal) : xreal :=
  match x with
  | Fin r => Fin (Rmax lo (Rmin hi r))
  | PInf => Fin hi
  | NInf => Fin lo
  | NaN => NaN
  end.

(** [x.sum()] *)
Definition xsum (l : list xreal) : xreal := fold_right xadd (Fin 0) l.

(** The sum of a list of reals. *)
Definition rsum (l : list R) : R := fold_right Rplus 0 l.

(** Entry [(i, j)] of a matrix of floats. *)
Definition entry (m : list (list xreal)) (i j : nat) : xreal :=
  nth j (nth i m []) NaN.

(** The float32 that a Python float becomes when it enters an operation
    with a tensor, rounding aside: float32 has no number between zero and
    [2 ^ -149], and a number of absolute value [2 ^ -150] at most becomes
    zero. *)
Definition to_float32 (x : R) : R :=
  if Rle_dec (Rabs x) (/ 2 ^ 150) then 0 else x.

End XReal.


(* ================================================================== *)
(** ** [_categorical_mutual_info] *)
(* ================================================================== *)

Module Categorical.
Import Py Tensors XReal.
Local Open Scope Z_scope.

(** [data.max()]: fails on a tensor with no element. *)
Definition tensor_max (m : matrix Z) : result Z :=
  match concat (rows m) with
  | [] => Raise RuntimeError
  | x :: l => Ok (fold_left Z.max l x)
  end.

(** Consecutive chunks of [c] rows, the last one possibly shorter. *)
Fixpoint chunks_of (fuel c : nat) (l : list (list Z)) : list (list (list Z)) :=
  match fuel with
  | O => []
  | S fuel' =>
      match l with
      | [] => []
      | _ => firstn c l :: chunks_of fuel' c (skipn c l)
      end
  end.

(** [data.split(split_size)]: a negative size fails, a zero size fails
    unless there is no row, and a tensor with no row gives one empty
    chunk. *)
Definition split (l : list (list Z)) (split_size : Z)
  : result (list (list (list Z))) :=
  if split_size <? 0 then Raise RuntimeError
  else
    match l with
    | [] => Ok [[]]
    | _ =>
        if split_size =? 0 then Raise RuntimeError
        else Ok (chunks_of (length l) (Z.to_nat split_size) l)
    end.

(** The value of an integer in a long tensor: 64 bits, two's complement;
    the arithmetic of tensors wraps around without an error. *)
Definition int64 (z : Z) : Z := (z + 2 ^ 63) mod 2 ^ 64 - 2 ^ 63.

(** [joint_values[i, j, s] = chunk[s, i] * num_categories + chunk[s, j]],
    on long tensors. *)
Definition joint_values (K : Z) (chunk : list (list Z)) (i j : nat) : list Z :=
  map (fun row => int64 (nth i row 0 * K + nth j row 0)) chunk.

(** [self[k] += 1] *)
Fixpoint incr (k : nat) (self : list Z) : list Z :=
  match self, k with
  | [], _ => []
  | x :: l, O => (x + 1) :: l
  | x :: l, S k' => x :: incr k' l
  end.

(** [scatter_add_] along the last dimension with a source of ones: every
    index adds one to its bin, and an index outside of the bins fails. *)
Fixpoint scatter_add_row (self index : list Z) : result (list Z) :=
  match index with
  | [] => Ok self
  | k :: index' =>
      if (0 <=? k) && (k <? Z.of_nat (length self))
      then scatter_add_row (incr (Z.to_nat k) self) index'
      else Raise RuntimeError
  end.

(** A tensor of shape [(n_features, n_features, num_categories ** 2)]. *)
Definition tensor3 : Type := list (list (list Z)).

Definition entry3 (t : tensor3) (i j : nat) : list Z := nth j (nth i t []) [].

Definition zeros3 (n_features bins : nat) : tensor3 :=
  repeat (repeat (repeat 0 bins) n_features) n_features.

(** [joint_counts.scatter_add_(-1, joint_values, ones_like(joint_values))] *)
Definition scatter_add_ (F : nat) (K : Z) (joint_counts : tensor3)
    (chunk : list (list Z)) : result tensor3 :=
  mapM (fun i =>
          mapM (fun j => scatter_add_row (entry3 joint_counts i j)
                                         (joint_values K chunk i j))
               (seq 0 F))
       (seq 0 F).

(** The loop over the chunks. *)
Fixpoint accumulate (F : nat) (K : Z) (joint_counts : tensor3)
    (chunks : list (list (list Z))) : result tensor3 :=
  match chunks with
  | [] => Ok joint_counts
  | chunk :: rest =>
      bind (scatter_add_ F K joint_counts chunk)
           (fun joint_counts' => accumulate F K joint_counts' rest)
  end.

Section Estimate.

Variable alpha : R.
Variables n_samples n_features : nat.
Variable num_categories : Z.
Variable joint_counts : tensor3.

Let K : nat := Z.to_nat num_categories.

(** [n_samples + num_categories**2 * alpha], a Python float that divides
    float32 tensors. *)
Definition denominator : R :=
  to_float32 (INR n_samples + IZR (num_categories * num_categories) * alpha)%R.

(** [joint_counts.view(n_features, n_features, num_categories, num_categories)] *)
Definition joint_count (i j a b : nat) : Z :=
  nth (a * K + b) (entry3 joint_counts i j) 0.

(** [joint_counts[idx_features, idx_features][:, idx_categories, idx_categories]] *)
Definition marginal_count (i a : nat) : Z := joint_count i i a a.

(** [(marginal_counts + num_categories * alpha) / ...]: the counts are a
    tensor of integers, the sum is a float32 tensor. *)
Definition marginal (i a : nat) : xreal :=
  xdiv (Fin (IZR (marginal_count i a)
             + to_float32 (IZR num_categories * alpha))%R)
       (Fin denominator).

(** [joints], with the blocks on the diagonal overwritten by
    [diag_embed(marginals)]. *)
Definition joint (i j a b : nat) : xreal :=
  if Nat.eqb i j
  then (if Nat.eqb a b then marginal i a else Fin 0%R)
  else xdiv (Fin (IZR (joint_count i j a b) + to_float32 alpha)%R)
            (Fin denominator).

(** [einsum("ik,jl->ijkl", marginals, marginals)] *)
Definition outer (i j a b : nat) : xreal := xmul (marginal i a) (marginal j b).

(** [(joints * (joints.log() - outers.log())).sum(dim=(2, 3))] *)
Definition kl_sum (i j : nat) : xreal :=
  xsum (map (fun a =>
               xsum (map (fun b =>
                            xmul (joint i j a b)
                                 (xsub (xlog (joint i j a b))
                                       (xlog (outer i j a b))))
                         (seq 0 K)))
            (seq 0 K)).

(** ... [.fill_diagonal_(0)] *)
Definition mutual_info : list (list xreal) :=
  map (fun i =>
         map (fun j => if Nat.eqb i j then Fin 0%R else kl_sum i j)
             (seq 0 n_features))
      (seq 0 n_features).

End Estimate.

Definition _categorical_mutual_info (data : matrix Z) (alpha : R)
    (num_categories chunk_size : option Z) : result (list (list xreal)) :=
  let n_samples := n_rows data in
  let n_features := n_cols data in
  bind (match num_categories with
        | Some k => Ok k
        | None => bind (tensor_max data) (fun m => Ok (m + 1))
        end)
  (fun num_categories =>
  let chunk_size := match chunk_size with
                    | Some c => c
                    | None => Z.of_nat n_samples
                    end in
  (* [torch.arange(0, num_categories)] *)
  if num_categories <? 0 then Raise RuntimeError
  else
    bind (split (rows data) chunk_size)
    (fun chunks =>
    bind (accumulate n_features num_categories
            (zeros3 n_features (Z.to_nat (num_categories * num_categories)))
            chunks)
    (fun joint_counts =>
    Ok (mutual_info alpha n_samples n_features num_categories joint_counts)))).

End Categorical.


(* ================================================================== *)
(** ** The "gaussian" branch *)
(* ================================================================== *)

Module Gaussian.
Import Py Tensors XReal.
Local Open Scope R_scope.

(** The floats of a column. *)
Definition floats (l : list Q) : list R := map Q2R l.

Definition mean (x : list R) : R := rsum x / INR (length x).

(** The sum of the products of the deviations of two variables. *)
Definition codeviation (x y : list R) : R :=
  rsum (map (fun p => (fst p - mean x) * (snd p - mean y)) (combine x y)).

(** [torch.cov(data.t())[i, j]]: the variables are the columns of [data],
    the divisor is the number of samples minus one, not below zero. *)
Definition cov (data : matrix Q) (i j : nat) : xreal :=
  xdiv (Fin (codeviation (floats (column 0%Q data i))
                         (floats (column 0%Q data j))))
       (Fin (INR (n_rows data - 1))).

(** [torch.corrcoef(data.t())[i, j]]: the covariance divided by the two
    standard deviations, one after the other, and clipped to [[-1, 1]]. *)
Definition corrcoef (data : matrix Q) (i j : nat) : xreal :=
  xclip (-1) 1
        (xdiv (xdiv (cov data i j) (xsqrt (cov data i i)))
              (xsqrt (cov data j j))).

(** [-0.5 * torch.log(1 - rho ** 2)] *)
Definition gaussian_mi (rho : xreal) : xreal :=
  xmul (Fin (-0.5)) (xlog (xsub (Fin 1) (xmul rho rho))).

(** [-0.5 * torch.log(1 - torch.corrcoef(data.t()) ** 2)], for two
    features or more. *)
Definition gaussian_mutual_info (data : matrix Q) : list (list xreal) :=
  map (fun i =>
         map (fun j => gaussian_mi (corrcoef data i j))
             (seq 0 (n_cols data)))
      (seq 0 (n_cols data)).

End Gaussian.


(* ================================================================== *)
(** ** [_heterogeneous_mutual_info] *)
(* ================================================================== *)

Module Heterogeneous.
Import Py Tensors XReal Gaussian.
Local Open Scope R_scope.

Definition GAUSSIAN_ENTROPY_EPSILON : R := 1 / 10000.

(** The default smoothing of [_categorical_mutual_info]. *)
Definition default_alpha : R := 1 / 100.

(** [torch.where(mask)[0]] *)
Definition where_ (mask : list bool) : list nat :=
  filter (fun i => nth i mask false) (seq 0 (length mask)).

(** [data[:, idx]] *)
Definition select_columns (data : matrix Q) (idx : list nat) : matrix Q :=
  Matrix (length idx) (map (fun r => map (fun i => nth i r 0%Q) idx) (rows data)).

Definition zeros (F : nat) : list (list xreal) := repeat (repeat (Fin 0) F) F.

(** The position of [i] in [idx]. *)
Fixpoint index_of (i : nat) (idx : list nat) : option nat :=
  match idx with
  | [] => None
  | k :: idx' =>
      if Nat.eqb k i then Some O
      else match index_of i idx' with
           | Some p => Some (S p)
           | None => None
           end
  end.

(** [m[idx.unsqueeze(1), idx] = block], on an [F] by [F] matrix: the entries
    with both coordinates in [idx] are taken from the block. *)
Definition assign_block (F : nat) (m : list (list xreal)) (idx : list nat)
    (block : list (list xreal)) : list (list xreal) :=
  map (fun i =>
         map (fun j =>
                match index_of i idx, index_of j idx with
                | Some p, Some q => entry block p q
                | _, _ => entry m i j
                end)
             (seq 0 F))
      (seq 0 F).

(** [m[i, j] = v] *)
Definition set_entry (m : list (list xreal)) (i j : nat) (v : xreal)
  : list (list xreal) :=
  update i (update j v (nth i m [])) m.

(** [m.fill_diagonal_(0)] *)
Definition fill_diagonal_zero (F : nat) (m : list (list xreal))
  : list (list xreal) :=
  map (fun i =>
         map (fun j => if Nat.eqb i j then Fin 0 else entry m i j) (seq 0 F))
      (seq 0 F).

(** [torch.var(x, unbiased=False)]: the mean of the squared deviations; of
    no sample, zero divided by zero. *)
Definition var (x : list R) : xreal :=
  xdiv (Fin (rsum (map (fun a => (a - mean x) * (a - mean x)) x)))
       (Fin (INR (length x))).

Definition gaussian_entropy (x : list R) : xreal :=
  xmul (Fin 0.5)
       (xadd (xlog (xadd (xmul (Fin (2 * PI)) (var x))
                         (Fin GAUSSIAN_ENTROPY_EPSILON)))
             (Fin 1)).

(** [x.max()] of a column: fails when there is no sample. *)
Definition column_max (x : list Q) : result Q :=
  match x with
  | [] => Raise RuntimeError
  | a :: l => Ok (fold_left (fun m b => if Qle_bool m b then b else m) l a)
  end.

(** [int(data[:, d_index].max() + 1)] *)
Definition column_categories (data : matrix Q) (d_index : nat) : result Z :=
  bind (column_max (column 0%Q data d_index))
       (fun m => Ok (long (m + 1)%Q)).

(** [x.bincount(minlength=n)]: fails on a negative value. *)
Definition bincount (x : list Z) (minlength : Z) : result (list Z) :=
  if existsb (fun v => (v <? 0)%Z) x then Raise RuntimeError
  else
    let bins := Z.to_nat (Z.max minlength (fold_left Z.max x (-1) + 1))%Z in
    Ok (map (fun b => Z.of_nat (count_occ Z.eq_dec x (Z.of_nat b)))
            (seq 0 bins)).

(** [data[:, d_index].long().bincount(minlength=...).float() / data.shape[0]] *)
Definition category_frequencies (data : matrix Q) (d_index : nat) (K : Z)
  : result (list xreal) :=
  bind (bincount (map long (column 0%Q data d_index)) K)
       (fun counts =>
          Ok (map (fun c => xdiv (Fin (IZR c)) (Fin (INR (n_rows data))))
                  counts)).

(** [data[:, c_index][data[:, d_index] == i]] *)
Definition samples_of_category (data : matrix Q) (c_index d_index : nat)
    (i : nat) : list R :=
  floats (map fst
            (filter (fun p => Qeq_bool (snd p) (inject_Z (Z.of_nat i)))
                    (combine (column 0%Q data c_index)
                             (column 0%Q data d_index)))).

(** [torch.stack([gaussian_entropy(...) for i in range(K)])]: fails on an
    empty list. *)
Definition conditional_entropies (data : matrix Q) (c_index d_index : nat)
    (K : Z) : result (list xreal) :=
  if (K <=? 0)%Z then Raise RuntimeError
  else Ok (map (fun i =>
                  gaussian_entropy (samples_of_category data c_index d_index i))
               (seq 0 (Z.to_nat K))).

(** The product of two vectors, with broadcasting. *)
Definition tensor_mul (x y : list xreal) : result (list xreal) :=
  if Nat.eqb (length x) (length y)
  then Ok (map (fun p => xmul (fst p) (snd p)) (combine x y))
  else if Nat.eqb (length x) 1 then Ok (map (xmul (hd NaN x)) y)
  else if Nat.eqb (length y) 1 then Ok (map (fun a => xmul a (hd NaN y)) x)
  else Raise RuntimeError.

(** The value of a key of a dictionary built over the discrete columns. *)
Fixpoint lookup {A : Type} (d : A) (k : nat) (l : list (nat * A)) : A :=
  match l with
  | [] => d
  | (k', v) :: l' => if Nat.eqb k' k then v else lookup d k l'
  end.

(** The body of the inner loop. *)
Definition cross_step (data : matrix Q) (num_categories : list (nat * Z))
    (p_D : list (nat * list xreal)) (c_index : nat) (entropy : xreal)
    (mi_matrix : list (list xreal)) (d_index : nat)
  : result (list (list xreal)) :=
  bind (conditional_entropies data c_index d_index
          (lookup 0%Z d_index num_categories))
  (fun h_C_given_D =>
  bind (tensor_mul h_C_given_D (lookup [] d_index p_D))
  (fun weighted =>
  let mi_matrix :=
    set_entry mi_matrix c_index d_index (xsub entropy (xsum weighted)) in
  Ok (set_entry mi_matrix d_index c_index (entry mi_matrix c_index d_index)))).

Fixpoint foldM {A B : Type} (f : A -> B -> result A) (a : A) (l : list B)
  : result A :=
  match l with
  | [] => Ok a
  | x :: l' => bind (f a x) (fun a' => foldM f a' l')
  end.

Definition _heterogeneous_mutual_info (data : matrix Q)
    (is_categorical_mask : list bool) : result (list (list xreal)) :=
  let F := n_cols data in
  let continuous_subset := where_ (map negb is_categorical_mask) in
  let discrete_subset := where_ is_categorical_mask in
  (* a column index beyond the data *)
  if Nat.ltb F (length is_categorical_mask) then Raise IndexError
  else
  let mi_matrix := zeros F in
  let mi_matrix :=
    if Nat.ltb 1 (length continuous_subset)
    then
      let continuous := select_columns data continuous_subset in
      assign_block F mi_matrix continuous_subset
        (map (fun p =>
                map (fun q =>
                       gaussian_mi (if Nat.eqb p q then Fin 0
                                    else corrcoef continuous p q))
                    (seq 0 (length continuous_subset)))
             (seq 0 (length continuous_subset)))
    else mi_matrix in
  bind (if Nat.ltb 1 (length discrete_subset)
        then
          bind (Categorical._categorical_mutual_info
                  (map_matrix long (select_columns data discrete_subset))
                  default_alpha None None)
               (fun block => Ok (assign_block F mi_matrix discrete_subset block))
        else Ok mi_matrix)
  (fun mi_matrix =>
  bind (mapM (fun d_index =>
                bind (column_categories data d_index)
                     (fun K => Ok (d_index, K)))
             discrete_subset)
  (fun num_categories =>
  bind (mapM (fun d_index =>
                bind (category_frequencies data d_index
                        (lookup 0%Z d_index num_categories))
                     (fun p => Ok (d_index, p)))
             discrete_subset)
  (fun p_D =>
  bind (foldM (fun mi_matrix c_index =>
                 let entropy :=
                   gaussian_entropy (floats (column 0%Q data c_index)) in
                 foldM (cross_step data num_categories p_D c_index entropy)
                       mi_matrix discrete_subset)
              mi_matrix continuous_subset)
  (fun mi_matrix => Ok (fill_diagonal_zero F mi_matrix))))).

End Heterogeneous.


(* ================================================================== *)
(** ** [_maximum_spanning_tree] *)
(* ================================================================== *)

Module SpanningTree.
Import Py Tensors.
Local Open Scope nat_scope.

(** A square matrix of finite floats, as rationals: the tree builder only
    adds, negates and compares. *)
Definition dense : Type := list (list Q).

Definition weight (m : dense) (i j : nat) : Q := nth j (nth i m []) 0%Q.

(** An entry of a sparse matrix: row, column and value.  A sparse matrix is
    the list of its entries, row by row. *)
Definition edge : Type := (nat * nat * Q)%type.

Definition row (e : edge) : nat := fst (fst e).
Definition col (e : edge) : nat := snd (fst e).
Definition cost (e : edge) : Q := snd e.

(** The undirected edge of an entry. *)
Definition ends (e : edge) : nat * nat := fst e.

(** The integer nearest to a rational; of two that are as near, the even
    one. *)
Definition round_half_even (x : Q) : Z :=
  let f := Qfloor x in
  match Qcompare (x - inject_Z f) (1 # 2) with
  | Lt => f
  | Gt => (f + 1)%Z
  | Eq => if Z.even f then f else (f + 1)%Z
  end.

(** The exponent [e] of a number that is not zero:
    [2 ^ e <= |x| < 2 ^ (e + 1)]. *)
Definition exponent (x : Q) : Z :=
  let e := (Z.log2 (Z.abs (Qnum x)) - Z.log2 (Zpos (Qden x)))%Z in
  if Qle_bool (2 ^ e) (Qabs x) then e else (e - 1)%Z.

(** The result of an operation on float32 values: the exact result rounded
    to 24 significant bits, to the nearest, ties to even.  The exponent is
    not bounded: the costs of the builder are 1 at least in absolute value,
    and a matrix of mutual information does not overflow. *)
Definition float32 (x : Q) : Q :=
  if Qeq_bool x 0 then 0%Q
  else let ulp := (2 ^ (exponent x - 23))%Q in
       Qred (inject_Z (round_half_even (x / ulp)) * ulp).

(** [-(adj_matrix + 1.0)], on the float32 array of a float32 tensor, which
    is what the three estimators return: numpy adds the Python float in
    float32, and the negation is exact. *)
Definition negated_plus_one (adj_matrix : dense) : dense :=
  map (map (fun w => - float32 (w + 1))%Q) adj_matrix.

(** ** The graph routines of the library *)

(** Modelled from the spec: the conversion of a dense matrix to a graph by
    the library (scipy.sparse.csgraph), which is not part of the
    repository: an entry equal to zero is no edge, all others are edges. *)
Definition csgraph_from_dense (m : dense) : list edge :=
  filter (fun e => negb (Qeq_bool (cost e) 0))
         (map (fun ij => (ij, weight m (fst ij) (snd ij)))
              (list_prod (seq 0 (length m)) (seq 0 (length m)))).

(** [np.argsort] of the costs, as an insertion sort. *)
Fixpoint insert_by_cost (e : edge) (l : list edge) : list edge :=
  match l with
  | [] => [e]
  | x :: l' =>
      if Qle_bool (cost e) (cost x) then e :: l else x :: insert_by_cost e l'
  end.

Definition sort_by_cost (l : list edge) : list edge :=
  fold_right insert_by_cost [] l.

(** The components of the forest built so far: every vertex carries the
    label of its component (the head node of its subtree). *)
Definition head_of (labels : list nat) (v : nat) : nat := nth v labels v.

(** The subtree of head [b] is attached to the head [a]. *)
Definition attach (labels : list nat) (a b : nat) : list nat :=
  map (fun l => if Nat.eqb l b then a else l) labels.

(** The loop of Kruskal's algorithm over the sorted edges: an edge that
    joins two components is kept, until [n_verts - 1] edges are. *)
Fixpoint kruskal_loop (n_verts : nat) (labels : list nat) (kept : list edge)
    (sorted : list edge) : list edge :=
  match sorted with
  | [] => kept
  | e :: rest =>
      if Nat.ltb (length kept) (n_verts - 1) then
        let r1 := head_of labels (row e) in
        let r2 := head_of labels (col e) in
        if Nat.eqb r1 r2
        then kruskal_loop n_verts labels kept rest
        else kruskal_loop n_verts (attach labels r1 r2) (e :: kept) rest
      else kept
  end.

Definition same_entry (e e' : edge) : bool :=
  Nat.eqb (row e) (row e') && Nat.eqb (col e) (col e').

(** Modelled from the spec: [scipy.sparse.csgraph.minimum_spanning_tree],
    the "standard minimum-spanning-tree construction" of the library
    (Kruskal's algorithm), which is not part of the repository.  The result
    is the input graph with the entries that were not kept removed. *)
Definition minimum_spanning_tree (m : dense) : list edge :=
  let graph := csgraph_from_dense m in
  let kept :=
    kruskal_loop (length m) (seq 0 (length m)) [] (sort_by_cost graph) in
  filter (fun e => existsb (same_entry e) kept) graph.

(** [abs(mst)] *)
Definition abs_ (g : list edge) : list edge :=
  map (fun e => (fst e, Qabs (cost e))) g.

(** [mst.todense()] *)
Definition todense (n : nat) (g : list edge) : dense :=
  map (fun i =>
         map (fun j =>
                match find (same_entry (i, j, 0%Q)) g with
                | Some e => cost e
                | None => 0%Q
                end)
             (seq 0 n))
      (seq 0 n).

(** A distance: [None] is infinite. *)
Definition distance : Type := option Q.

Definition dmin (x y : distance) : distance :=
  match x, y with
  | None, d | d, None => d
  | Some a, Some b => Some (if Qle_bool a b then a else b)
  end.

Definition dmax (x y : distance) : distance :=
  match x, y with
  | None, _ | _, None => None
  | Some a, Some b => Some (if Qle_bool a b then b else a)
  end.

Definition dadd (x y : distance) : distance :=
  match x, y with
  | Some a, Some b => Some (a + b)%Q
  | _, _ => None
  end.

(** [x <= y] *)
Definition dle (x y : distance) : bool :=
  match x, y with
  | _, None => true
  | None, Some _ => false
  | Some a, Some b => Qle_bool a b
  end.

Definition dist (d : list (list distance)) (i j : nat) : distance :=
  nth j (nth i d []) None.

(** The length of the edge between two vertices of an undirected graph:
    the lighter of the two entries. *)
Definition edge_length (g : list edge) (i j : nat) : distance :=
  fold_right (fun e d =>
                if same_entry e (i, j, 0%Q) || same_entry e (j, i, 0%Q)
                then dmin (Some (cost e)) d else d)
             None g.

(** Modelled from the spec: [scipy.sparse.csgraph.dijkstra] with
    [directed=False] on a dense matrix, the "all-pairs shortest-path
    distances" of the library, which is not part of the repository.  The
    lengths of the paths are sums of the entries: the call leaves
    [unweighted] at its default.  The distances are computed by relaxing
    through every vertex in turn. *)
Definition dijkstra (m : dense) : list (list distance) :=
  let n := length m in
  let g := csgraph_from_dense m in
  let start :=
    map (fun i =>
           map (fun j => if Nat.eqb i j then Some 0%Q else edge_length g i j)
               (seq 0 n))
        (seq 0 n) in
  fold_left (fun d k =>
               map (fun i =>
                      map (fun j =>
                             dmin (dist d i j) (dadd (dist d i k) (dist d k j)))
                          (seq 0 n))
                   (seq 0 n))
            (seq 0 n) start.

(** [np.max(d, axis=1)] *)
Definition row_max (r : list distance) : distance :=
  fold_right dmax (Some 0%Q) r.

(** The first position of a smallest value, from position [i] on. *)
Fixpoint argmin_from (i : nat) (best : nat) (vbest : distance)
    (l : list distance) : nat :=
  match l with
  | [] => best
  | x :: l' =>
      if dle vbest x then argmin_from (S i) best vbest l'
      else argmin_from (S i) i x l'
  end.

(** [np.argmin]: fails on an empty array. *)
Definition argmin (l : list distance) : result nat :=
  match l with
  | [] => Raise ValueError
  | x :: l' => Ok (argmin_from 1 0 x l')
  end.

(** The value of the entries of a predecessor array that stand for no
    predecessor. *)
Definition NULL_IDX : Z := (-9999)%Z.

(** The neighbours of a vertex of an undirected graph: along its row, then
    along its column. *)
Definition neighbours (g : list edge) (p : nat) : list nat :=
  map col (filter (fun e => Nat.eqb (row e) p) g)
  ++ map row (filter (fun e => Nat.eqb (col e) p) g).

(** A neighbour is visited: a vertex met for the first time joins the
    list of nodes and gets its predecessor. *)
Definition visit (head p : nat) (st : list nat * list Z) (c : nat)
  : list nat * list Z :=
  if Nat.eqb c head then st
  else if Z.eqb (nth c (snd st) NULL_IDX) NULL_IDX
       then (fst st ++ [c], update c (Z.of_nat p) (snd st))
       else st.

(** The loop of the traversal: [queue] holds the nodes of the list that
    were not expanded yet. *)
Fixpoint bfs_loop (fuel : nat) (g : list edge) (head : nat)
    (queue node_list : list nat) (predecessors : list Z)
  : list nat * list Z :=
  match fuel with
  | O => (node_list, predecessors)
  | S fuel' =>
      match queue with
      | [] => (node_list, predecessors)
      | p :: queue' =>
          let st := fold_left (visit head p) (neighbours g p)
                              ([], predecessors) in
          bfs_loop fuel' g head (queue' ++ fst st) (node_list ++ fst st)
                   (snd st)
      end
  end.

(** Modelled from the spec: [scipy.sparse.csgraph.breadth_first_order] with
    [directed=False] and [return_predecessors=True], the "breadth-first
    traversal from the chosen root over the spanning tree (undirected
    edges)" of the library, which is not part of the repository.  A start
    outside of the graph is outside of what the routine is meant for, and
    counts as a failure.  No node is expanded twice, so as many rounds as
    there are vertices are enough. *)
Definition breadth_first_order (n : nat) (g : list edge) (i_start : Z)
  : result (list nat * list Z) :=
  if ((0 <=? i_start)%Z && (i_start <? Z.of_nat n)%Z)%bool then
    let head := Z.to_nat i_start in
    Ok (bfs_loop n g head [head] [head] (repeat NULL_IDX n))
  else Raise ValueError.

(** The function of the module. *)
Definition _maximum_spanning_tree (adj_matrix : dense) (root : option Z)
  : result (list nat * list Z) :=
  let n := length adj_matrix in
  let mst := minimum_spanning_tree (negated_plus_one adj_matrix) in
  bind (match root with
        | Some r => Ok r
        | None =>
            let dist_from_all_nodes := dijkstra (todense n (abs_ mst)) in
            bind (argmin (map row_max dist_from_all_nodes))
                 (fun r => Ok (Z.of_nat r))
        end)
  (fun root =>
  bind (breadth_first_order n mst root)
  (fun bt =>
  Ok (fst bt, update (Z.to_nat root) (-1)%Z (snd bt)))).

End SpanningTree.


(* ================================================================== *)
(** ** The orchestrator: [ChowLiuTree] *)
(* ================================================================== *)

Module Orchestrator.
Import Py Tensors.
Local Open Scope Z_scope.

(** A per-column descriptor is a Python dictionary with string keys. *)
Definition descriptor : Type := list (string * string).

(** [d[k]]: raises [KeyError] when the key is absent. *)
Fixpoint getitem (d : descriptor) (k : string) : result string :=
  match d with
  | [] => Raise KeyError
  | (k', v) :: d' => if String.eqb k' k then Ok v else getitem d' k
  end.

(** [input_type: str | list]. *)
Inductive input_type_t : Type :=
| Tag (s : string)
| PerColumn (l : list descriptor).

(** [data] after [assert data.ndim == 2] has passed. *)
Definition as_matrix (t : tensor) : matrix Q :=
  match t with
  | Rank2 m => m
  | OtherRank _ => Matrix 0 []
  end.

(** [torch.div(data, num_categories // num_bins, rounding_mode="floor")].
    Python's [//] raises on a zero divisor; a zero bin width makes the
    tensor division fail (integer tensors) or leave the finite floats
    (float tensors), and both count as a failure here. *)
Definition rescale (data : matrix Q) (num_categories num_bins : Z)
  : result (matrix Q) :=
  if num_bins =? 0 then Raise ZeroDivisionError
  else
    let width := num_categories / num_bins in
    if width =? 0 then Raise RuntimeError
    else Ok (map_matrix (div_floor width) data).

(** The number of distinct codes of an integer matrix. *)
Definition distinct_codes (m : matrix Z) : nat :=
  length (nodup Z.eq_dec (concat (rows m))).

(** [[input_layers['name'] == "categorical" for input_layers in input_type]] *)
Definition categorical_mask (l : list descriptor) : result (list bool) :=
  mapM (fun input_layers =>
          bind (getitem input_layers "name"%string)
               (fun name => Ok (String.eqb name "categorical"%string))) l.

Section WithCallees.

(** The mutual-information matrix and the region graph are whatever the
    callees make them; the orchestrator only passes them on. *)
Variables MI RG : Type.

Variable _heterogeneous_mutual_info : matrix Q -> list bool -> result MI.
Variable _categorical_mutual_info :
  matrix Z -> option Z -> option Z -> result MI.
(** The expression of the "gaussian" branch. *)
Variable gaussian_mutual_info : matrix Q -> result MI.
Variable _maximum_spanning_tree :
  MI -> option Z -> result (list nat * list Z).
Variable tree2rg : list Z -> RG.

(** What the orchestrator calls, in order. *)
Inductive event : Type :=
| CallHeterogeneous (data : matrix Q) (is_categorical_mask : list bool)
| CallCategorical (data : matrix Z) (num_categories chunk_size : option Z)
| CallGaussian (data : matrix Q)
| CallSpanningTree (adj_matrix : MI) (root : option Z)
| CallTree2rg (tree : list Z).

Definition is_estimator_call (e : event) : bool :=
  match e with
  | CallHeterogeneous _ _ | CallCategorical _ _ _ | CallGaussian _ => true
  | CallSpanningTree _ _ | CallTree2rg _ => false
  end.

(** A computation of the orchestrator: the calls made so far and the
    outcome. *)
Definition M (A : Type) : Type := (list event * result A)%type.

Definition ret {A : Type} (a : A) : M A := ([], Ok a).
Definition raise {A : Type} (e : exn) : M A := ([], Raise e).
Definition lift {A : Type} (r : result A) : M A := ([], r).
Definition call {A : Type} (ev : event) (r : result A) : M A := ([ev], r).

Definition bindM {A B : Type} (m : M A) (k : A -> M B) : M B :=
  match m with
  | (t, Ok a) => let (t', r) := k a in (t ++ t', r)
  | (t, Raise e) => (t, Raise e)
  end.

Notation "x <- m ;; k" := (bindM m (fun x => k))
  (at level 61, m at next level, right associativity).

Definition py_assert (b : bool) : M unit :=
  if b then ret tt else raise AssertionError.

Inductive output : Type :=
| Predecessors (tree : list Z)
| AsRegionGraph (rg : RG).

Definition ChowLiuTree (data : tensor) (input_type : input_type_t)
    (root chunk_size num_categories num_bins : option Z)
    (as_region_graph : bool) : M output :=
  _ <- py_assert (Nat.eqb (ndim data) 2) ;;
  let data := as_matrix data in
  _ <- py_assert (match root with
                  | None => true
                  | Some r => (-1 <? r) && (r <? size_last data)
                  end) ;;
  mutual_info <-
    match input_type with
    | PerColumn l =>
        mask <- lift (categorical_mask l) ;;
        call (CallHeterogeneous data mask)
             (_heterogeneous_mutual_info data mask)
    | Tag s =>
        if String.eqb s "categorical"%string then
          data <-
            match num_bins with
            | Some b =>
                match num_categories with
                | None => raise ValueError
                | Some k => lift (rescale data k b)
                end
            | None => ret data
            end ;;
          call (CallCategorical (map_matrix long data) num_categories chunk_size)
               (_categorical_mutual_info (map_matrix long data)
                                         num_categories chunk_size)
        else if String.eqb s "gaussian"%string then
          call (CallGaussian data) (gaussian_mutual_info data)
        else raise NotImplementedError
    end ;;
  bt <- call (CallSpanningTree mutual_info root)
             (_maximum_spanning_tree mutual_info root) ;;
  if as_region_graph
  then call (CallTree2rg (snd bt)) (Ok (AsRegionGraph (tree2rg (snd bt))))
  else ret (Predecessors (snd bt)).

(** [root is None or -1 < root < data.size(-1)] *)
Definition valid_root (data : tensor) (root : option Z) : Prop :=
  match root with
  | None => True
  | Some r => -1 < r < size_last (as_matrix data)
  end.

End WithCallees.

Arguments CallHeterogeneous {MI} data is_categorical_mask.
Arguments CallCategorical {MI} data num_categories chunk_size.
Arguments CallGaussian {MI} data.
Arguments CallSpanningTree {MI} adj_matrix root.
Arguments CallTree2rg {MI} tree.
Arguments is_estimator_call {MI} e.
Arguments Predecessors {RG} tree.
Arguments AsRegionGraph {RG} rg.

End Orchestrator.


(* ================================================================== *)
(** ** Facts on lists and results *)
(* ================================================================== *)

Module BasicFacts.
Import Py Tensors.

Lemma mapM_ok {A B : Type} (f : A -> result B) (g : A -> B) (l : list A) :
  Forall (fun x => f x = Ok (g x)) l -> mapM f l = Ok (map g l).
Proof.
  induction 1 as [|x l Hx _ IH]; simpl; [reflexivity|].
  rewrite Hx; simpl. rewrite IH; reflexivity.
Qed.

Lemma ndim_OtherRank (k : nat) : Nat.eqb (ndim (OtherRank k)) 2 = false.
Proof.
  simpl. destruct (Nat.ltb k 2) eqn:E.
  - apply Nat.ltb_lt in E. apply Nat.eqb_neq. lia.
  - apply Nat.ltb_ge in E. apply Nat.eqb_neq. lia.
Qed.

Lemma map_nth_seq (l : list Z) :
  map (fun b => nth b l 0%Z) (seq 0 (length l)) = l.
Proof.
  apply nth_ext with (d := 0%Z) (d' := 0%Z).
  - now rewrite length_map, length_seq.
  - intros n Hn. rewrite length_map, length_seq in Hn.
    rewrite (nth_indep _ 0%Z (nth 0%nat l 0%Z))
      by now rewrite length_map, length_seq.
    rewrite map_nth with (f := fun b => nth b l 0%Z).
    rewrite seq_nth by assumption. reflexivity.
Qed.

Lemma nth_map_seq (A : Type) (f : nat -> A) (d : A) (n i : nat) :
  (i < n)%nat -> nth i (map f (seq 0 n)) d = f i.
Proof.
  intros H. rewrite (nth_indep _ d (f 0%nat)) by now rewrite length_map, length_seq.
  rewrite map_nth. rewrite seq_nth by assumption. reflexivity.
Qed.

Lemma repeat_map_seq (A : Type) (x : A) (n s : nat) :
  repeat x n = map (fun _ => x) (seq s n).
Proof.
  revert s. induction n as [|n IH]; intros s; simpl;
    [reflexivity | now rewrite <- IH].
Qed.

Lemma forallb_andb (A : Type) (p q : A -> bool) (l : list A) :
  forallb (fun x => p x && q x) l = forallb p l && forallb q l.
Proof.
  induction l as [|x l IH]; simpl; [reflexivity|].
  rewrite IH. destruct (p x), (q x), (forallb p l), (forallb q l); reflexivity.
Qed.

Lemma forallb_pointwise (A : Type) (p q : A -> bool) (l : list A) :
  (forall x, p x = q x) -> forallb p l = forallb q l.
Proof.
  intros H. induction l as [|x l IH]; simpl; [reflexivity|].
  now rewrite H, IH.
Qed.

End BasicFacts.


(* ================================================================== *)
(** ** Facts on floats and sums *)
(* ================================================================== *)

Module XRealFacts.
Import XReal.
Local Open Scope R_scope.

Lemma signed_inf_pos (r : R) : 0 < r -> signed_inf r = PInf.
Proof.
  intros H. unfold signed_inf.
  destruct (total_order_T r 0) as [[Hlt|Heq]|Hgt]; try reflexivity; lra.
Qed.

Lemma signed_inf_zero : signed_inf 0 = NaN.
Proof.
  unfold signed_inf.
  destruct (total_order_T 0 0) as [[Hlt|Heq]|Hgt]; try reflexivity; lra.
Qed.

Lemma xdiv_fin (a b : R) : b <> 0 -> xdiv (Fin a) (Fin b) = Fin (a / b).
Proof.
  intros H. simpl. destruct (Req_dec_T b 0); [contradiction | reflexivity].
Qed.

Lemma xdiv_zero_zero : xdiv (Fin 0) (Fin 0) = NaN.
Proof.
  simpl. destruct (Req_dec_T 0 0) as [_|H]; [apply signed_inf_zero | now contradiction H].
Qed.

Lemma xlog_pos (r : R) : 0 < r -> xlog (Fin r) = Fin (ln r).
Proof.
  intros H. simpl.
  destruct (total_order_T r 0) as [[Hlt|Heq]|Hgt]; try reflexivity; lra.
Qed.

Lemma xlog_zero : xlog (Fin 0) = NInf.
Proof.
  simpl. destruct (total_order_T 0 0) as [[Hlt|Heq]|Hgt]; try reflexivity; lra.
Qed.

Lemma xadd_nan_l (x : xreal) : xadd NaN x = NaN.
Proof. reflexivity. Qed.

Lemma xadd_nan_r (x : xreal) : xadd x NaN = NaN.
Proof. destruct x; reflexivity. Qed.

Lemma xmul_nan_l (x : xreal) : xmul NaN x = NaN.
Proof. reflexivity. Qed.

Lemma xmul_nan_r (x : xreal) : xmul x NaN = NaN.
Proof. destruct x; reflexivity. Qed.

Lemma xsum_fin (l : list R) : xsum (map Fin l) = Fin (rsum l).
Proof.
  induction l as [|a l IH]; [reflexivity|].
  change (xsum (map Fin (a :: l))) with (xadd (Fin a) (xsum (map Fin l))).
  rewrite IH. reflexivity.
Qed.

Lemma xsum_map_fin (A : Type) (f : A -> xreal) (g : A -> R) (l : list A) :
  (forall x, In x l -> f x = Fin (g x)) -> xsum (map f l) = Fin (rsum (map g l)).
Proof.
  intros H. rewrite <- xsum_fin, map_map. f_equal. apply map_ext_in. exact H.
Qed.

Lemma xsum_nan (l : list xreal) : In NaN l -> xsum l = NaN.
Proof.
  induction l as [|a l IH]; [intros []|].
  change (xsum (a :: l)) with (xadd a (xsum l)).
  intros [->|H]; [reflexivity|].
  rewrite (IH H). apply xadd_nan_r.
Qed.

Lemma rsum_app (l1 l2 : list R) : rsum (l1 ++ l2) = rsum l1 + rsum l2.
Proof. induction l1 as [|a l1 IH]; simpl; [lra | rewrite IH; lra]. Qed.

Lemma rsum_le (A : Type) (f g : A -> R) (l : list A) :
  (forall x, In x l -> f x <= g x) -> rsum (map f l) <= rsum (map g l).
Proof.
  induction l as [|a l IH]; intros H; simpl; [lra|].
  pose proof (H a (or_introl eq_refl)).
  assert (rsum (map f l) <= rsum (map g l)) by (apply IH; intros; apply H; now right).
  lra.
Qed.

Lemma rsum_ext (A : Type) (f g : A -> R) (l : list A) :
  (forall x, In x l -> f x = g x) -> rsum (map f l) = rsum (map g l).
Proof.
  intros H. f_equal. apply map_ext_in. exact H.
Qed.

Lemma rsum_plus (A : Type) (f g : A -> R) (l : list A) :
  rsum (map (fun x => f x + g x) l) = rsum (map f l) + rsum (map g l).
Proof. induction l as [|a l IH]; simpl; [lra | rewrite IH; lra]. Qed.

Lemma rsum_minus (A : Type) (f g : A -> R) (l : list A) :
  rsum (map (fun x => f x - g x) l) = rsum (map f l) - rsum (map g l).
Proof. induction l as [|a l IH]; simpl; [lra | rewrite IH; lra]. Qed.

Lemma rsum_scal (A : Type) (c : R) (f : A -> R) (l : list A) :
  rsum (map (fun x => c * f x) l) = c * rsum (map f l).
Proof. induction l as [|a l IH]; simpl; [lra | rewrite IH; lra]. Qed.

Lemma rsum_const (A : Type) (c : R) (l : list A) :
  rsum (map (fun _ => c) l) = INR (length l) * c.
Proof.
  induction l as [|a l IH]; [simpl; lra|].
  change (length (a :: l)) with (S (length l)). rewrite S_INR.
  simpl. rewrite IH. lra.
Qed.

(** [ln x <= x - 1] *)
Lemma ln_le_minus_1 (x : R) : 0 < x -> ln x <= x - 1.
Proof.
  intros Hx. pose proof (exp_ineq1_le (ln x)) as H.
  rewrite exp_ln in H by assumption. lra.
Qed.

(** Gibbs' inequality, one term. *)
Lemma gibbs_term (p q : R) : 0 < p -> 0 < q -> p - q <= p * (ln p - ln q).
Proof.
  intros Hp Hq.
  assert (Hr : 0 < q / p) by (apply Rdiv_lt_0_compat; assumption).
  pose proof (ln_le_minus_1 (q / p) Hr) as H.
  unfold Rdiv in H. rewrite ln_mult in H by (try assumption; now apply Rinv_0_lt_compat).
  rewrite ln_Rinv in H by assumption.
  assert (H2 : p * (ln q + - ln p) <= p * (q * / p - 1)).
  { apply Rmult_le_compat_l; lra. }
  assert (H3 : p * (q * / p - 1) = q - p) by (field; lra).
  lra.
Qed.

(** ** The range of float32 *)

Lemma float32_threshold_pos : 0 < / 2 ^ 150.
Proof. apply Rinv_0_lt_compat. apply pow_lt. lra. Qed.

Lemma float32_threshold_lt_1 : / 2 ^ 150 < 1.
Proof.
  assert (H : 1 < 2 ^ 150) by (apply Rlt_pow_R1; [lra | lia]).
  replace 1 with (/ 1) by apply Rinv_1.
  apply Rinv_lt_contravar; lra.
Qed.

(** Zero, and a number above the threshold, are what they are in float32. *)
Lemma to_float32_same (x : R) :
  x = 0 \/ / 2 ^ 150 < x -> to_float32 x = x.
Proof.
  intros [->|H]; unfold to_float32; destruct (Rle_dec _ _) as [Hle|Hgt];
    try reflexivity.
  pose proof float32_threshold_pos.
  rewrite Rabs_pos_eq in Hle by lra. lra.
Qed.


End XRealFacts.


(* ================================================================== *)
(** ** The joint counts in closed form *)
(* ================================================================== *)

Module CategoricalFacts.
Import Py Tensors BasicFacts XReal XRealFacts Categorical.
Local Open Scope Z_scope.

(** The index [k] is one of [n] bins. *)
Definition in_bins (n : nat) (k : Z) : bool := (0 <=? k) && (k <? Z.of_nat n).

(** How often bin [b] occurs in a list of indices. *)
Definition occurrences (index : list Z) (b : nat) : Z :=
  Z.of_nat (count_occ Z.eq_dec index (Z.of_nat b)).

(** The histogram [self] after every index of [index] was added. *)
Definition add_counts (self index : list Z) : list Z :=
  map (fun b => nth b self 0 + occurrences index b) (seq 0 (length self)).

(** Every joint index of the data falls in one of the [K * K] bins. *)
Definition valid_codes (F : nat) (K : Z) (l : list (list Z)) : bool :=
  forallb (fun i =>
             forallb (fun j =>
                        forallb (in_bins (Z.to_nat (K * K)))
                                (joint_values K l i j))
                     (seq 0 F))
          (seq 0 F).

(** The joint counts of the rows [l], in one go. *)
Definition counts (F : nat) (K : Z) (l : list (list Z)) : tensor3 :=
  map (fun i =>
         map (fun j => add_counts (repeat 0 (Z.to_nat (K * K)))
                                  (joint_values K l i j))
             (seq 0 F))
      (seq 0 F).

Lemma incr_length (k : nat) (l : list Z) : length (incr k l) = length l.
Proof.
  revert k. induction l as [|x l IH]; intros [|k]; simpl; try reflexivity.
  now rewrite IH.
Qed.

Lemma nth_incr (k b : nat) (l : list Z) :
  (k < length l)%nat ->
  nth b (incr k l) 0 = nth b l 0 + (if Nat.eqb b k then 1 else 0).
Proof.
  revert k b. induction l as [|x l IH]; intros k b Hk; simpl in Hk; [lia|].
  destruct k as [|k]; destruct b as [|b]; simpl; try lia.
  apply IH. lia.
Qed.

Lemma occurrences_cons (k : Z) (index : list Z) (b : nat) :
  0 <= k ->
  occurrences (k :: index) b
  = (if Nat.eqb b (Z.to_nat k) then 1 else 0) + occurrences index b.
Proof.
  intros Hk. unfold occurrences. simpl.
  destruct (Z.eq_dec k (Z.of_nat b)) as [E|E].
  - subst k. rewrite Nat2Z.id, Nat.eqb_refl. lia.
  - destruct (Nat.eqb_spec b (Z.to_nat k)) as [E'|E']; [|lia].
    exfalso. apply E. subst b. now rewrite Z2Nat.id.
Qed.

Lemma occurrences_app (l1 l2 : list Z) (b : nat) :
  occurrences (l1 ++ l2) b = occurrences l1 b + occurrences l2 b.
Proof. unfold occurrences. rewrite count_occ_app. lia. Qed.

Lemma add_counts_length (self index : list Z) :
  length (add_counts self index) = length self.
Proof. unfold add_counts. now rewrite length_map, length_seq. Qed.

(** [scatter_add_row] in closed form. *)
Lemma scatter_add_row_closed (index self : list Z) :
  scatter_add_row self index
  = if forallb (in_bins (length self)) index
    then Ok (add_counts self index)
    else Raise RuntimeError.
Proof.
  revert self. induction index as [|k index IH]; intros self; simpl.
  - unfold add_counts. f_equal. symmetry.
    erewrite map_ext; [apply map_nth_seq|].
    intros b. unfold occurrences. simpl. lia.
  - unfold in_bins at 1.
    destruct ((0 <=? k) && (k <? Z.of_nat (length self))) eqn:Hk; simpl;
      [|reflexivity].
    apply andb_true_iff in Hk. destruct Hk as [Hk0 Hk1].
    apply Z.leb_le in Hk0. apply Z.ltb_lt in Hk1.
    rewrite IH, incr_length.
    destruct (forallb (in_bins (length self)) index); [|reflexivity].
    f_equal. unfold add_counts. rewrite incr_length.
    apply map_ext_in. intros b Hb. apply in_seq in Hb.
    rewrite nth_incr by lia. rewrite occurrences_cons by assumption. lia.
Qed.

Lemma add_counts_add_counts (self l1 l2 : list Z) :
  add_counts (add_counts self l1) l2 = add_counts self (l1 ++ l2).
Proof.
  unfold add_counts at 1. rewrite add_counts_length.
  unfold add_counts at 2. apply map_ext_in. intros b Hb. apply in_seq in Hb.
  unfold add_counts. rewrite nth_map_seq by lia.
  rewrite occurrences_app. lia.
Qed.

(** A comprehension whose body either succeeds or raises the one
    exception [e]. *)
Lemma mapM_guarded (A B : Type) (f : A -> result B) (p : A -> bool)
    (g : A -> B) (e : exn) (l : list A) :
  (forall x, In x l -> f x = if p x then Ok (g x) else Raise e) ->
  mapM f l = if forallb p l then Ok (map g l) else Raise e.
Proof.
  induction l as [|x l IH]; intros H; simpl; [reflexivity|].
  rewrite (H x (or_introl eq_refl)).
  destruct (p x); simpl; [|reflexivity].
  rewrite IH by (intros y Hy; apply H; now right).
  destruct (forallb p l); reflexivity.
Qed.

Lemma valid_codes_app (F : nat) (K : Z) (l1 l2 : list (list Z)) :
  valid_codes F K (l1 ++ l2) = valid_codes F K l1 && valid_codes F K l2.
Proof.
  unfold valid_codes. rewrite <- forallb_andb.
  apply forallb_pointwise. intros i. rewrite <- forallb_andb.
  apply forallb_pointwise. intros j.
  unfold joint_values. rewrite map_app. apply forallb_app.
Qed.

Lemma entry3_counts (F : nat) (K : Z) (l : list (list Z)) (i j : nat) :
  (i < F)%nat -> (j < F)%nat ->
  entry3 (counts F K l) i j
  = add_counts (repeat 0 (Z.to_nat (K * K))) (joint_values K l i j).
Proof.
  intros Hi Hj. unfold entry3, counts.
  rewrite nth_map_seq by assumption. now rewrite nth_map_seq.
Qed.

(** One step of the loop, from the counts of the rows seen so far. *)
Lemma scatter_add_counts (F : nat) (K : Z) (l chunk : list (list Z)) :
  scatter_add_ F K (counts F K l) chunk
  = if valid_codes F K chunk
    then Ok (counts F K (l ++ chunk))
    else Raise RuntimeError.
Proof.
  unfold scatter_add_, valid_codes, counts.
  apply mapM_guarded. intros i Hi. apply in_seq in Hi.
  apply mapM_guarded. intros j Hj. apply in_seq in Hj.
  fold (counts F K l). rewrite entry3_counts by lia.
  rewrite scatter_add_row_closed, add_counts_length, repeat_length.
  destruct (forallb _ _); [|reflexivity].
  rewrite add_counts_add_counts. unfold joint_values. now rewrite map_app.
Qed.

Lemma accumulate_counts (F : nat) (K : Z) (chunks : list (list (list Z)))
    (l : list (list Z)) :
  accumulate F K (counts F K l) chunks
  = if valid_codes F K (concat chunks)
    then Ok (counts F K (l ++ concat chunks))
    else Raise RuntimeError.
Proof.
  revert l. induction chunks as [|chunk chunks IH]; intros l; simpl.
  - unfold valid_codes.
    rewrite app_nil_r.
    replace (forallb _ (seq 0 F)) with true; [reflexivity|].
    symmetry. apply forallb_forall. intros i _.
    apply forallb_forall. intros j _. reflexivity.
  - rewrite scatter_add_counts, valid_codes_app.
    destruct (valid_codes F K chunk); simpl; [|reflexivity].
    rewrite IH, app_assoc. reflexivity.
Qed.

Lemma zeros3_counts (F : nat) (K : Z) :
  zeros3 F (Z.to_nat (K * K)) = counts F K [].
Proof.
  unfold zeros3, counts.
  pose proof (fun A x n => repeat_map_seq A x n 0%nat) as Hrep.
  rewrite (Hrep _ _ F). apply map_ext. intros i.
  rewrite (Hrep _ _ F). apply map_ext. intros j.
  unfold add_counts, joint_values. simpl. rewrite repeat_length.
  rewrite (Hrep _ 0 (Z.to_nat (K * K))) at 1.
  apply map_ext_in. intros b Hb. apply in_seq in Hb.
  rewrite nth_repeat. unfold occurrences. simpl. lia.
Qed.

Lemma concat_chunks_of (c : nat) (fuel : nat) (l : list (list Z)) :
  (0 < c)%nat -> (length l <= fuel)%nat -> concat (chunks_of fuel c l) = l.
Proof.
  intros Hc. revert l. induction fuel as [|fuel IH]; intros l Hl; simpl.
  - destruct l; [reflexivity | simpl in Hl; lia].
  - destruct l as [|x l]; [reflexivity|].
    change (concat (firstn c (x :: l) :: chunks_of fuel c (skipn c (x :: l))))
      with (firstn c (x :: l) ++ concat (chunks_of fuel c (skipn c (x :: l)))).
    rewrite IH; [apply firstn_skipn|].
    rewrite length_skipn. change (length (x :: l)) with (S (length l)) in *.
    lia.
Qed.

(** A chunk size that [split] accepts whatever the number of rows. *)
Definition valid_chunk_size (chunk_size : option Z) : Prop :=
  match chunk_size with
  | Some c => 0 < c
  | None => True
  end.

Lemma split_concat (l : list (list Z)) (chunk_size : option Z) :
  valid_chunk_size chunk_size ->
  exists chunks,
    split l (match chunk_size with
             | Some c => c
             | None => Z.of_nat (length l)
             end) = Ok chunks
    /\ concat chunks = l.
Proof.
  intros Hc. unfold split.
  destruct l as [|x l].
  - exists [[]]. split; [|reflexivity].
    destruct chunk_size as [c|]; simpl in *.
    + destruct (Z.ltb_spec c 0); [lia | reflexivity].
    + reflexivity.
  - set (c := match chunk_size with Some c => c | None => Z.of_nat (length (x :: l)) end).
    assert (Hpos : 0 < c).
    { subst c. destruct chunk_size; simpl in *; lia. }
    destruct (Z.ltb_spec c 0); [lia|].
    destruct (Z.eqb_spec c 0); [lia|].
    eexists. split; [reflexivity|].
    apply concat_chunks_of; lia.
Qed.

(** The joint counts do not depend on the chunk size. *)
Lemma joint_counts_closed (F : nat) (K : Z) (l : list (list Z))
    (chunk_size : option Z) :
  valid_chunk_size chunk_size ->
  bind (split l (match chunk_size with
                 | Some c => c
                 | None => Z.of_nat (length l)
                 end))
       (accumulate F K (zeros3 F (Z.to_nat (K * K))))
  = if valid_codes F K l then Ok (counts F K l) else Raise RuntimeError.
Proof.
  intros Hc. destruct (split_concat l chunk_size Hc) as [chunks [Hs Hcat]].
  rewrite Hs. simpl. rewrite zeros3_counts, accumulate_counts, Hcat.
  reflexivity.
Qed.

Lemma bind_assoc (A B C : Type) (r : result A) (f : A -> result B)
    (g : B -> result C) :
  bind (bind r f) g = bind r (fun x => bind (f x) g).
Proof. destruct r; reflexivity. Qed.

Lemma bind_pointwise (A B : Type) (r : result A) (f g : A -> result B) :
  (forall x, f x = g x) -> bind r f = bind r g.
Proof. intros H. destruct r; simpl; [apply H | reflexivity]. Qed.

(** The category count the estimator works with. *)
Definition num_categories_of (data : matrix Z) (num_categories : option Z)
  : result Z :=
  match num_categories with
  | Some k => Ok k
  | None => bind (tensor_max data) (fun m => Ok (m + 1))
  end.

(** The estimator without its loop over chunks. *)
Lemma categorical_mutual_info_closed (data : matrix Z) (alpha : R)
    (num_categories chunk_size : option Z) :
  valid_chunk_size chunk_size ->
  _categorical_mutual_info data alpha num_categories chunk_size
  = bind (num_categories_of data num_categories)
      (fun K =>
         if K <? 0 then Raise RuntimeError
         else if valid_codes (n_cols data) K (rows data)
              then Ok (mutual_info alpha (n_rows data) (n_cols data) K
                         (counts (n_cols data) K (rows data)))
              else Raise RuntimeError).
Proof.
  intros Hc. unfold _categorical_mutual_info.
  fold (num_categories_of data num_categories).
  apply bind_pointwise. intros K.
  destruct (K <? 0); [reflexivity|].
  rewrite <- bind_assoc.
  unfold n_rows.
  rewrite (joint_counts_closed (n_cols data) K (rows data) chunk_size Hc).
  destruct (valid_codes (n_cols data) K (rows data)); reflexivity.
Qed.

(** Every code lies in [[0, K)]. *)
Definition codes_in_range (K : Z) (data : matrix Z) : Prop :=
  Forall (Forall (fun x => 0 <= x < K)) (rows data).

Lemma code_in_range (K : Z) (data : matrix Z) (r : list Z) (i : nat) :
  well_shaped data -> codes_in_range K data ->
  In r (rows data) -> (i < n_cols data)%nat ->
  0 <= nth i r 0 < K.
Proof.
  intros Hs Hr Hin Hi.
  unfold well_shaped in Hs. rewrite Forall_forall in Hs.
  unfold codes_in_range in Hr. rewrite Forall_forall in Hr.
  specialize (Hs r Hin). specialize (Hr r Hin).
  rewrite Forall_forall in Hr. apply Hr. apply nth_In. lia.
Qed.

(** An integer of the range of 64 bits is its own value in 64 bits. *)
Lemma int64_same (z : Z) : - 2 ^ 63 <= z < 2 ^ 63 -> int64 z = z.
Proof.
  intros H. unfold int64. rewrite Z.mod_small; lia.
Qed.

(** The joint index of two categories, of [2 ^ 31] categories at most, does
    not wrap. *)
Lemma joint_index_same (K x y : Z) :
  K <= 2 ^ 31 -> 0 <= x < K -> 0 <= y < K -> int64 (x * K + y) = x * K + y.
Proof. intros HK Hx Hy. apply int64_same. nia. Qed.

Lemma valid_codes_in_range (K : Z) (data : matrix Z) :
  K <= 2 ^ 31 ->
  well_shaped data -> codes_in_range K data ->
  valid_codes (n_cols data) K (rows data) = true.
Proof.
  intros HK Hs Hr. unfold valid_codes.
  apply forallb_forall. intros i Hi. apply in_seq in Hi.
  apply forallb_forall. intros j Hj. apply in_seq in Hj.
  apply forallb_forall. intros v Hv.
  unfold joint_values in Hv. apply in_map_iff in Hv.
  destruct Hv as [r [<- Hin]].
  pose proof (code_in_range K data r i Hs Hr Hin ltac:(lia)) as Hi'.
  pose proof (code_in_range K data r j Hs Hr Hin ltac:(lia)) as Hj'.
  rewrite joint_index_same by assumption.
  unfold in_bins. apply andb_true_iff. split.
  - apply Z.leb_le. nia.
  - apply Z.ltb_lt. rewrite Z2Nat.id by nia. nia.
Qed.

Section Sums.
Local Open Scope R_scope.

(** A sum over all pairs of categories. *)
Definition rsum2 (f : nat -> nat -> R) (n : nat) : R :=
  rsum (map (fun a => rsum (map (f a) (seq 0 n))) (seq 0 n)).

Lemma rsum_zero (A : Type) (f : A -> R) (l : list A) :
  (forall x, In x l -> f x = 0) -> rsum (map f l) = 0.
Proof.
  induction l as [|a l IH]; intros H; simpl; [reflexivity|].
  rewrite (H a (or_introl eq_refl)), IH; [lra|].
  intros x Hx. apply H. now right.
Qed.

Lemma rsum_indicator (c : R) (x n s : nat) :
  (s <= x < s + n)%nat ->
  rsum (map (fun a => if Nat.eqb a x then c else 0) (seq s n)) = c.
Proof.
  revert s. induction n as [|n IH]; intros s Hx; [lia|].
  simpl. destruct (Nat.eqb_spec s x) as [E|E].
  - rewrite rsum_zero; [lra|].
    intros a Ha. apply in_seq in Ha.
    destruct (Nat.eqb_spec a x); [lia | reflexivity].
  - rewrite IH by lia. lra.
Qed.

Lemma rsum2_ext (f g : nat -> nat -> R) (n : nat) :
  (forall a b, (a < n)%nat -> (b < n)%nat -> f a b = g a b) ->
  rsum2 f n = rsum2 g n.
Proof.
  intros H. unfold rsum2. apply rsum_ext. intros a Ha. apply in_seq in Ha.
  apply rsum_ext. intros b Hb. apply in_seq in Hb. apply H; lia.
Qed.

Lemma rsum2_le (f g : nat -> nat -> R) (n : nat) :
  (forall a b, (a < n)%nat -> (b < n)%nat -> f a b <= g a b) ->
  rsum2 f n <= rsum2 g n.
Proof.
  intros H. unfold rsum2. apply rsum_le. intros a Ha. apply in_seq in Ha.
  apply rsum_le. intros b Hb. apply in_seq in Hb. apply H; lia.
Qed.

Lemma rsum2_plus (f g : nat -> nat -> R) (n : nat) :
  rsum2 (fun a b => f a b + g a b) n = rsum2 f n + rsum2 g n.
Proof.
  unfold rsum2. rewrite <- rsum_plus. apply rsum_ext. intros a _.
  apply rsum_plus.
Qed.

Lemma rsum2_minus (f g : nat -> nat -> R) (n : nat) :
  rsum2 (fun a b => f a b - g a b) n = rsum2 f n - rsum2 g n.
Proof.
  unfold rsum2. rewrite <- rsum_minus. apply rsum_ext. intros a _.
  apply rsum_minus.
Qed.

Lemma rsum2_scal (c : R) (f : nat -> nat -> R) (n : nat) :
  rsum2 (fun a b => c * f a b) n = c * rsum2 f n.
Proof.
  unfold rsum2. rewrite <- rsum_scal. apply rsum_ext. intros a _.
  apply rsum_scal.
Qed.

Lemma rsum2_const (c : R) (n : nat) :
  rsum2 (fun _ _ => c) n = INR n * INR n * c.
Proof.
  unfold rsum2.
  rewrite (rsum_ext _ _ (fun _ => INR n * c)).
  - rewrite rsum_const, length_seq. lra.
  - intros a _. now rewrite rsum_const, length_seq.
Qed.

Lemma rsum2_product (f g : nat -> R) (n : nat) :
  rsum2 (fun a b => f a * g b) n
  = rsum (map f (seq 0 n)) * rsum (map g (seq 0 n)).
Proof.
  unfold rsum2.
  rewrite (rsum_ext _ _ (fun a => rsum (map g (seq 0 n)) * f a)).
  - rewrite rsum_scal. lra.
  - intros a _. rewrite rsum_scal. lra.
Qed.

Lemma joint_index_eqb (n a b x y : nat) :
  (b < n)%nat -> (y < n)%nat ->
  Nat.eqb (a * n + b) (x * n + y) = Nat.eqb a x && Nat.eqb b y.
Proof.
  intros Hb Hy.
  destruct (Nat.eqb_spec a x) as [Ea|Ea]; destruct (Nat.eqb_spec b y) as [Eb|Eb];
    simpl; try (apply Nat.eqb_eq; subst; reflexivity); apply Nat.eqb_neq; nia.
Qed.

Lemma rsum2_indicator (n x y : nat) :
  (x < n)%nat -> (y < n)%nat ->
  rsum2 (fun a b => if Nat.eqb (a * n + b) (x * n + y) then 1 else 0) n = 1.
Proof.
  intros Hx Hy. unfold rsum2.
  rewrite (rsum_ext _ _ (fun a => if Nat.eqb a x then 1 else 0)).
  - apply rsum_indicator. lia.
  - intros a Ha. destruct (Nat.eqb_spec a x) as [E|E].
    + rewrite (rsum_ext _ _ (fun b => if Nat.eqb b y then 1 else 0)).
      * apply rsum_indicator. lia.
      * intros b Hb. apply in_seq in Hb.
        rewrite joint_index_eqb by lia. subst a. now rewrite Nat.eqb_refl.
    + apply rsum_zero. intros b Hb. apply in_seq in Hb.
      rewrite joint_index_eqb by lia.
      destruct (Nat.eqb_spec a x); [contradiction | reflexivity].
Qed.

Lemma IZR_occurrences_cons (k : Z) (index : list Z) (b : nat) :
  (0 <= k)%Z ->
  IZR (occurrences (k :: index) b)
  = (if Nat.eqb b (Z.to_nat k) then 1 else 0) + IZR (occurrences index b).
Proof.
  intros Hk. rewrite occurrences_cons by assumption. rewrite plus_IZR.
  destruct (Nat.eqb b (Z.to_nat k)); reflexivity.
Qed.

Lemma occurrences_nonneg (index : list Z) (b : nat) :
  0 <= IZR (occurrences index b).
Proof. apply IZR_le. unfold occurrences. lia. Qed.

(** Every sample falls in exactly one pair of categories. *)
Lemma total_joint_occurrences (K : Z) (l : list (list Z)) (i j : nat) :
  (K <= 2 ^ 31)%Z ->
  (forall r, In r l -> (0 <= nth i r 0%Z < K)%Z /\ (0 <= nth j r 0%Z < K)%Z) ->
  rsum2 (fun a b =>
           IZR (occurrences (joint_values K l i j) (a * Z.to_nat K + b)))
        (Z.to_nat K)
  = INR (length l).
Proof.
  intros HK. induction l as [|r l IH]; intros H.
  - simpl. rewrite (rsum2_ext _ (fun _ _ => 0)).
    + rewrite rsum2_const. lra.
    + intros. reflexivity.
  - destruct (H r (or_introl eq_refl)) as [[Hx0 Hx1] [Hy0 Hy1]].
    change (joint_values K (r :: l) i j)
      with (int64 (nth i r 0%Z * K + nth j r 0%Z)%Z :: joint_values K l i j).
    rewrite joint_index_same by lia.
    rewrite (rsum2_ext _ (fun a b =>
               (if Nat.eqb (a * Z.to_nat K + b)
                     (Z.to_nat (nth i r 0%Z) * Z.to_nat K + Z.to_nat (nth j r 0%Z))
                then 1 else 0)
               + IZR (occurrences (joint_values K l i j) (a * Z.to_nat K + b)))).
    + rewrite rsum2_plus, rsum2_indicator by lia.
      rewrite IH by (intros r' Hr'; apply H; now right).
      change (length (r :: l)) with (S (length l)). rewrite S_INR. lra.
    + intros a b _ _. rewrite IZR_occurrences_cons by nia.
      replace (Z.to_nat (nth i r 0%Z * K + nth j r 0%Z))
        with (Z.to_nat (nth i r 0%Z) * Z.to_nat K + Z.to_nat (nth j r 0%Z))%nat
        by nia.
      reflexivity.
Qed.

(** Every sample falls in exactly one category of a feature. *)
Lemma total_marginal_occurrences (K : Z) (l : list (list Z)) (i : nat) :
  (K <= 2 ^ 31)%Z ->
  (forall r, In r l -> (0 <= nth i r 0%Z < K)%Z) ->
  rsum (map (fun a =>
               IZR (occurrences (joint_values K l i i) (a * Z.to_nat K + a)))
            (seq 0 (Z.to_nat K)))
  = INR (length l).
Proof.
  intros HK. induction l as [|r l IH]; intros H.
  - simpl. rewrite rsum_zero; [reflexivity | intros; reflexivity].
  - destruct (H r (or_introl eq_refl)) as [Hx0 Hx1].
    change (joint_values K (r :: l) i i)
      with (int64 (nth i r 0%Z * K + nth i r 0%Z)%Z :: joint_values K l i i).
    rewrite joint_index_same by lia.
    rewrite (rsum_ext _ _ (fun a =>
               (if Nat.eqb a (Z.to_nat (nth i r 0%Z)) then 1 else 0)
               + IZR (occurrences (joint_values K l i i) (a * Z.to_nat K + a)))).
    + rewrite rsum_plus, rsum_indicator by lia.
      rewrite IH by (intros r' Hr'; apply H; now right).
      change (length (r :: l)) with (S (length l)). rewrite S_INR. lra.
    + intros a Ha. apply in_seq in Ha. rewrite IZR_occurrences_cons by nia.
      f_equal.
      replace (Z.to_nat (nth i r 0%Z * K + nth i r 0%Z))
        with (Z.to_nat (nth i r 0%Z) * Z.to_nat K + Z.to_nat (nth i r 0%Z))%nat
        by nia.
      rewrite joint_index_eqb by lia.
      destruct (Nat.eqb a (Z.to_nat (nth i r 0%Z))); reflexivity.
Qed.

End Sums.

Lemma joint_count_counts (F : nat) (K : Z) (l : list (list Z))
    (i j a b : nat) :
  (i < F)%nat -> (j < F)%nat -> (a < Z.to_nat K)%nat -> (b < Z.to_nat K)%nat ->
  joint_count K (counts F K l) i j a b
  = occurrences (joint_values K l i j) (a * Z.to_nat K + b).
Proof.
  intros Hi Hj Ha Hb. unfold joint_count. rewrite entry3_counts by assumption.
  unfold add_counts. rewrite repeat_length.
  assert (Hlt : (a * Z.to_nat K + b < Z.to_nat (K * K))%nat) by nia.
  rewrite nth_map_seq by assumption.
  rewrite nth_repeat. lia.
Qed.

Section Entries.
Local Open Scope R_scope.

Variable alpha : R.
Variable data : matrix Z.
Variable K : Z.
Hypothesis alpha_float32 : / 2 ^ 150 < alpha.
Hypothesis data_shaped : well_shaped data.
Hypothesis data_in_range : codes_in_range K data.
Hypothesis K_nonneg : (0 <= K)%Z.
Hypothesis K_int32 : (K <= 2 ^ 31)%Z.

Let F : nat := n_cols data.
Let n : nat := n_rows data.
Let Kn : nat := Z.to_nat K.
Let jc : tensor3 := counts F K (rows data).
Let D : R := denominator alpha n K.

(** The smoothed joint and marginal probabilities, as reals. *)
Definition joint_prob (i j a b : nat) : R :=
  (IZR (joint_count K jc i j a b) + alpha) / D.

Definition marginal_prob (i a : nat) : R :=
  (IZR (marginal_count K jc i a) + IZR K * alpha) / D.

Lemma IZR_K : IZR K = INR Kn.
Proof. unfold Kn. rewrite INR_IZR_INZ, Z2Nat.id by assumption. reflexivity. Qed.

Lemma alpha_pos : 0 < alpha.
Proof.
  apply Rlt_trans with (/ 2 ^ 150); [|exact alpha_float32].
  apply Rinv_0_lt_compat. apply pow_lt. lra.
Qed.

Lemma denominator_eq : D = INR n + INR Kn * INR Kn * alpha.
Proof.
  unfold D, denominator. rewrite mult_IZR, IZR_K.
  pose proof alpha_pos as Ha. pose proof (pos_INR n) as Hn.
  pose proof (pos_INR Kn) as HK.
  apply to_float32_same.
  destruct (Nat.eq_dec Kn 0) as [E|E].
  - rewrite E. simpl INR. destruct (Nat.eq_dec n 0) as [E'|E'].
    + left. rewrite E'. simpl. ring.
    + right. assert (1 <= INR n) by (change 1 with (INR 1); apply le_INR; lia).
      pose proof float32_threshold_lt_1. lra.
  - right.
    assert (1 <= INR Kn) by (change 1 with (INR 1); apply le_INR; lia).
    assert (1 <= INR Kn * INR Kn) by nra.
    nra.
Qed.

Lemma denominator_pos : (0 < Kn)%nat -> 0 < D.
Proof.
  intros HK. rewrite denominator_eq.
  assert (H1 : 1 <= INR Kn) by (change 1 with (INR 1); apply le_INR; lia).
  assert (H2 : 0 <= INR n) by apply pos_INR.
  assert (H3 : 1 <= INR Kn * INR Kn) by nra.
  nra.
Qed.

Lemma joint_count_nonneg (i j a b : nat) :
  (i < F)%nat -> (j < F)%nat -> (a < Kn)%nat -> (b < Kn)%nat ->
  0 <= IZR (joint_count K jc i j a b).
Proof.
  intros Hi Hj Ha Hb. unfold jc. rewrite joint_count_counts by assumption.
  apply occurrences_nonneg.
Qed.

Lemma joint_prob_pos (i j a b : nat) :
  (i < F)%nat -> (j < F)%nat -> (a < Kn)%nat -> (b < Kn)%nat ->
  0 < joint_prob i j a b.
Proof.
  intros Hi Hj Ha Hb. unfold joint_prob. apply Rdiv_lt_0_compat.
  - pose proof (joint_count_nonneg i j a b Hi Hj Ha Hb). lra.
  - apply denominator_pos. lia.
Qed.

Lemma marginal_prob_pos (i a : nat) :
  (i < F)%nat -> (a < Kn)%nat -> 0 < marginal_prob i a.
Proof.
  intros Hi Ha. unfold marginal_prob, marginal_count. apply Rdiv_lt_0_compat.
  - pose proof (joint_count_nonneg i i a a Hi Hi Ha Ha).
    rewrite IZR_K.
    assert (1 <= INR Kn) by (change 1 with (INR 1); apply le_INR; lia).
    nra.
  - apply denominator_pos. lia.
Qed.

Lemma marginal_fin (i a : nat) :
  (a < Kn)%nat -> marginal alpha n K jc i a = Fin (marginal_prob i a).
Proof.
  intros Ha. unfold marginal, marginal_prob.
  rewrite (to_float32_same (IZR K * alpha)).
  - apply xdiv_fin.
    assert (0 < D) by (apply denominator_pos; lia). fold D. lra.
  - right. rewrite IZR_K.
    assert (1 <= INR Kn) by (change 1 with (INR 1); apply le_INR; lia).
    pose proof alpha_pos. nra.
Qed.

Lemma joint_fin (i j a b : nat) :
  i <> j -> (a < Kn)%nat ->
  joint alpha n K jc i j a b = Fin (joint_prob i j a b).
Proof.
  intros Hij Ha. unfold joint, joint_prob.
  destruct (Nat.eqb_spec i j); [contradiction|].
  rewrite (to_float32_same alpha) by (right; exact alpha_float32).
  apply xdiv_fin.
  assert (0 < D) by (apply denominator_pos; lia). fold D. lra.
Qed.

Lemma rows_in_range (i : nat) (r : list Z) :
  (i < F)%nat -> In r (rows data) -> (0 <= nth i r 0%Z < K)%Z.
Proof. intros Hi Hr. now apply (code_in_range K data r i). Qed.

Lemma joint_prob_total (i j : nat) :
  (i < F)%nat -> (j < F)%nat -> (0 < Kn)%nat ->
  rsum2 (joint_prob i j) Kn = 1.
Proof.
  intros Hi Hj HK.
  assert (HD : 0 < D) by now apply denominator_pos.
  rewrite (rsum2_ext _ (fun a b =>
             / D * (IZR (occurrences (joint_values K (rows data) i j)
                           (a * Kn + b))
                    + alpha))).
  - rewrite rsum2_scal, rsum2_plus, rsum2_const.
    pose proof (total_joint_occurrences K (rows data) i j K_int32) as Htot.
    fold Kn in Htot. rewrite Htot
      by (intros r Hr; split; now apply rows_in_range).
    change (length (rows data)) with n.
    rewrite denominator_eq in *. apply Rinv_l. lra.
  - intros a b Ha Hb. unfold joint_prob. subst jc.
    rewrite joint_count_counts by assumption. fold Kn. field. lra.
Qed.

Lemma marginal_prob_total (i : nat) :
  (i < F)%nat -> (0 < Kn)%nat ->
  rsum (map (marginal_prob i) (seq 0 Kn)) = 1.
Proof.
  intros Hi HK.
  assert (HD : 0 < D) by now apply denominator_pos.
  rewrite (rsum_ext _ _ (fun a =>
             / D * (IZR (occurrences (joint_values K (rows data) i i)
                           (a * Kn + a))
                    + INR Kn * alpha))).
  - rewrite rsum_scal, rsum_plus, rsum_const, length_seq.
    pose proof (total_marginal_occurrences K (rows data) i K_int32) as Htot.
    fold Kn in Htot. rewrite Htot
      by (intros r Hr; now apply rows_in_range).
    change (length (rows data)) with n.
    rewrite denominator_eq in *.
    replace (INR n + INR Kn * (INR Kn * alpha))
      with (INR n + INR Kn * INR Kn * alpha) by ring.
    apply Rinv_l. lra.
  - intros a Ha. apply in_seq in Ha. unfold marginal_prob, marginal_count.
    unfold jc. rewrite joint_count_counts by (assumption || lia).
    rewrite IZR_K. fold Kn. field. lra.
Qed.

(** The sum of the estimator, off the diagonal, is a real number: the
    Kullback-Leibler divergence of the smoothed joint from the product of
    the smoothed marginals. *)
Lemma kl_sum_fin (i j : nat) :
  (i < F)%nat -> (j < F)%nat -> i <> j ->
  kl_sum alpha n K jc i j
  = Fin (rsum2 (fun a b =>
                  joint_prob i j a b
                  * (ln (joint_prob i j a b)
                     - ln (marginal_prob i a * marginal_prob j b)))
               Kn).
Proof.
  intros Hi Hj Hij. unfold kl_sum, rsum2. fold Kn.
  apply xsum_map_fin. intros a Ha. apply in_seq in Ha.
  apply xsum_map_fin. intros b Hb. apply in_seq in Hb.
  unfold outer.
  rewrite joint_fin by (assumption || lia).
  rewrite !marginal_fin by lia.
  rewrite xlog_pos by (apply joint_prob_pos; lia).
  simpl xmul at 2.
  rewrite xlog_pos
    by (apply Rmult_lt_0_compat; apply marginal_prob_pos; lia).
  reflexivity.
Qed.

Lemma kl_sum_nonneg (i j : nat) :
  (i < F)%nat -> (j < F)%nat -> i <> j ->
  nonneg (kl_sum alpha n K jc i j).
Proof.
  intros Hi Hj Hij. rewrite kl_sum_fin by assumption. simpl.
  destruct (Nat.eq_dec Kn 0) as [E|E].
  - rewrite E. unfold rsum2. simpl. lra.
  - assert (HK : (0 < Kn)%nat) by lia.
    apply Rle_trans
      with (rsum2 (fun a b => joint_prob i j a b
                              - marginal_prob i a * marginal_prob j b) Kn).
    + rewrite rsum2_minus, rsum2_product.
      rewrite joint_prob_total, !marginal_prob_total by assumption. lra.
    + apply rsum2_le. intros a b Ha Hb. apply gibbs_term.
      * now apply joint_prob_pos.
      * apply Rmult_lt_0_compat; now apply marginal_prob_pos.
Qed.

Lemma mutual_info_entry (i j : nat) :
  (i < F)%nat -> (j < F)%nat ->
  entry (mutual_info alpha n F K jc) i j
  = if Nat.eqb i j then Fin 0 else kl_sum alpha n K jc i j.
Proof.
  intros Hi Hj. unfold entry, mutual_info.
  rewrite (nth_map_seq _ _ [] F i Hi). now rewrite nth_map_seq.
Qed.

Lemma mutual_info_nonneg (i j : nat) :
  (i < F)%nat -> (j < F)%nat ->
  nonneg (entry (mutual_info alpha n F K jc) i j).
Proof.
  intros Hi Hj. rewrite mutual_info_entry by assumption.
  destruct (Nat.eqb_spec i j) as [E|E].
  - simpl. lra.
  - now apply kl_sum_nonneg.
Qed.

Lemma mutual_info_diagonal (i : nat) :
  (i < F)%nat -> entry (mutual_info alpha n F K jc) i i = Fin 0.
Proof.
  intros Hi. rewrite mutual_info_entry by assumption.
  now rewrite Nat.eqb_refl.
Qed.

End Entries.


End CategoricalFacts.


(* ================================================================== *)
(** ** The correlation matrix and its diagonal *)
(* ================================================================== *)

Module GaussianFacts.
Import Py Tensors BasicFacts XReal XRealFacts Gaussian.
Local Open Scope R_scope.

Lemma gaussian_mi_one : gaussian_mi (Fin 1) = PInf.
Proof.
  unfold gaussian_mi. simpl xmul at 2. simpl xsub.
  replace (1 + - (1 * 1)) with 0 by ring.
  rewrite xlog_zero. simpl. apply signed_inf_pos. lra.
Qed.

Lemma gaussian_mi_nan : gaussian_mi NaN = NaN.
Proof. reflexivity. Qed.

Lemma codeviation_self_nonneg (x : list R) : 0 <= codeviation x x.
Proof.
  unfold codeviation. generalize (mean x) as m. intros m.
  induction x as [|a x IH]; simpl; [lra|].
  pose proof (Rle_0_sqr (a - m)) as H. unfold Rsqr in H. lra.
Qed.

Lemma cov_diagonal (data : matrix Q) (i : nat) :
  cov data i i = NaN \/ cov data i i = PInf
  \/ exists q, 0 <= q /\ cov data i i = Fin q.
Proof.
  unfold cov.
  set (s := codeviation _ _).
  assert (Hs : 0 <= s) by apply codeviation_self_nonneg.
  set (m := INR (n_rows data - 1)).
  assert (Hm : 0 <= m) by apply pos_INR.
  unfold xdiv. destruct (Req_dec_T m 0) as [E|E].
  - unfold signed_inf.
    destruct (total_order_T s 0) as [[Hlt|Heq]|Hgt]; [lra | now left | now right; left].
  - right; right. exists (s / m). split; [|reflexivity].
    assert (0 < m) by lra. assert (0 < / m) by now apply Rinv_0_lt_compat.
    unfold Rdiv. nra.
Qed.

(** The correlation of a column with itself is one when its variance is a
    positive number, and NaN otherwise. *)
Lemma corrcoef_diagonal (data : matrix Q) (i : nat) :
  corrcoef data i i = Fin 1 \/ corrcoef data i i = NaN.
Proof.
  unfold corrcoef.
  destruct (cov_diagonal data i) as [H | [H | [q [Hq H]]]]; rewrite H.
  - now right.
  - now right.
  - unfold xsqrt. destruct (Rlt_dec q 0) as [Hneg|_]; [lra|].
    destruct (Req_dec_T q 0) as [Hz|Hnz].
    + right. rewrite Hz, sqrt_0. simpl.
      destruct (Req_dec_T 0 0) as [_|C]; [|now contradiction C].
      now rewrite signed_inf_zero.
    + left. assert (Hpos : 0 < sqrt q) by (apply sqrt_lt_R0; lra).
      rewrite xdiv_fin by lra. rewrite xdiv_fin by lra.
      simpl. f_equal.
      replace (q / sqrt q / sqrt q) with 1.
      * rewrite Rmin_left by lra. apply Rmax_right. lra.
      * rewrite <- (sqrt_sqrt q) at 1 by lra. field. lra.
Qed.

Lemma gaussian_mutual_info_entry (data : matrix Q) (i j : nat) :
  (i < n_cols data)%nat -> (j < n_cols data)%nat ->
  entry (gaussian_mutual_info data) i j = gaussian_mi (corrcoef data i j).
Proof.
  intros Hi Hj. unfold entry, gaussian_mutual_info.
  rewrite (nth_map_seq _ _ [] _ i Hi).
  now rewrite nth_map_seq.
Qed.

Lemma corrcoef_diagonal_one (data : matrix Q) (i : nat) (q : R) :
  cov data i i = Fin q -> 0 < q -> corrcoef data i i = Fin 1.
Proof.
  intros H Hq. unfold corrcoef. rewrite H.
  unfold xsqrt. destruct (Rlt_dec q 0) as [Hneg|_]; [lra|].
  assert (Hpos : 0 < sqrt q) by (apply sqrt_lt_R0; lra).
  rewrite xdiv_fin by lra. rewrite xdiv_fin by lra.
  simpl. f_equal.
  replace (q / sqrt q / sqrt q) with 1.
  - rewrite Rmin_left by lra. apply Rmax_right. lra.
  - rewrite <- (sqrt_sqrt q) at 1 by lra. field. lra.
Qed.

(** No entry of the diagonal is zero: the "gaussian" branch leaves the
    diagonal as the formula gives it. *)
Lemma gaussian_mutual_info_diagonal (data : matrix Q) (i : nat) :
  (i < n_cols data)%nat ->
  entry (gaussian_mutual_info data) i i = PInf
  \/ entry (gaussian_mutual_info data) i i = NaN.
Proof.
  intros Hi. rewrite gaussian_mutual_info_entry by assumption.
  destruct (corrcoef_diagonal data i) as [H|H]; rewrite H.
  - left. apply gaussian_mi_one.
  - right. apply gaussian_mi_nan.
Qed.

Lemma cov_sym (data : matrix Q) (i j : nat) : cov data i j = cov data j i.
Proof.
  unfold cov. do 2 f_equal. unfold codeviation.
  generalize (mean (floats (column 0%Q data i))) as mi.
  generalize (mean (floats (column 0%Q data j))) as mj.
  generalize (floats (column 0%Q data j)) as y.
  generalize (floats (column 0%Q data i)) as x.
  induction x as [|a x IH]; intros [|b y] mj mi; simpl; try reflexivity.
  rewrite IH. ring.
Qed.

End GaussianFacts.


(* ================================================================== *)
(** ** The heterogeneous estimator on degenerate data *)
(* ================================================================== *)

Module HeterogeneousFacts.
Import Py Tensors BasicFacts XReal XRealFacts Gaussian GaussianFacts Heterogeneous.
Local Open Scope R_scope.

Lemma var_nil : var [] = NaN.
Proof. unfold var. simpl. apply xdiv_zero_zero. Qed.

(** The entropy of no sample is NaN. *)
Lemma gaussian_entropy_nil : gaussian_entropy [] = NaN.
Proof. unfold gaussian_entropy. rewrite var_nil. reflexivity. Qed.

Lemma xsub_nan_r (x : xreal) : xsub x NaN = NaN.
Proof. destruct x; reflexivity. Qed.

(** The cross term of a continuous column [c] and a discrete column [d]
    with [K] categories and the bin counts [counts]. *)
Definition cross_value (data : matrix Q) (c d : nat) (K : Z)
    (counts : list Z) : xreal :=
  xsub (gaussian_entropy (floats (column 0%Q data c)))
       (xsum (map (fun p => xmul (fst p) (snd p))
                  (combine
                     (map (fun i =>
                             gaussian_entropy (samples_of_category data c d i))
                          (seq 0 (Z.to_nat K)))
                     (map (fun n =>
                             xdiv (Fin (IZR n)) (Fin (INR (n_rows data))))
                          counts)))).

(** The estimator on one continuous and one discrete column. *)
Lemma heterogeneous_one_continuous_one_discrete (data : matrix Q)
    (mask : list bool) (c d : nat) (K : Z) (counts : list Z) :
  (length mask <= n_cols data)%nat ->
  where_ (map negb mask) = [c] ->
  where_ mask = [d] ->
  column_categories data d = Ok K ->
  (0 < K)%Z ->
  bincount (map long (column 0%Q data d)) K = Ok counts ->
  length counts = Z.to_nat K ->
  _heterogeneous_mutual_info data mask
  = Ok (fill_diagonal_zero (n_cols data)
          (set_entry
             (set_entry (zeros (n_cols data)) c d
                        (cross_value data c d K counts))
             d c
             (entry (set_entry (zeros (n_cols data)) c d
                               (cross_value data c d K counts))
                    c d))).
Proof.
  intros Hlen Hc Hd HK HKpos Hbin Hcnt.
  unfold _heterogeneous_mutual_info.
  rewrite Hc, Hd.
  destruct (Nat.ltb_spec (n_cols data) (length mask)) as [C|_]; [lia|].
  cbn [length Nat.ltb Nat.leb mapM foldM bind].
  rewrite HK. cbn [bind mapM lookup]. rewrite (Nat.eqb_refl d).
  unfold category_frequencies. rewrite Hbin. cbn [bind lookup].
  unfold cross_step. cbn [lookup]. rewrite !Nat.eqb_refl.
  unfold conditional_entropies.
  destruct (Z.leb_spec K 0) as [C|_]; [lia|]. cbn [bind].
  unfold tensor_mul. rewrite !length_map, length_seq, Hcnt, Nat.eqb_refl.
  cbn [bind]. reflexivity.
Qed.

Lemma bind_ok (A B : Type) (r : result A) (k : A -> result B) (y : B) :
  bind r k = Ok y -> exists x, r = Ok x /\ k x = Ok y.
Proof.
  destruct r as [x|e]; simpl; intros H; [|discriminate].
  exists x. now split.
Qed.

Lemma fill_diagonal_zero_entry (F : nat) (m : list (list xreal)) (i j : nat) :
  (i < F)%nat -> (j < F)%nat ->
  entry (fill_diagonal_zero F m) i j
  = if Nat.eqb i j then Fin 0 else entry m i j.
Proof.
  intros Hi Hj. unfold entry at 1, fill_diagonal_zero.
  rewrite (nth_map_seq _ _ [] F i Hi). now rewrite nth_map_seq.
Qed.

(** Whatever the estimator returns has a zero diagonal. *)
Lemma heterogeneous_mutual_info_diagonal (data : matrix Q)
    (mask : list bool) (mi : list (list xreal)) (i : nat) :
  _heterogeneous_mutual_info data mask = Ok mi ->
  (i < n_cols data)%nat -> entry mi i i = Fin 0.
Proof.
  unfold _heterogeneous_mutual_info. intros H Hi.
  destruct (Nat.ltb (n_cols data) (length mask)); [discriminate|].
  apply bind_ok in H. destruct H as [m1 [_ H]].
  apply bind_ok in H. destruct H as [ncs [_ H]].
  apply bind_ok in H. destruct H as [pd [_ H]].
  apply bind_ok in H. destruct H as [m2 [_ H]].
  inversion H; subst.
  rewrite fill_diagonal_zero_entry by assumption.
  now rewrite Nat.eqb_refl.
Qed.

End HeterogeneousFacts.


(* ================================================================== *)
(** ** Undirected graphs: connectivity and components *)
(* ================================================================== *)

Module GraphFacts.
Import SpanningTree.
Local Open Scope nat_scope.

(** Two vertices are connected by the edges [es], read in both
    directions. *)
Inductive conn (es : list (nat * nat)) : nat -> nat -> Prop :=
| conn_refl (u : nat) : conn es u u
| conn_step (u v w : nat) :
    conn es u v -> In (v, w) es \/ In (w, v) es -> conn es u w.

Lemma conn_edge (es : list (nat * nat)) (u v : nat) :
  In (u, v) es \/ In (v, u) es -> conn es u v.
Proof. intros H. eapply conn_step; [apply conn_refl | exact H]. Qed.

Lemma conn_trans (es : list (nat * nat)) (u v w : nat) :
  conn es u v -> conn es v w -> conn es u w.
Proof.
  intros Huv Hvw. induction Hvw as [|v x y _ IH Hxy]; [assumption|].
  eapply conn_step; [apply IH; assumption | exact Hxy].
Qed.

Lemma conn_sym (es : list (nat * nat)) (u v : nat) :
  conn es u v -> conn es v u.
Proof.
  induction 1 as [|u v w _ IH Hvw]; [apply conn_refl|].
  eapply conn_trans; [|exact IH]. apply conn_edge. tauto.
Qed.

Lemma conn_mono (es es' : list (nat * nat)) (u v : nat) :
  incl es es' -> conn es u v -> conn es' u v.
Proof.
  intros Hincl. induction 1 as [|u v w _ IH Hvw]; [apply conn_refl|].
  eapply conn_step; [exact IH|]. destruct Hvw as [H|H]; [left|right];
    now apply Hincl.
Qed.

(** What one more edge connects. *)
Lemma conn_cons_inv (es : list (nat * nat)) (a b x y : nat) :
  conn ((a, b) :: es) x y ->
  conn es x y \/ (conn es x a /\ conn es b y) \/ (conn es x b /\ conn es a y).
Proof.
  induction 1 as [|x v w _ IH Hvw].
  - left. apply conn_refl.
  - assert (Hcase : (v = a /\ w = b) \/ (v = b /\ w = a)
                    \/ (In (v, w) es \/ In (w, v) es)).
    { destruct Hvw as [[E|H]|[E|H]].
      - left. now inversion E.
      - right; right; now left.
      - right; left. now inversion E.
      - right; right; now right. }
    destruct Hcase as [[-> ->] | [[-> ->] | Hes]].
    + destruct IH as [H | [[H1 H2] | [H1 H2]]].
      * right; left. split; [exact H | apply conn_refl].
      * right; left. split; [exact H1 | apply conn_refl].
      * left. exact H1.
    + destruct IH as [H | [[H1 H2] | [H1 H2]]].
      * right; right. split; [exact H | apply conn_refl].
      * left. exact H1.
      * right; right. split; [exact H1 | apply conn_refl].
    + destruct IH as [H | [[H1 H2] | [H1 H2]]].
      * left. eapply conn_step; eassumption.
      * right; left. split; [exact H1 | eapply conn_step; eassumption].
      * right; right. split; [exact H1 | eapply conn_step; eassumption].
Qed.

Lemma conn_cons_edge (es : list (nat * nat)) (a b : nat) :
  conn ((a, b) :: es) a b.
Proof. apply conn_edge. left. now left. Qed.

Lemma conn_cons (es : list (nat * nat)) (e : nat * nat) (u v : nat) :
  conn es u v -> conn (e :: es) u v.
Proof. apply conn_mono. intros x Hx. now right. Qed.

Section Components.

(** The number of vertices. *)
Variable n : nat.

Definition valid_edges (es : list (nat * nat)) : Prop :=
  forall e, In e es -> fst e < n /\ snd e < n.

(** Every label is the head of its own component. *)
Definition canonical (labels : list nat) : Prop :=
  length labels = n
  /\ forall v, v < n ->
       head_of labels v < n
       /\ head_of labels (head_of labels v) = head_of labels v.

(** Two vertices carry the same label exactly when [es] connects them. *)
Definition represents (labels : list nat) (es : list (nat * nat)) : Prop :=
  forall u v, u < n -> v < n ->
    (head_of labels u = head_of labels v <-> conn es u v).

(** The heads of the components, and their number. *)
Definition heads (labels : list nat) : list nat :=
  filter (fun v => Nat.eqb (head_of labels v) v) (seq 0 n).

Definition ncomp (labels : list nat) : nat := length (heads labels).

Lemma head_of_seq (v : nat) : head_of (seq 0 n) v = v.
Proof.
  unfold head_of. destruct (Nat.lt_ge_cases v n) as [H|H].
  - now rewrite seq_nth.
  - apply nth_overflow. now rewrite length_seq.
Qed.

Lemma canonical_seq : canonical (seq 0 n).
Proof.
  split; [apply length_seq|]. intros v Hv. rewrite !head_of_seq. now split.
Qed.

Lemma represents_seq : represents (seq 0 n) [].
Proof.
  intros u v Hu Hv. rewrite !head_of_seq. split.
  - intros ->. apply conn_refl.
  - induction 1 as [|u v w _ IH [[]|[]]]. reflexivity.
Qed.

Lemma ncomp_seq : ncomp (seq 0 n) = n.
Proof.
  unfold ncomp, heads.
  rewrite forallb_filter_id; [apply length_seq|].
  apply forallb_forall. intros v _. rewrite head_of_seq. apply Nat.eqb_refl.
Qed.

Lemma head_of_attach (labels : list nat) (a b v : nat) :
  v < length labels ->
  head_of (attach labels a b) v
  = if Nat.eqb (head_of labels v) b then a else head_of labels v.
Proof.
  intros Hv. unfold head_of, attach.
  set (f := fun l => if Nat.eqb l b then a else l).
  rewrite (nth_indep (map f labels) v (f v)) by now rewrite length_map.
  rewrite (map_nth f). reflexivity.
Qed.

Lemma attach_canonical (labels : list nat) (a b : nat) :
  canonical labels -> a < n -> head_of labels a = a ->
  canonical (attach labels a b).
Proof.
  intros [Hlen Hc] Ha Haa. split; [unfold attach; now rewrite length_map|].
  intros v Hv. destruct (Hc v Hv) as [Hlt Hidem].
  rewrite head_of_attach by lia.
  destruct (Nat.eqb_spec (head_of labels v) b) as [E|E].
  - split; [assumption|]. rewrite head_of_attach by lia. rewrite Haa.
    destruct (Nat.eqb a b); reflexivity.
  - split; [assumption|]. rewrite head_of_attach by lia. rewrite Hidem.
    destruct (Nat.eqb_spec (head_of labels v) b); [contradiction | reflexivity].
Qed.

Lemma attach_represents (labels : list nat) (es : list (nat * nat))
    (u v : nat) :
  canonical labels -> represents labels es -> u < n -> v < n ->
  represents (attach labels (head_of labels u) (head_of labels v))
             ((u, v) :: es).
Proof.
  intros [Hlen Hc] Hr Hu Hv x y Hx Hy.
  rewrite !head_of_attach by lia.
  pose proof (Hr x y Hx Hy) as Hxy. pose proof (Hr x u Hx Hu) as Hxu.
  pose proof (Hr x v Hx Hv) as Hxv. pose proof (Hr y u Hy Hu) as Hyu.
  pose proof (Hr y v Hy Hv) as Hyv. pose proof (Hr u v Hu Hv) as Huv.
  split.
  - intros H.
    destruct (Nat.eqb_spec (head_of labels x) (head_of labels v)) as [Ex|Ex];
      destruct (Nat.eqb_spec (head_of labels y) (head_of labels v)) as [Ey|Ey].
    + apply conn_cons. apply Hxy. congruence.
    + apply conn_trans with v; [apply conn_cons; now apply Hxv|].
      apply conn_trans with u; [apply conn_sym, conn_cons_edge|].
      apply conn_cons, conn_sym. apply Hyu. congruence.
    + apply conn_trans with u; [apply conn_cons; apply Hxu; congruence|].
      apply conn_trans with v; [apply conn_cons_edge|].
      apply conn_cons, conn_sym. now apply Hyv.
    + apply conn_cons. now apply Hxy.
  - intros H. apply conn_cons_inv in H.
    destruct H as [H | [[H1 H2] | [H1 H2]]].
    + apply Hxy in H. rewrite H. reflexivity.
    + apply Hxu in H1. apply conn_sym in H2. apply Hyv in H2.
      rewrite H1, H2, Nat.eqb_refl.
      destruct (Nat.eqb _ _); reflexivity.
    + apply Hxv in H1. apply conn_sym in H2. apply Hyu in H2.
      rewrite H1, H2, Nat.eqb_refl.
      destruct (Nat.eqb _ _); reflexivity.
Qed.

Lemma filter_twice (A : Type) (p q : A -> bool) (l : list A) :
  filter q (filter p l) = filter (fun x => p x && q x) l.
Proof.
  induction l as [|x l IH]; simpl; [reflexivity|].
  destruct (p x); simpl; [destruct (q x); now rewrite IH | exact IH].
Qed.

Lemma heads_NoDup (labels : list nat) : NoDup (heads labels).
Proof. apply NoDup_filter, seq_NoDup. Qed.

Lemma in_heads (labels : list nat) (v : nat) :
  In v (heads labels) <-> v < n /\ head_of labels v = v.
Proof.
  unfold heads. rewrite filter_In, in_seq, Nat.eqb_eq. lia.
Qed.

Lemma head_in_heads (labels : list nat) (v : nat) :
  canonical labels -> v < n -> In (head_of labels v) (heads labels).
Proof. intros [_ Hc] Hv. apply in_heads. now apply Hc. Qed.

Lemma length_filter_remove (l : list nat) (b : nat) :
  NoDup l -> In b l ->
  length (filter (fun v => negb (Nat.eqb v b)) l) + 1 = length l.
Proof.
  induction 1 as [|x l Hx Hnd IH]; intros Hb; [destruct Hb|].
  simpl. destruct (Nat.eqb_spec x b) as [E|E]; simpl.
  - subst x. rewrite forallb_filter_id; [lia|].
    apply forallb_forall. intros y Hy.
    destruct (Nat.eqb_spec y b); [subst; contradiction | reflexivity].
  - destruct Hb as [Hb|Hb]; [congruence|]. rewrite <- (IH Hb). lia.
Qed.

(** Attaching one component to another leaves one component less. *)
Lemma ncomp_attach (labels : list nat) (a b : nat) :
  canonical labels -> a < n -> b < n ->
  head_of labels a = a -> head_of labels b = b -> a <> b ->
  ncomp (attach labels a b) + 1 = ncomp labels.
Proof.
  intros [Hlen Hc] Ha Hb Haa Hbb Hab. unfold ncomp.
  rewrite <- (length_filter_remove (heads labels) b (heads_NoDup labels))
    by (apply in_heads; now split).
  f_equal. f_equal. unfold heads. rewrite filter_twice.
  apply filter_ext_in. intros v Hv. apply in_seq in Hv.
  rewrite head_of_attach by lia.
  destruct (Nat.eqb_spec (head_of labels v) b) as [E|E].
  - destruct (Nat.eqb_spec v b) as [Ev|Ev].
    + subst v. rewrite Hbb, Nat.eqb_refl. simpl.
      apply Nat.eqb_neq. assumption.
    + rewrite E. rewrite (proj2 (Nat.eqb_neq b v)) by congruence. simpl.
      apply Nat.eqb_neq. intros ->. congruence.
  - destruct (Nat.eqb_spec (head_of labels v) v) as [Ev|Ev]; simpl;
      [|reflexivity].
    destruct (Nat.eqb_spec v b); [congruence | reflexivity].
Qed.

(** Attaching a component to itself changes nothing. *)
Lemma ncomp_attach_same (labels : list nat) (a : nat) :
  canonical labels -> ncomp (attach labels a a) = ncomp labels.
Proof.
  intros [Hlen Hc]. unfold ncomp, heads. f_equal.
  apply filter_ext_in. intros v Hv. apply in_seq in Hv.
  rewrite head_of_attach by lia.
  destruct (Nat.eqb_spec (head_of labels v) a) as [E|E];
    [now rewrite E | reflexivity].
Qed.

(** A finer connectivity has at least as many components. *)
Lemma ncomp_refines (l1 l2 : list nat) (e1 e2 : list (nat * nat)) :
  canonical l1 -> represents l1 e1 ->
  canonical l2 -> represents l2 e2 ->
  (forall u v, u < n -> v < n -> conn e1 u v -> conn e2 u v) ->
  ncomp l2 <= ncomp l1.
Proof.
  intros Hc1 Hr1 Hc2 Hr2 Hsub. unfold ncomp.
  rewrite <- (length_map (head_of l2) (heads l1)).
  apply NoDup_incl_length; [apply heads_NoDup|].
  intros s Hs. apply in_heads in Hs. destruct Hs as [Hsn Hss].
  apply in_map_iff. exists (head_of l1 s).
  split; [|now apply head_in_heads].
  destruct Hc1 as [Hlen1 Hc1]. destruct (Hc1 s Hsn) as [Hlt Hidem].
  rewrite <- Hss at 2. symmetry. apply Hr2; [assumption..|].
  apply Hsub; [assumption..|]. apply Hr1; [assumption..|]. now rewrite Hidem.
Qed.

(** When everything is connected there is at most one component. *)
Lemma ncomp_connected (labels : list nat) (es : list (nat * nat)) :
  canonical labels -> represents labels es ->
  (forall u v, u < n -> v < n -> conn es u v) ->
  ncomp labels <= 1.
Proof.
  intros Hc Hr Hall. unfold ncomp.
  pose proof (heads_NoDup labels) as Hnd.
  destruct (heads labels) as [|x [|y l]] eqn:E; simpl; try lia.
  exfalso.
  assert (Hx : In x (heads labels)) by (rewrite E; now left).
  assert (Hy : In y (heads labels)) by (rewrite E; right; now left).
  apply in_heads in Hx, Hy. destruct Hx as [Hxn Hxx], Hy as [Hyn Hyy].
  assert (Hxy : x = y).
  { rewrite <- Hxx, <- Hyy. apply Hr; [assumption..|]. now apply Hall. }
  subst y. inversion Hnd as [|? ? Hnin _]. apply Hnin. now left.
Qed.

Lemma ncomp_pos (labels : list nat) :
  canonical labels -> 0 < n -> 0 < ncomp labels.
Proof.
  intros Hc Hn. pose proof (head_in_heads labels 0 Hc Hn) as H.
  unfold ncomp. destruct (heads labels); [destruct H | simpl; lia].
Qed.

(** With one component everything is connected. *)
Lemma connected_of_ncomp (labels : list nat) (es : list (nat * nat)) :
  canonical labels -> represents labels es -> ncomp labels <= 1 ->
  forall u v, u < n -> v < n -> conn es u v.
Proof.
  intros Hc Hr H1 u v Hu Hv. apply Hr; [assumption..|].
  pose proof (head_in_heads labels u Hc Hu) as Hhu.
  pose proof (head_in_heads labels v Hc Hv) as Hhv.
  unfold ncomp in H1.
  destruct (heads labels) as [|x [|y l]]; simpl in *; lia.
Qed.

(** The labels after all the edges of [es] were attached, last edge
    first. *)
Definition components (es : list (nat * nat)) : list nat :=
  fold_right (fun e labels =>
                attach labels (head_of labels (fst e)) (head_of labels (snd e)))
             (seq 0 n) es.

Lemma components_spec (es : list (nat * nat)) :
  valid_edges es ->
  canonical (components es) /\ represents (components es) es.
Proof.
  induction es as [|[u v] es IH]; intros Hv.
  - split; [apply canonical_seq | apply represents_seq].
  - destruct IH as [Hc Hr]; [intros e He; apply Hv; now right|].
    destruct (Hv (u, v) (or_introl eq_refl)) as [Hu Hv']. simpl in Hu, Hv'.
    simpl. split.
    + apply attach_canonical; [assumption | now apply Hc | now apply Hc].
    + now apply attach_represents.
Qed.

(** The number of components of the graph of the edges [es]. *)
Definition count_components (es : list (nat * nat)) : nat :=
  ncomp (components es).

Lemma count_components_cons (e : nat * nat) (es : list (nat * nat)) :
  valid_edges (e :: es) ->
  count_components es <= count_components (e :: es) + 1.
Proof.
  intros Hv. destruct e as [u v].
  destruct (components_spec es) as [Hc Hr];
    [intros e He; apply Hv; now right|].
  destruct (Hv (u, v) (or_introl eq_refl)) as [Hu Hv']. simpl in Hu, Hv'.
  unfold count_components. simpl.
  destruct (Nat.eq_dec (head_of (components es) u) (head_of (components es) v))
    as [E|E].
  - rewrite E, ncomp_attach_same by assumption. lia.
  - rewrite <- (ncomp_attach (components es) (head_of (components es) u)
                  (head_of (components es) v)); try assumption;
      try (now apply Hc); lia.
Qed.

Lemma valid_edges_app (l1 l2 : list (nat * nat)) :
  valid_edges (l1 ++ l2) <-> valid_edges l1 /\ valid_edges l2.
Proof.
  unfold valid_edges. split.
  - intros H. split; intros e He; apply H, in_or_app; tauto.
  - intros [H1 H2] e He. apply in_app_or in He. destruct He; auto.
Qed.

Lemma count_components_app (l1 l2 : list (nat * nat)) :
  valid_edges (l1 ++ l2) ->
  count_components l2 <= count_components (l1 ++ l2) + length l1.
Proof.
  induction l1 as [|e l1 IH]; intros Hv; simpl; [lia|].
  pose proof (count_components_cons e (l1 ++ l2) Hv) as H.
  assert (Hv' : valid_edges (l1 ++ l2)) by (intros x Hx; apply Hv; now right).
  specialize (IH Hv'). lia.
Qed.

Lemma count_components_refines (e1 e2 : list (nat * nat)) :
  valid_edges e1 -> valid_edges e2 ->
  (forall u v, u < n -> v < n -> conn e1 u v -> conn e2 u v) ->
  count_components e2 <= count_components e1.
Proof.
  intros H1 H2 Hsub.
  destruct (components_spec e1 H1) as [Hc1 Hr1].
  destruct (components_spec e2 H2) as [Hc2 Hr2].
  now apply (ncomp_refines _ _ e1 e2).
Qed.

(** A forest: every edge joins two vertices that the edges after it in
    the list do not connect. *)
Fixpoint forest (es : list (nat * nat)) : Prop :=
  match es with
  | [] => True
  | e :: es' => ~ conn es' (fst e) (snd e) /\ forest es'
  end.

(** A forest has as many edges as it has components less than vertices. *)
Lemma forest_count (es : list (nat * nat)) :
  valid_edges es -> forest es -> count_components es + length es = n.
Proof.
  induction es as [|[u v] es IH]; intros Hv Hf.
  - unfold count_components. simpl. rewrite ncomp_seq. lia.
  - destruct Hf as [Hnc Hf]. simpl in Hnc.
    assert (Hv' : valid_edges es) by (intros x Hx; apply Hv; now right).
    specialize (IH Hv' Hf).
    destruct (components_spec es Hv') as [Hc Hr].
    destruct (Hv (u, v) (or_introl eq_refl)) as [Hu Hvv]. simpl in Hu, Hvv.
    unfold count_components in *. simpl.
    pose proof (ncomp_attach (components es) (head_of (components es) u)
                  (head_of (components es) v) Hc) as H.
    rewrite <- IH. rewrite <- H; try (now apply Hc); [lia|].
    intros E. apply Hnc. now apply Hr.
Qed.

Lemma forest_filter (p : nat * nat -> bool) (es : list (nat * nat)) :
  forest es -> forest (filter p es).
Proof.
  induction es as [|e es IH]; intros Hf; [exact I|].
  destruct Hf as [Hnc Hf]. simpl. destruct (p e); [|now apply IH].
  split; [|now apply IH].
  intros H. apply Hnc. eapply conn_mono; [|exact H].
  intros x Hx. apply filter_In in Hx. tauto.
Qed.

End Components.


End GraphFacts.


(* ================================================================== *)
(** ** Kruskal's loop *)
(* ================================================================== *)

Module KruskalFacts.
Import SpanningTree GraphFacts.
Local Open Scope nat_scope.

Definition le_cost (e e' : edge) : Prop := (cost e <= cost e')%Q.

(** The entry costs at most [t]. *)
Definition cheaper (t : Q) (e : edge) : bool := Qle_bool (cost e) t.

Lemma ends_eq (e : edge) : ends e = (row e, col e).
Proof. destruct e as [[u v] c]. reflexivity. Qed.

Lemma insert_by_cost_perm (e : edge) (l : list edge) :
  Permutation (e :: l) (insert_by_cost e l).
Proof.
  induction l as [|x l IH]; simpl; [apply Permutation_refl|].
  destruct (Qle_bool (cost e) (cost x)); [apply Permutation_refl|].
  eapply Permutation_trans; [apply perm_swap|]. now apply perm_skip.
Qed.

Lemma sort_by_cost_perm (l : list edge) : Permutation l (sort_by_cost l).
Proof.
  induction l as [|e l IH]; simpl; [apply Permutation_refl|].
  eapply Permutation_trans; [apply perm_skip, IH | apply insert_by_cost_perm].
Qed.

Lemma insert_by_cost_sorted (e : edge) (l : list edge) :
  StronglySorted le_cost l -> StronglySorted le_cost (insert_by_cost e l).
Proof.
  induction 1 as [|x l Hs IH Hall]; simpl.
  - constructor; constructor.
  - destruct (Qle_bool (cost e) (cost x)) eqn:E.
    + apply Qle_bool_iff in E. constructor; [now constructor|].
      constructor; [exact E|].
      eapply Forall_impl; [|exact Hall]. intros y Hy. unfold le_cost in *.
      eapply Qle_trans; eassumption.
    + constructor; [exact IH|].
      assert (Hxe : le_cost x e).
      { unfold le_cost. apply Qlt_le_weak, Qnot_le_lt. intros H.
        apply Qle_bool_iff in H. congruence. }
      apply (Permutation_Forall (insert_by_cost_perm e l)).
      now constructor.
Qed.

Lemma sort_by_cost_sorted (l : list edge) :
  StronglySorted le_cost (sort_by_cost l).
Proof.
  induction l as [|e l IH]; simpl; [constructor|].
  now apply insert_by_cost_sorted.
Qed.

Section Loop.

Variable n : nat.

Definition valid (es : list edge) : Prop := valid_edges n (map ends es).

Lemma valid_in (es : list edge) (e : edge) :
  valid es -> In e es -> row e < n /\ col e < n.
Proof.
  intros Hv He. apply (Hv (ends e)). now apply in_map.
Qed.

Lemma valid_cons (e : edge) (es : list edge) :
  valid es -> row e < n -> col e < n -> valid (e :: es).
Proof.
  intros Hv Hr Hc x [<-|Hx]; [rewrite ends_eq; now split | now apply Hv].
Qed.

Lemma valid_tail (e : edge) (es : list edge) : valid (e :: es) -> valid es.
Proof. intros Hv x Hx. apply Hv. now right. Qed.

(** The kept entries of cost at most [t] contain [kept] when [kept] is a
    part of them that costs no more than [t]. *)
Lemma kept_in_cheaper (t : Q) (new kept : list edge) :
  (forall e, In e kept -> (cost e <= t)%Q) ->
  incl (map ends kept) (map ends (filter (cheaper t) (new ++ kept))).
Proof.
  intros H x Hx. apply in_map_iff in Hx. destruct Hx as [e [<- He]].
  apply in_map, filter_In. split; [apply in_or_app; now right|].
  apply Qle_bool_iff. now apply H.
Qed.

(** What the loop guarantees, from a state in which the labels describe
    the forest of the entries kept so far: the result is a forest that
    extends the kept entries with entries of the sorted list, and the two
    ends of every entry of the sorted list are connected by kept entries
    that cost no more than it. *)
Lemma kruskal_loop_spec (sorted : list edge) :
  forall (labels : list nat) (kept : list edge),
    StronglySorted le_cost sorted ->
    (forall e' e, In e' kept -> In e sorted -> (cost e' <= cost e)%Q) ->
    valid sorted -> valid kept ->
    canonical n labels -> represents n labels (map ends kept) ->
    ncomp n labels + length kept = n ->
    forest (map ends kept) ->
    let K := kruskal_loop n labels kept sorted in
    forest (map ends K)
    /\ (exists new, K = new ++ kept /\ incl new sorted)
    /\ (forall e, In e sorted ->
          conn (map ends (filter (cheaper (cost e)) K)) (row e) (col e)).
Proof.
  induction sorted as [|e rest IH];
    intros labels kept Hs Hle Hvs Hvk Hc Hr Hn Hf; simpl.
  - split; [assumption|]. split; [exists []; split; [reflexivity|easy]|].
    intros e [].
  - destruct (valid_in _ e Hvs (or_introl eq_refl)) as [Hrow Hcol].
    inversion Hs as [|? ? Hs' Hall]; subst.
    destruct (Nat.ltb_spec (length kept) (n - 1)) as [Hlt|Hge].
    + destruct (Nat.eqb_spec (head_of labels (row e)) (head_of labels (col e)))
        as [E|E].
      * destruct (IH labels kept Hs') as (HfK & [new [HK Hnew]] & HQ);
          try assumption.
        { intros e' e'' H1 H2. apply Hle; [assumption | now right]. }
        { now apply valid_tail in Hvs. }
        split; [assumption|]. split.
        { exists new. split; [assumption|]. intros x Hx. right. now apply Hnew. }
        intros e' [<-|He']; [|now apply HQ].
        rewrite HK. eapply conn_mono;
          [apply kept_in_cheaper; intros x Hx; apply Hle; [assumption | now left]|].
        now apply Hr.
      * assert (Hc' : canonical n (attach labels (head_of labels (row e))
                                         (head_of labels (col e)))).
        { destruct Hc as [Hlen Hcc].
          apply attach_canonical; [now split | now apply Hcc | now apply Hcc]. }
        assert (Hr' : represents n (attach labels (head_of labels (row e))
                                           (head_of labels (col e)))
                                 (map ends (e :: kept))).
        { simpl. rewrite ends_eq. now apply attach_represents. }
        assert (Hn' : ncomp n (attach labels (head_of labels (row e))
                                      (head_of labels (col e)))
                      + length (e :: kept) = n).
        { pose proof (ncomp_attach n labels (head_of labels (row e))
                        (head_of labels (col e)) Hc) as H.
          destruct Hc as [Hlen Hcc].
          destruct (Hcc _ Hrow) as [H1 H2]. destruct (Hcc _ Hcol) as [H3 H4].
          specialize (H H1 H3 H2 H4 E).
          change (length (e :: kept)) with (S (length kept)). lia. }
        assert (Hf' : forest (map ends (e :: kept))).
        { simpl. split; [|assumption]. rewrite ends_eq. simpl.
          intros H. apply E. now apply Hr. }
        destruct (IH (attach labels (head_of labels (row e))
                             (head_of labels (col e)))
                     (e :: kept) Hs') as (HfK & [new [HK Hnew]] & HQ);
          try assumption.
        { intros e' e'' [<-|H1] H2.
          - rewrite Forall_forall in Hall. now apply Hall.
          - apply Hle; [assumption | now right]. }
        { now apply valid_tail in Hvs. }
        { now apply valid_cons. }
        split; [assumption|]. split.
        { exists (new ++ [e]). split; [now rewrite <- app_assoc|].
          intros x Hx. apply in_app_or in Hx.
          destruct Hx as [Hx|[<-|[]]]; [right; now apply Hnew | now left]. }
        intros e' [<-|He']; [|now apply HQ].
        apply conn_edge. left. rewrite <- ends_eq. apply in_map, filter_In.
        split; [rewrite HK; apply in_or_app; right; now left|].
        apply Qle_bool_iff, Qle_refl.
    + split; [assumption|]. split; [exists []; split; [reflexivity|easy]|].
      intros e' He'.
      eapply conn_mono;
        [apply (kept_in_cheaper (cost e') [] kept);
         intros x Hx; now apply Hle|].
      destruct (valid_in _ e' Hvs He') as [Hrow' Hcol'].
      apply (connected_of_ncomp n labels); try assumption. lia.
Qed.

End Loop.

Section Rounding.
Local Open Scope Q_scope.

Lemma exponent_le (x : Q) : 0 < x -> 2 ^ exponent x <= x.
Proof.
  intros Hx. unfold exponent.
  set (e := (Z.log2 (Z.abs (Qnum x)) - Z.log2 (Zpos (Qden x)))%Z).
  destruct (Qle_bool (2 ^ e) (Qabs x)) eqn:E.
  - apply Qle_bool_iff in E. rewrite Qabs_pos in E by now apply Qlt_le_weak.
    exact E.
  - clear E. destruct x as [n d]. unfold e. cbn [Qnum Qden].
    assert (Hn : (0 < n)%Z) by (unfold Qlt in Hx; simpl in Hx; lia).
    rewrite Z.abs_eq by lia.
    replace (Z.log2 n - Z.log2 (Z.pos d) - 1)%Z
      with (Z.log2 n - (Z.log2 (Z.pos d) + 1))%Z by lia.
    rewrite Qpower_minus by discriminate.
    pose proof (Z.log2_spec n Hn) as [Hlo _].
    pose proof (Z.log2_spec (Z.pos d) eq_refl) as [_ Hhi].
    pose proof (Z.log2_nonneg n). pose proof (Z.log2_nonneg (Z.pos d)).
    assert (E1 : 2 ^ Z.log2 n == inject_Z (2 ^ Z.log2 n))
      by (rewrite Zpower_Qpower by lia; reflexivity).
    assert (E2 : 2 ^ (Z.log2 (Z.pos d) + 1)
                 == inject_Z (2 ^ (Z.log2 (Z.pos d) + 1)))
      by (rewrite Zpower_Qpower by lia; reflexivity).
    setoid_rewrite E1. setoid_rewrite E2. clear E1 E2.
    rewrite (Qmake_Qdiv n d).
    set (a := (2 ^ Z.log2 n)%Z) in *.
    set (b := (2 ^ (Z.log2 (Z.pos d) + 1))%Z).
    assert (Hb : (Z.pos d < b)%Z)
      by (unfold b; rewrite <- Z.add_1_r in Hhi; exact Hhi).
    assert (Ha : (0 < a)%Z) by (unfold a; apply Z.pow_pos_nonneg; lia).
    unfold Qdiv, Qle, Qmult, Qinv, inject_Z. simpl.
    destruct b as [|b|b]; try lia. simpl. nia.
Qed.

Lemma round_half_even_floor (x : Q) : (Qfloor x <= round_half_even x)%Z.
Proof.
  unfold round_half_even.
  destruct (Qcompare _ _); [destruct (Z.even _)| |]; lia.
Qed.

(** The float32 nearest to a positive number is positive. *)
Lemma float32_pos (x : Q) : 0 < x -> 0 < float32 x.
Proof.
  intros Hx. unfold float32.
  destruct (Qeq_bool x 0) eqn:E.
  - apply Qeq_bool_eq in E. rewrite E in Hx. discriminate.
  - clear E. rewrite Qred_correct.
    set (ulp := 2 ^ (exponent x - 23)).
    assert (Hulp : 0 < ulp) by (apply Qpower_0_lt; reflexivity).
    assert (Hle : ulp <= x).
    { apply Qle_trans with (2 ^ exponent x); [|now apply exponent_le].
      apply Qpower_le_compat_l; [lia | discriminate]. }
    assert (H1 : 1 <= x / ulp).
    { apply Qle_shift_div_l; [assumption|]. now rewrite Qmult_1_l. }
    apply Qfloor_resp_le in H1. change (Qfloor 1) with 1%Z in H1.
    pose proof (round_half_even_floor (x / ulp)) as H2.
    apply Qmult_lt_0_compat; [|assumption].
    change 0 with (inject_Z 0). rewrite <- Zlt_Qlt. lia.
Qed.

Lemma exponent_lt (x : Q) : 0 < x -> x < 2 ^ (exponent x + 1).
Proof.
  intros Hx. unfold exponent.
  set (e := (Z.log2 (Z.abs (Qnum x)) - Z.log2 (Zpos (Qden x)))%Z).
  destruct (Qle_bool (2 ^ e) (Qabs x)) eqn:E.
  - clear E. destruct x as [n d]. unfold e. cbn [Qnum Qden].
    assert (Hn : (0 < n)%Z) by (unfold Qlt in Hx; simpl in Hx; lia).
    rewrite Z.abs_eq by lia.
    replace (Z.log2 n - Z.log2 (Z.pos d) + 1)%Z
      with (Z.log2 n + 1 - Z.log2 (Z.pos d))%Z by lia.
    rewrite Qpower_minus by discriminate.
    pose proof (Z.log2_spec n Hn) as [_ Hhi].
    pose proof (Z.log2_spec (Z.pos d) eq_refl) as [Hlo _].
    pose proof (Z.log2_nonneg n). pose proof (Z.log2_nonneg (Z.pos d)).
    assert (E1 : 2 ^ (Z.log2 n + 1) == inject_Z (2 ^ (Z.log2 n + 1)))
      by (rewrite Zpower_Qpower by lia; reflexivity).
    assert (E2 : 2 ^ Z.log2 (Z.pos d) == inject_Z (2 ^ Z.log2 (Z.pos d)))
      by (rewrite Zpower_Qpower by lia; reflexivity).
    setoid_rewrite E1. setoid_rewrite E2. clear E1 E2.
    rewrite (Qmake_Qdiv n d).
    set (a := (2 ^ (Z.log2 n + 1))%Z).
    set (b := (2 ^ Z.log2 (Z.pos d))%Z) in *.
    assert (Ha : (n < a)%Z)
      by (unfold a; rewrite <- Z.add_1_r in Hhi; exact Hhi).
    assert (Hb : (0 < b)%Z) by (unfold b; apply Z.pow_pos_nonneg; lia).
    unfold Qdiv, Qlt, Qmult, Qinv, inject_Z. simpl.
    destruct b as [|b|b]; try lia. simpl. nia.
  - replace (e - 1 + 1)%Z with e by lia.
    apply Qnot_le_lt. intros H. apply Qle_bool_iff in H.
    rewrite Qabs_pos in E by now apply Qlt_le_weak. congruence.
Qed.

Lemma exponent_unique (x : Q) (e : Z) :
  2 ^ e <= x -> x < 2 ^ (e + 1) -> exponent x = e.
Proof.
  intros Hlo Hhi.
  assert (Hx : 0 < x).
  { eapply Qlt_le_trans; [|exact Hlo]. apply Qpower_0_lt. reflexivity. }
  pose proof (exponent_le x Hx) as Hlo'.
  pose proof (exponent_lt x Hx) as Hhi'.
  assert (H1 : (2:Q) ^ e < 2 ^ (exponent x + 1))
    by (eapply Qle_lt_trans; eassumption).
  assert (H2 : (2:Q) ^ exponent x < 2 ^ (e + 1))
    by (eapply Qle_lt_trans; eassumption).
  apply Qpower_lt_compat_l_inv in H1; [|reflexivity].
  apply Qpower_lt_compat_l_inv in H2; [|reflexivity].
  lia.
Qed.

(** Rounding on known values: one tenth is [0x3DCCCCCD] in float32, a
    number halfway between two floats goes to the one whose significand is
    even, and integers above [2 ^ 24] lose their last bit. *)
Lemma float32_examples :
  float32 (1 # 10) = 13421773 # 134217728
  /\ float32 (1 + (1 # 2 ^ 24)) = 1
  /\ float32 (1 + (3 # 2 ^ 24)) = 4194305 # 4194304
  /\ float32 16777217 = 16777216
  /\ float32 (- (5 # 2)) = - (5 # 2).
Proof. vm_compute. repeat split; reflexivity. Qed.

(** Two fractions of the same value have the same exponent. *)
Lemma exponent_comp (x y : Q) : 0 < x -> x == y -> exponent x = exponent y.
Proof.
  intros Hx E. symmetry. apply exponent_unique.
  - rewrite <- E. now apply exponent_le.
  - rewrite <- E. now apply exponent_lt.
Qed.

Lemma round_half_even_comp (x y : Q) :
  x == y -> round_half_even x = round_half_even y.
Proof.
  intros E. unfold round_half_even.
  rewrite (Qfloor_comp x y E).
  assert (Hc : Qcompare (x - inject_Z (Qfloor y)) (1 # 2)
               = Qcompare (y - inject_Z (Qfloor y)) (1 # 2)).
  { apply Qcompare_comp; [|reflexivity]. now rewrite E. }
  now rewrite Hc.
Qed.

(** Rounding does not depend on the fraction that stands for a value. *)
Lemma float32_comp (x y : Q) : 0 < x -> x == y -> float32 x = float32 y.
Proof.
  intros Hx E. unfold float32.
  assert (Hy : 0 < y) by now rewrite <- E.
  destruct (Qeq_bool x 0) eqn:Ex.
  { apply Qeq_bool_eq in Ex. rewrite Ex in Hx. discriminate. }
  destruct (Qeq_bool y 0) eqn:Ey.
  { apply Qeq_bool_eq in Ey. rewrite Ey in Hy. discriminate. }
  rewrite <- (exponent_comp x y Hx E).
  set (ulp := 2 ^ (exponent x - 23)).
  rewrite (round_half_even_comp (x / ulp) (y / ulp)) by now rewrite E.
  reflexivity.
Qed.

End Rounding.

Section Majorization.
Local Open Scope Q_scope.

(** The sum of a list of costs. *)
Definition qsum (l : list Q) : Q := fold_right Qplus 0 l.

(** How many costs are at most [t]. *)
Definition count_le (t : Q) (l : list Q) : nat :=
  length (filter (fun x => Qle_bool x t) l).

Lemma qsum_perm (l l' : list Q) : Permutation l l' -> qsum l == qsum l'.
Proof.
  induction 1 as [|x l l' _ IH|x y l|l l' l'' _ IH1 _ IH2]; simpl.
  - reflexivity.
  - now rewrite IH.
  - ring.
  - now rewrite IH1.
Qed.

Lemma count_le_perm (t : Q) (l l' : list Q) :
  Permutation l l' -> count_le t l = count_le t l'.
Proof.
  intros H. unfold count_le. apply Permutation_length.
  induction H as [|x l l' _ IH|x y l|l l' l'' _ IH1 _ IH2]; simpl.
  - constructor.
  - destruct (Qle_bool x t); [now constructor | assumption].
  - destruct (Qle_bool x t), (Qle_bool y t);
      try apply Permutation_refl. apply perm_swap.
  - eapply Permutation_trans; eassumption.
Qed.

Lemma count_le_bound (t : Q) (l : list Q) : (count_le t l <= length l)%nat.
Proof. apply filter_length_le. Qed.

Lemma count_le_all (t : Q) (l : list Q) :
  Forall (fun z => z <= t) l -> count_le t l = length l.
Proof.
  unfold count_le. induction 1 as [|x l Hx _ IH]; simpl; [reflexivity|].
  apply Qle_bool_iff in Hx. rewrite Hx. simpl. now rewrite IH.
Qed.

Lemma count_le_full (t : Q) (l : list Q) :
  count_le t l = length l -> Forall (fun z => z <= t) l.
Proof.
  unfold count_le. induction l as [|x l IH]; simpl; intros H; [constructor|].
  pose proof (filter_length_le (fun x => Qle_bool x t) l) as Hb.
  destruct (Qle_bool x t) eqn:E; simpl in H; [|lia].
  constructor; [now apply Qle_bool_iff | apply IH; lia].
Qed.

(** A greatest element can be taken out of a list that is not empty. *)
Lemma extract_max (l : list Q) :
  l <> [] ->
  exists x l', Permutation l (x :: l') /\ Forall (fun z => z <= x) l'.
Proof.
  induction l as [|a l IH]; intros Hne; [congruence|].
  destruct l as [|b l].
  - exists a, []. split; [apply Permutation_refl | constructor].
  - destruct IH as (x & l' & Hp & Hall); [discriminate|].
    destruct (Qlt_le_dec x a) as [Hlt|Hle].
    + exists a, (x :: l'). split; [now apply perm_skip|].
      constructor; [now apply Qlt_le_weak|].
      eapply Forall_impl; [|exact Hall]. intros z Hz.
      eapply Qle_trans; [exact Hz | now apply Qlt_le_weak].
    + exists x, (a :: l'). split.
      * eapply Permutation_trans; [apply perm_skip, Hp | apply perm_swap].
      * now constructor.
Qed.

(** If, for every threshold, [a] has at least as many costs under the
    threshold as [b], and both have as many costs, then [a] sums to no more
    than [b]. *)
Lemma majorization (m : nat) :
  forall a b : list Q,
    length a = m -> length b = m ->
    (forall t, (count_le t b <= count_le t a)%nat) ->
    qsum a <= qsum b.
Proof.
  induction m as [|m IH]; intros a b Ha Hb H.
  - destruct a; [|discriminate]. destruct b; [|discriminate].
    simpl. apply Qle_refl.
  - destruct (extract_max a) as (y & a' & Hpa & Hya); [now destruct a|].
    destruct (extract_max b) as (x & b' & Hpb & Hxb); [now destruct b|].
    assert (Hla : length a' = m).
    { apply Permutation_length in Hpa. simpl in Hpa. lia. }
    assert (Hlb : length b' = m).
    { apply Permutation_length in Hpb. simpl in Hpb. lia. }
    assert (Hyx : y <= x).
    { assert (Hall : Forall (fun z => z <= x) (y :: a')).
      { apply count_le_full. rewrite <- (count_le_perm x _ _ Hpa).
        pose proof (H x) as Hx. pose proof (count_le_bound x a) as Hbd.
        rewrite (count_le_perm x _ _ Hpb) in Hx.
        rewrite (count_le_all x (x :: b')) in Hx
          by (constructor; [apply Qle_refl | assumption]).
        apply Permutation_length in Hpa. simpl in *. lia. }
      now inversion Hall. }
    rewrite (qsum_perm _ _ Hpa), (qsum_perm _ _ Hpb). simpl.
    apply Qplus_le_compat; [exact Hyx|].
    apply IH; [assumption..|]. intros t.
    pose proof (H t) as Ht.
    rewrite (count_le_perm t _ _ Hpa), (count_le_perm t _ _ Hpb) in Ht.
    unfold count_le in Ht. simpl in Ht. fold (count_le t a') in Ht.
    fold (count_le t b') in Ht.
    destruct (Qle_bool y t) eqn:Ey.
    + apply Qle_bool_iff in Ey.
      rewrite (count_le_all t a').
      * rewrite Hla, <- Hlb. apply count_le_bound.
      * eapply Forall_impl; [|exact Hya]. intros z Hz. cbv beta in *.
        apply Qle_trans with y; assumption.
    + unfold count_le. destruct (Qle_bool x t); simpl in Ht; lia.
Qed.

Lemma qsum_map_negated (A : Type) (f : A -> Q) (l : list A) :
  qsum (map (fun e => - f e) l) == - qsum (map f l).
Proof.
  induction l as [|e l IH]; simpl; [reflexivity|]. rewrite IH. ring.
Qed.

Lemma qsum_map_plus_one (A : Type) (f : A -> Q) (l : list A) :
  qsum (map (fun e => f e + 1) l)
  == qsum (map f l) + inject_Z (Z.of_nat (length l)).
Proof.
  induction l as [|e l IH].
  - simpl. reflexivity.
  - change (length (e :: l)) with (S (length l)).
    rewrite Nat2Z.inj_succ. unfold Z.succ. rewrite inject_Z_plus.
    simpl. rewrite IH. ring.
Qed.

Lemma qsum_pointwise (A : Type) (f f' : A -> Q) (l : list A) :
  (forall x, In x l -> f x == f' x) ->
  qsum (map f l) == qsum (map f' l).
Proof.
  induction l as [|x l IH]; intros H; simpl; [reflexivity|].
  rewrite (H x (or_introl eq_refl)), IH; [reflexivity|].
  intros y Hy. apply H. now right.
Qed.

End Majorization.

Lemma NoDup_list_prod (A B : Type) (l : list A) (l' : list B) :
  NoDup l -> NoDup l' -> NoDup (list_prod l l').
Proof.
  intros Hl Hl'. induction Hl as [|x l Hx Hl IH]; simpl; [constructor|].
  apply NoDup_app.
  - clear IH. induction Hl' as [|y l' Hy Hl' IH']; simpl; constructor.
    + intros Hin. apply in_map_iff in Hin. destruct Hin as [y' [E Hy']].
      inversion E; subst. contradiction.
    + exact IH'.
  - exact IH.
  - intros [a b] Ha Hb. apply in_map_iff in Ha. destruct Ha as [y [E _]].
    inversion E; subst. apply in_prod_iff in Hb. tauto.
Qed.

(** Removing entries keeps the ends of the entries distinct. *)
Lemma distinct_ends_filter (keep : edge -> bool) (es : list edge) :
  NoDup (map ends es) -> NoDup (map ends (filter keep es)).
Proof.
  intros Hnd. induction es as [|e es IH]; [constructor|].
  simpl in Hnd. inversion Hnd as [|? ? Hfresh Hrest]; subst.
  simpl. destruct (keep e); simpl; [|now apply IH].
  constructor; [|now apply IH].
  intros Hin. apply Hfresh. apply in_map_iff in Hin.
  destruct Hin as [e' [E He']]. rewrite <- E. apply in_map.
  apply filter_In in He'. tauto.
Qed.

(** Connectivity through a graph whose edges are all connected in
    another. *)
Lemma conn_through (e1 e2 : list (nat * nat)) (x y : nat) :
  (forall u v, In (u, v) e1 -> conn e2 u v) ->
  conn e1 x y -> conn e2 x y.
Proof.
  intros H. induction 1 as [|x v w _ IH Hvw]; [apply conn_refl|].
  apply conn_trans with v; [exact IH|].
  destruct Hvw as [Hvw|Hvw]; [now apply H | apply conn_sym; now apply H].
Qed.

Lemma forest_NoDup (es : list (nat * nat)) : forest es -> NoDup es.
Proof.
  induction es as [|[u v] es IH]; intros Hf; [constructor|].
  destruct Hf as [Hnc Hf]. constructor; [|now apply IH].
  intros Hin. apply Hnc. simpl. apply conn_edge. now left.
Qed.

Lemma forest_map_filter (q : edge -> bool) (l : list edge) :
  forest (map ends l) -> forest (map ends (filter q l)).
Proof.
  induction l as [|e l IH]; intros Hf; [exact I|].
  destruct Hf as [Hnc Hf]. simpl. destruct (q e); [|now apply IH].
  split; [|now apply IH].
  intros H. apply Hnc. eapply conn_mono; [|exact H].
  intros x Hx. apply in_map_iff in Hx. destruct Hx as [y [<- Hy]].
  apply in_map. apply filter_In in Hy. tauto.
Qed.

Lemma count_le_map (A : Type) (f : A -> Q) (t : Q) (l : list A) :
  count_le t (map f l) = length (filter (fun x => Qle_bool (f x) t) l).
Proof.
  unfold count_le. induction l as [|x l IH]; simpl; [reflexivity|].
  destruct (Qle_bool (f x) t); simpl; now rewrite IH.
Qed.

(** A spanning tree of the complete graph on [n] vertices, as a list of
    edges: it connects all the vertices with [n - 1] edges. *)
Definition spanning_tree (n : nat) (T : list (nat * nat)) : Prop :=
  valid_edges n T
  /\ length T = n - 1
  /\ forall u v, u < n -> v < n -> conn T u v.

(** The total weight of a list of edges. *)
Definition total_weight (adj : dense) (T : list (nat * nat)) : Q :=
  qsum (map (fun e => weight adj (fst e) (snd e)) T).

(** The total of the weights as the routine gets them: one added to each,
    in float32. *)
Definition total_shifted (adj : dense) (T : list (nat * nat)) : Q :=
  qsum (map (fun e => float32 (weight adj (fst e) (snd e) + 1)%Q) T).

Section Optimality.


(** The matrix of mutual information: square, with no negative entry. *)
Variable adj : dense.
Let n : nat := length adj.
Hypothesis adj_square : Forall (fun r => length r = n) adj.
Hypothesis adj_nonneg :
  forall i j, i < n -> j < n -> (0 <= weight adj i j)%Q.

Let C : dense := negated_plus_one adj.
Let G : list edge := csgraph_from_dense C.
Let K0 : list edge := kruskal_loop n (seq 0 n) [] (sort_by_cost G).

Lemma length_negated : length C = n.
Proof. unfold C, negated_plus_one. apply length_map. Qed.

Lemma weight_negated (i j : nat) :
  i < n -> j < n -> weight C i j = (- float32 (weight adj i j + 1))%Q.
Proof.
  intros Hi Hj. unfold weight, C, negated_plus_one.
  set (f := fun w : Q => (- float32 (w + 1))%Q).
  change (@nil Q) with (map f []) at 1. rewrite map_nth.
  assert (Hlen : length (nth i adj []) = n).
  { rewrite Forall_forall in adj_square. apply adj_square.
    apply nth_In. exact Hi. }
  rewrite (nth_indep (map f (nth i adj [])) 0%Q (f 0%Q))
    by (rewrite length_map; lia).
  now rewrite map_nth.
Qed.

Lemma cost_negative (i j : nat) :
  i < n -> j < n -> Qeq_bool (weight C i j) 0 = false.
Proof.
  intros Hi Hj. destruct (Qeq_bool (weight C i j) 0) eqn:E; [|reflexivity].
  apply Qeq_bool_eq in E. rewrite weight_negated in E by assumption.
  pose proof (adj_nonneg i j Hi Hj).
  assert (0 < float32 (weight adj i j + 1))%Q by (apply float32_pos; lra).
  lra.
Qed.

Lemma in_graph (e : edge) :
  In e G <-> row e < n /\ col e < n /\ cost e = weight C (row e) (col e).
Proof.
  unfold G, csgraph_from_dense. rewrite length_negated.
  rewrite filter_In, in_map_iff. split.
  - intros [[[i j] [<- Hin]] _]. apply in_prod_iff in Hin.
    rewrite !in_seq in Hin. unfold row, col, cost. simpl.
    repeat split; lia.
  - intros (Hr & Hc & Hcost). destruct e as [[i j] c].
    unfold row, col, cost in *. simpl in *. subst c.
    split.
    + exists (i, j). split; [reflexivity|]. apply in_prod_iff.
      rewrite !in_seq. lia.
    + unfold cost. simpl. rewrite cost_negative by assumption. reflexivity.
Qed.

Lemma entry_in_graph (i j : nat) :
  i < n -> j < n -> In (i, j, weight C i j) G.
Proof. intros Hi Hj. apply in_graph. unfold row, col, cost. simpl. auto. Qed.

Lemma graph_valid : valid n G.
Proof.
  intros x Hx. apply in_map_iff in Hx. destruct Hx as [e [<- He]].
  apply in_graph in He. rewrite ends_eq. simpl. tauto.
Qed.

Lemma graph_ends_NoDup : NoDup (map ends G).
Proof.
  unfold G, csgraph_from_dense. apply distinct_ends_filter.
  rewrite map_map. simpl. rewrite map_id.
  apply NoDup_list_prod; apply seq_NoDup.
Qed.

Lemma graph_ends_inj (e e' : edge) :
  In e G -> In e' G -> ends e = ends e' -> e = e'.
Proof.
  intros He He' E. apply in_graph in He, He'.
  destruct e as [[i j] c], e' as [[i' j'] c'].
  unfold ends, row, col, cost in *. simpl in *.
  inversion E; subst. destruct He as (_ & _ & ->), He' as (_ & _ & ->).
  reflexivity.
Qed.

Lemma sorted_graph_in (e : edge) : In e (sort_by_cost G) <-> In e G.
Proof.
  split; apply Permutation_in;
    [apply Permutation_sym|]; apply sort_by_cost_perm.
Qed.

(** What Kruskal's loop gives on the graph of the costs. *)
Lemma kruskal_result :
  forest (map ends K0)
  /\ incl K0 G
  /\ (forall e, In e G ->
        conn (map ends (filter (cheaper (cost e)) K0)) (row e) (col e)).
Proof.
  destruct (kruskal_loop_spec n (sort_by_cost G) (seq 0 n) [])
    as (Hf & [new [HK Hnew]] & HQ).
  - apply sort_by_cost_sorted.
  - intros e' e [].
  - intros x Hx. apply in_map_iff in Hx. destruct Hx as [e [<- He]].
    apply sorted_graph_in in He. apply graph_valid. now apply in_map.
  - intros x [].
  - apply canonical_seq.
  - apply represents_seq.
  - rewrite ncomp_seq. simpl. lia.
  - exact I.
  - fold K0 in Hf, HK, HQ. split; [assumption|]. split.
    + intros e He. rewrite HK, app_nil_r in He. apply sorted_graph_in.
      now apply Hnew.
    + intros e He. apply HQ. now apply sorted_graph_in.
Qed.

Lemma kept_valid : valid_edges n (map ends K0).
Proof.
  destruct kruskal_result as (_ & Hincl & _).
  intros x Hx. apply in_map_iff in Hx. destruct Hx as [e [<- He]].
  apply graph_valid. apply in_map. now apply Hincl.
Qed.

Lemma kept_connected (u v : nat) :
  u < n -> v < n -> conn (map ends K0) u v.
Proof.
  intros Hu Hv. destruct kruskal_result as (_ & _ & HQ).
  specialize (HQ _ (entry_in_graph u v Hu Hv)). simpl in HQ.
  eapply conn_mono; [|exact HQ].
  intros x Hx. apply in_map_iff in Hx. destruct Hx as [e [<- He]].
  apply in_map. apply filter_In in He. tauto.
Qed.

Lemma kept_length : length K0 = n - 1.
Proof.
  destruct kruskal_result as (Hf & _ & _).
  pose proof (forest_count n _ kept_valid Hf) as Hcount.
  rewrite length_map in Hcount.
  destruct (Nat.eq_dec n 0) as [E|E]; [lia|].
  destruct (components_spec n _ kept_valid) as [Hc Hr].
  pose proof (ncomp_connected n _ _ Hc Hr kept_connected).
  pose proof (ncomp_pos n _ Hc ltac:(lia)).
  unfold count_components in Hcount. lia.
Qed.

(** Under every threshold the kept entries are at least as many as the
    edges of any spanning tree. *)
Lemma kept_majorizes (T : list (nat * nat)) (t : Q) :
  spanning_tree n T ->
  count_le t (map (fun e => weight C (fst e) (snd e)) T)
  <= count_le t (map cost K0).
Proof.
  intros (HvT & HlenT & HconnT).
  rewrite !count_le_map. fold (cheaper t).
  set (p := fun e : nat * nat => Qle_bool (weight C (fst e) (snd e)) t).
  destruct kruskal_result as (Hf & Hincl & HQ).
  assert (HvK : valid_edges n (map ends (filter (cheaper t) K0))).
  { intros x Hx. apply in_map_iff in Hx. destruct Hx as [e [<- He]].
    apply kept_valid. apply in_map. apply filter_In in He. tauto. }
  assert (HvTt : valid_edges n (filter p T)).
  { intros x Hx. apply HvT. apply filter_In in Hx. tauto. }
  assert (HvTg : valid_edges n (filter (fun e => negb (p e)) T ++ filter p T)).
  { apply valid_edges_app. split; [|assumption].
    intros x Hx. apply HvT. apply filter_In in Hx. tauto. }
  pose proof (forest_count n _ HvK (forest_map_filter (cheaper t) K0 Hf))
    as Hcount.
  rewrite length_map in Hcount.
  assert (Hsub : count_components n (map ends (filter (cheaper t) K0))
                 <= count_components n (filter p T)).
  { apply count_components_refines; [assumption..|].
    intros u v _ _. apply conn_through. clear u v. intros u v Huv.
    apply filter_In in Huv. destruct Huv as [Hin Hp].
    destruct (HvT _ Hin) as [Hu Hv]. simpl in Hu, Hv.
    unfold p in Hp. simpl in Hp. apply Qle_bool_iff in Hp.
    pose proof (HQ _ (entry_in_graph u v Hu Hv)) as Hc.
    unfold row, col, cost in Hc. simpl in Hc.
    eapply conn_mono; [|exact Hc].
    intros x Hx. apply in_map_iff in Hx. destruct Hx as [e [<- He]].
    apply in_map. apply filter_In in He. destruct He as [He Hch].
    apply filter_In. split; [assumption|].
    unfold cheaper in *. apply Qle_bool_iff. apply Qle_bool_iff in Hch.
    eapply Qle_trans; eassumption. }
  pose proof (count_components_app n _ _ HvTg) as Happ.
  assert (Hone : count_components n
                   (filter (fun e => negb (p e)) T ++ filter p T) <= 1).
  { destruct (components_spec n _ HvTg) as [Hc Hr].
    apply (ncomp_connected n _ _ Hc Hr).
    intros u v Hu Hv. eapply conn_mono; [|now apply HconnT].
    intros x Hx. apply in_or_app. destruct (p x) eqn:E.
    - right. apply filter_In. now split.
    - left. apply filter_In. split; [assumption|]. now rewrite E. }
  pose proof (filter_length p T) as Hsplit.
  lia.
Qed.

(** The kept entries form a spanning tree of least total cost, hence of
    greatest total of the rounded weights. *)
Lemma kept_optimal (T : list (nat * nat)) :
  spanning_tree n T ->
  (total_shifted adj T <= total_shifted adj (map ends K0))%Q.
Proof.
  intros HT. pose proof HT as (HvT & HlenT & HconnT).
  destruct kruskal_result as (Hf & Hincl & HQ).
  assert (Hmaj : (qsum (map cost K0)
                  <= qsum (map (fun e => weight C (fst e) (snd e)) T))%Q).
  { apply (majorization (n - 1)).
    - rewrite length_map. apply kept_length.
    - now rewrite length_map.
    - intros t. now apply kept_majorizes. }
  rewrite (map_ext_in cost
             (fun e => (- float32 (weight adj (row e) (col e) + 1))%Q))
    in Hmaj.
  2:{ intros e He. apply Hincl in He. apply in_graph in He.
      destruct He as (Hr & Hc & ->). now apply weight_negated. }
  rewrite (map_ext_in (fun e => weight C (fst e) (snd e))
             (fun e => (- float32 (weight adj (fst e) (snd e) + 1))%Q))
    in Hmaj.
  2:{ intros e He. destruct (HvT e He). now apply weight_negated. }
  rewrite (qsum_map_negated _ (fun e => float32 (weight adj (row e) (col e) + 1)))
    in Hmaj.
  rewrite (qsum_map_negated _
             (fun e => float32 (weight adj (fst e) (snd e) + 1))) in Hmaj.
  unfold total_shifted. rewrite map_map.
  rewrite (map_ext
             (fun e => float32 (weight adj (fst (ends e)) (snd (ends e)) + 1))
             (fun e => float32 (weight adj (row e) (col e) + 1)))
    by reflexivity.
  lra.
Qed.

(** The matrix that [minimum_spanning_tree] returns holds the kept
    entries. *)
Lemma minimum_spanning_tree_kept :
  Permutation (minimum_spanning_tree C) K0.
Proof.
  destruct kruskal_result as (Hf & Hincl & _).
  unfold minimum_spanning_tree. rewrite length_negated. fold G. fold K0.
  apply NoDup_Permutation.
  - apply NoDup_filter. apply (NoDup_map_inv ends), graph_ends_NoDup.
  - apply (NoDup_map_inv ends). now apply forest_NoDup.
  - intros e. rewrite filter_In, existsb_exists. split.
    + intros [He [k [Hk Hs]]].
      replace e with k; [assumption|]. symmetry.
      apply graph_ends_inj; [assumption | now apply Hincl|].
      unfold same_entry in Hs. apply andb_true_iff in Hs.
      rewrite !Nat.eqb_eq in Hs. rewrite !ends_eq. now f_equal.
    + intros He. split; [now apply Hincl|]. exists e. split; [assumption|].
      unfold same_entry. now rewrite !Nat.eqb_refl.
Qed.

Lemma minimum_spanning_tree_spanning :
  spanning_tree n (map ends (minimum_spanning_tree C)).
Proof.
  pose proof (Permutation_map ends minimum_spanning_tree_kept) as Hp.
  split; [|split].
  - intros x Hx. apply kept_valid. eapply Permutation_in; eassumption.
  - rewrite (Permutation_length Hp), length_map. apply kept_length.
  - intros u v Hu Hv. eapply conn_mono; [|now apply kept_connected].
    intros x Hx. eapply Permutation_in; [apply Permutation_sym|]; eassumption.
Qed.

Lemma minimum_spanning_tree_optimal (T : list (nat * nat)) :
  spanning_tree n T ->
  (total_shifted adj T
   <= total_shifted adj (map ends (minimum_spanning_tree C)))%Q.
Proof.
  intros HT. pose proof (kept_optimal T HT) as H.
  unfold total_shifted in *.
  rewrite (qsum_perm _ _
             (Permutation_map
                (fun e => float32 (weight adj (fst e) (snd e) + 1))
                (Permutation_map ends minimum_spanning_tree_kept))).
  exact H.
Qed.

(** Where adding one is exact, the rounded weights are the weights and one
    for each edge. *)
Lemma total_shifted_exact (T : list (nat * nat)) :
  (forall i j, i < n -> j < n ->
     (float32 (weight adj i j + 1) == weight adj i j + 1)%Q) ->
  valid_edges n T ->
  (total_shifted adj T
   == total_weight adj T + inject_Z (Z.of_nat (length T)))%Q.
Proof.
  intros Hexact HvT. unfold total_shifted, total_weight.
  rewrite <- (qsum_map_plus_one _ (fun e => weight adj (fst e) (snd e))).
  apply qsum_pointwise. intros e He. destruct (HvT e He).
  now apply Hexact.
Qed.

(** Where adding one is exact, the kept edges weigh as much as a spanning
    tree can. *)
Lemma minimum_spanning_tree_optimal_exact (T : list (nat * nat)) :
  (forall i j, i < n -> j < n ->
     (float32 (weight adj i j + 1) == weight adj i j + 1)%Q) ->
  spanning_tree n T ->
  (total_weight adj T
   <= total_weight adj (map ends (minimum_spanning_tree C)))%Q.
Proof.
  intros Hexact HT. pose proof (minimum_spanning_tree_optimal T HT) as H.
  destruct minimum_spanning_tree_spanning as (Hv0 & Hlen0 & _).
  pose proof HT as (HvT & HlenT & _).
  rewrite (total_shifted_exact T Hexact HvT) in H.
  rewrite (total_shifted_exact _ Hexact Hv0) in H.
  rewrite HlenT, Hlen0 in H. lra.
Qed.

End Optimality.


End KruskalFacts.


(* ================================================================== *)
(** ** The breadth-first traversal *)
(* ================================================================== *)

Module TraversalFacts.
Import Py Tensors SpanningTree GraphFacts KruskalFacts.
Local Open Scope nat_scope.

(** [reaches tree root k v]: following the parent links of [tree] from
    [v] leads to [root] in [k] steps. *)
Inductive reaches (tree : list Z) (root : nat) : nat -> nat -> Prop :=
| reaches_root : reaches tree root 0 root
| reaches_parent (k v p : nat) :
    nth v tree NULL_IDX = Z.of_nat p ->
    reaches tree root k p ->
    reaches tree root (S k) v.

Lemma NULL_IDX_not_nat (p : nat) : Z.of_nat p <> NULL_IDX.
Proof. unfold NULL_IDX. lia. Qed.

(** Parent links stay when entries without a parent are written. *)
Lemma reaches_stable (tree tree' : list Z) (root k v : nat) :
  (forall x, nth x tree NULL_IDX <> NULL_IDX ->
             nth x tree' NULL_IDX = nth x tree NULL_IDX) ->
  reaches tree root k v -> reaches tree' root k v.
Proof.
  intros H. induction 1 as [|k v p Hp _ IH]; [constructor|].
  apply reaches_parent with p; [|exact IH].
  rewrite H; [exact Hp|]. rewrite Hp. apply NULL_IDX_not_nat.
Qed.

Lemma update_length (A : Type) (k : nat) (v : A) (l : list A) :
  length (update k v l) = length l.
Proof.
  revert k. induction l as [|x l IH]; intros [|k]; simpl; try reflexivity.
  now rewrite IH.
Qed.

Lemma nth_update (A : Type) (k i : nat) (v d : A) (l : list A) :
  nth i (update k v l) d
  = if Nat.eqb i k && Nat.ltb k (length l) then v else nth i l d.
Proof.
  revert k i. induction l as [|x l IH]; intros k i; simpl.
  - destruct i, k; simpl; try reflexivity; now rewrite andb_false_r.
  - destruct k as [|k], i as [|i]; simpl; try reflexivity.
    rewrite IH. reflexivity.
Qed.

Lemma nth_update_same (A : Type) (k : nat) (v d : A) (l : list A) :
  k < length l -> nth k (update k v l) d = v.
Proof.
  intros H. rewrite nth_update, Nat.eqb_refl.
  now rewrite (proj2 (Nat.ltb_lt _ _) H).
Qed.

Lemma nth_update_other (A : Type) (k i : nat) (v d : A) (l : list A) :
  i <> k -> nth i (update k v l) d = nth i l d.
Proof.
  intros H. rewrite nth_update.
  now rewrite (proj2 (Nat.eqb_neq _ _) H).
Qed.

(** A list without repetition of numbers below [n] has [n] elements at
    most. *)
Lemma NoDup_bounded (n : nat) (l : list nat) :
  NoDup l -> (forall v, In v l -> v < n) -> length l <= n.
Proof.
  intros Hnd Hlt.
  pose proof (NoDup_incl_length (l' := seq 0 n) Hnd) as H.
  rewrite length_seq in H. apply H.
  intros v Hv. apply in_seq. specialize (Hlt v Hv). lia.
Qed.

Section Traversal.

Variable n : nat.
Variable g : list edge.
Variable head : nat.
Hypothesis g_valid : valid n g.
Hypothesis head_lt : head < n.

Lemma neighbours_lt (p c : nat) : In c (neighbours g p) -> c < n.
Proof.
  unfold neighbours. intros H. apply in_app_or in H.
  destruct H as [H|H]; apply in_map_iff in H; destruct H as [e [<- He]];
    apply filter_In in He; destruct He as [He _];
    now destruct (valid_in n g e g_valid He).
Qed.

Lemma neighbours_of_edge (u w : nat) :
  In (u, w) (map ends g) \/ In (w, u) (map ends g) ->
  In w (neighbours g u).
Proof.
  unfold neighbours. intros [H|H]; apply in_map_iff in H;
    destruct H as [e [E He]]; rewrite ends_eq in E; inversion E; subst;
    apply in_or_app; [left|right]; apply in_map, filter_In;
    (split; [assumption | apply Nat.eqb_refl]).
Qed.

Lemma edge_of_neighbours (u w : nat) :
  In w (neighbours g u) ->
  In (u, w) (map ends g) \/ In (w, u) (map ends g).
Proof.
  unfold neighbours. intros H. apply in_app_or in H.
  destruct H as [H|H]; apply in_map_iff in H; destruct H as [e [<- He]];
    apply filter_In in He; destruct He as [He E]; apply Nat.eqb_eq in E;
    subst u; [left|right]; rewrite <- ends_eq; now apply in_map.
Qed.

(** The state of the traversal: the nodes listed so far, of which [queue]
    are still to expand, and the predecessors. *)
Record invariant (nodes : list nat) (predecessors : list Z) : Prop := {
  inv_NoDup : NoDup nodes;
  inv_lt : forall v, In v nodes -> v < n;
  inv_head : In head nodes;
  inv_length : length predecessors = n;
  inv_listed : forall v, v < n ->
    (nth v predecessors NULL_IDX <> NULL_IDX <-> In v nodes /\ v <> head);
  inv_reaches : forall i v, nth_error nodes i = Some v ->
    exists k, k <= i /\ reaches predecessors head k v;
  inv_edge : forall v p, nth v predecessors NULL_IDX = Z.of_nat p ->
    In v (neighbours g p)
}.

(** One neighbour of the node [p], listed at position [ip]. *)
Lemma visit_invariant (nodes new : list nat) (predecessors : list Z)
    (p ip c : nat) :
  invariant (nodes ++ new) predecessors ->
  nth_error nodes ip = Some p -> In c (neighbours g p) ->
  let st := visit head p (new, predecessors) c in
  invariant (nodes ++ fst st) (snd st)
  /\ In c (nodes ++ fst st)
  /\ (exists added, fst st = new ++ added).
Proof.
  intros Hinv Hp Hnb. pose proof (neighbours_lt p c Hnb) as Hc.
  unfold visit. simpl.
  destruct (Nat.eqb_spec c head) as [E|E].
  - subst c. simpl. split; [assumption|]. split; [apply (inv_head _ _ Hinv)|].
    exists []. now rewrite app_nil_r.
  - destruct (Z.eqb_spec (nth c predecessors NULL_IDX) NULL_IDX) as [Hnull|Hset].
    + simpl. assert (Hnew : ~ In c (nodes ++ new)).
      { intros Hin. apply (proj2 (inv_listed _ _ Hinv c Hc)); [|assumption].
        now split. }
      split; [|split].
      * rewrite app_assoc. constructor.
        -- apply NoDup_app; [apply (inv_NoDup _ _ Hinv) | repeat constructor; easy|].
           intros a Ha [<-|[]]. contradiction.
        -- intros v Hv. apply in_app_or in Hv.
           destruct Hv as [Hv|[<-|[]]]; [now apply (inv_lt _ _ Hinv) | assumption].
        -- apply in_or_app. left. apply (inv_head _ _ Hinv).
        -- rewrite update_length. apply (inv_length _ _ Hinv).
        -- intros v Hv. rewrite nth_update.
           rewrite (inv_length _ _ Hinv), (proj2 (Nat.ltb_lt _ _) Hc), andb_true_r.
           destruct (Nat.eqb_spec v c) as [Evc|Evc].
           ++ subst v. split; [|intros _; apply NULL_IDX_not_nat].
              intros _. split; [|assumption]. apply in_or_app. right. now left.
           ++ rewrite (inv_listed _ _ Hinv v Hv). split.
              ** intros [H1 H2]. split; [apply in_or_app; now left | assumption].
              ** intros [H1 H2]. split; [|assumption]. apply in_app_or in H1.
                 destruct H1 as [H1|[H1|[]]]; [assumption | congruence].
        -- intros i v Hi.
           assert (Hstable : forall x, nth x predecessors NULL_IDX <> NULL_IDX ->
                     nth x (update c (Z.of_nat p) predecessors) NULL_IDX
                     = nth x predecessors NULL_IDX).
           { intros x Hx. apply nth_update_other. intros ->. contradiction. }
           destruct (Nat.lt_ge_cases i (length (nodes ++ new))) as [Hlt|Hge].
           ++ rewrite nth_error_app1 in Hi by assumption.
              destruct (inv_reaches _ _ Hinv i v Hi) as [k [Hk Hr]].
              exists k. split; [assumption|].
              now apply (reaches_stable predecessors).
           ++ rewrite nth_error_app2 in Hi by assumption.
              destruct (i - length (nodes ++ new)) as [|d] eqn:Ed;
                [|destruct d; discriminate].
              simpl in Hi. inversion Hi; subst v.
              assert (Hp' : nth_error (nodes ++ new) ip = Some p).
              { rewrite nth_error_app1; [assumption|].
                apply nth_error_Some. congruence. }
              destruct (inv_reaches _ _ Hinv ip p Hp') as [k [Hk Hr]].
              assert (Hip : ip < length nodes).
              { apply nth_error_Some. congruence. }
              rewrite length_app in Hge.
              exists (S k). split; [lia|].
              apply reaches_parent with p.
              ** apply nth_update_same. rewrite (inv_length _ _ Hinv). assumption.
              ** now apply (reaches_stable predecessors).
        -- intros v q Hq. rewrite nth_update in Hq.
           rewrite (inv_length _ _ Hinv), (proj2 (Nat.ltb_lt _ _) Hc), andb_true_r
             in Hq.
           destruct (Nat.eqb_spec v c) as [Evc|Evc].
           ++ apply Nat2Z.inj in Hq. now subst.
           ++ now apply (inv_edge _ _ Hinv).
      * rewrite app_assoc. apply in_or_app. right. now left.
      * exists [c]. reflexivity.
    + simpl. split; [assumption|]. split.
      * apply (inv_listed _ _ Hinv c Hc). assumption.
      * exists []. now rewrite app_nil_r.
Qed.

(** All the neighbours of the node [p], listed at position [ip]. *)
Lemma visit_all_invariant (cs : list nat) :
  forall (nodes new : list nat) (predecessors : list Z) (p ip : nat),
    invariant (nodes ++ new) predecessors ->
    nth_error nodes ip = Some p ->
    (forall c, In c cs -> In c (neighbours g p)) ->
    let st := fold_left (visit head p) cs (new, predecessors) in
    invariant (nodes ++ fst st) (snd st)
    /\ (forall c, In c cs -> In c (nodes ++ fst st))
    /\ (exists added, fst st = new ++ added).
Proof.
  induction cs as [|c cs IH]; intros nodes new predecessors p ip Hinv Hp Hlt.
  - simpl. split; [assumption|]. split; [intros c []|].
    exists []. now rewrite app_nil_r.
  - simpl.
    destruct (visit_invariant nodes new predecessors p ip c Hinv Hp)
      as (Hinv1 & Hc1 & [added1 Hadd1]); [apply Hlt; now left|].
    destruct (visit head p (new, predecessors) c) as [new1 pred1] eqn:Est.
    simpl in Hinv1, Hc1, Hadd1.
    destruct (IH nodes new1 pred1 p ip Hinv1 Hp) as (Hinv2 & Hc2 & [added2 Hadd2]);
      [intros x Hx; apply Hlt; now right|].
    split; [assumption|]. split.
    + intros x [<-|Hx]; [|now apply Hc2].
      rewrite Hadd2. rewrite app_assoc. apply in_or_app. now left.
    + exists (added1 ++ added2). rewrite Hadd2, Hadd1. now rewrite app_assoc.
Qed.

(** The loop ends with every listed node expanded: the neighbours of a
    listed node are listed. *)
Lemma bfs_loop_invariant (fuel : nat) :
  forall (done queue : list nat) (predecessors : list Z),
    invariant (done ++ queue) predecessors ->
    (forall p c, In p done -> In c (neighbours g p) -> In c (done ++ queue)) ->
    length queue + (n - length (done ++ queue)) <= fuel ->
    let r := bfs_loop fuel g head queue (done ++ queue) predecessors in
    invariant (fst r) (snd r)
    /\ (forall p c, In p (fst r) -> In c (neighbours g p) -> In c (fst r)).
Proof.
  induction fuel as [|fuel IH]; intros done queue predecessors Hinv Hclosed Hfuel.
  - destruct queue as [|p queue]; [|simpl in Hfuel; lia].
    simpl. split; [assumption|]. intros p c Hp.
    rewrite app_nil_r in Hp. now apply Hclosed.
  - destruct queue as [|p queue].
    + simpl. split; [assumption|]. intros p c Hp.
      rewrite app_nil_r in Hp. now apply Hclosed.
    + simpl.
      assert (Hp : nth_error (done ++ p :: queue) (length done) = Some p).
      { rewrite nth_error_app2 by lia. now rewrite Nat.sub_diag. }
      assert (Hinv0 : invariant ((done ++ p :: queue) ++ []) predecessors)
        by now rewrite app_nil_r.
      destruct (visit_all_invariant (neighbours g p) (done ++ p :: queue) []
                  predecessors p (length done) Hinv0 Hp)
        as (Hinv1 & Hc1 & [added Hadd]); [now intros c Hc|].
      destruct (fold_left (visit head p) (neighbours g p) ([], predecessors))
        as [new pred1] eqn:Est.
      simpl in Hinv1, Hc1, Hadd. subst added. cbn [fst snd].
      assert (Eq : (done ++ p :: queue) ++ new = (done ++ [p]) ++ (queue ++ new)).
      { rewrite <- !app_assoc. reflexivity. }
      rewrite Eq in *.
      apply IH.
      * assumption.
      * intros p' c Hp' Hc. apply in_app_or in Hp'. destruct Hp' as [Hp'|[<-|[]]].
        -- rewrite <- Eq. apply in_or_app. left. now apply (Hclosed p').
        -- now apply Hc1.
      * pose proof (NoDup_bounded n _ (inv_NoDup _ _ Hinv1) (inv_lt _ _ Hinv1))
          as Hbound.
        rewrite !length_app in *. simpl in *. lia.
Qed.

Lemma invariant_start : invariant [head] (repeat NULL_IDX n).
Proof.
  constructor.
  - repeat constructor. easy.
  - intros v [<-|[]]. assumption.
  - now left.
  - apply repeat_length.
  - intros v Hv. rewrite nth_repeat. split; [congruence|].
    intros [[<-|[]] H]. congruence.
  - intros [|i] v Hi; simpl in Hi.
    + inversion Hi; subst. exists 0. split; [lia | constructor].
    + destruct i; discriminate.
  - intros v p Hp. rewrite nth_repeat in Hp. symmetry in Hp.
    now apply NULL_IDX_not_nat in Hp.
Qed.

(** The traversal from [head]. *)
Definition traversal : list nat * list Z :=
  bfs_loop n g head [head] [head] (repeat NULL_IDX n).

Lemma traversal_invariant :
  invariant (fst traversal) (snd traversal)
  /\ (forall p c, In p (fst traversal) -> In c (neighbours g p) ->
                  In c (fst traversal)).
Proof.
  apply (bfs_loop_invariant n [] [head]).
  - apply invariant_start.
  - intros p c [].
  - simpl. lia.
Qed.

(** Every vertex connected to [head] is listed. *)
Lemma traversal_complete (v : nat) :
  conn (map ends g) head v -> In v (fst traversal).
Proof.
  destruct traversal_invariant as [Hinv Hclosed].
  assert (H : forall u w, conn (map ends g) u w ->
                          In u (fst traversal) -> In w (fst traversal)).
  { induction 1 as [|u x w _ IH Hxw]; intros Hu; [assumption|].
    apply (Hclosed x); [now apply IH|]. now apply neighbours_of_edge. }
  intros Hc. apply (H head v Hc). apply (inv_head _ _ Hinv).
Qed.

(** [tree[root] = -1] *)
Definition rooted : list Z := update head (-1)%Z (snd traversal).

Lemma rooted_root : nth head rooted NULL_IDX = (-1)%Z.
Proof.
  destruct traversal_invariant as [Hinv _].
  unfold rooted. apply nth_update_same.
  now rewrite (inv_length _ _ Hinv).
Qed.

Lemma rooted_length : length rooted = n.
Proof.
  destruct traversal_invariant as [Hinv _].
  unfold rooted. rewrite update_length. apply (inv_length _ _ Hinv).
Qed.

Lemma traversal_head_null : nth head (snd traversal) NULL_IDX = NULL_IDX.
Proof.
  destruct traversal_invariant as [Hinv _].
  destruct (Z.eq_dec (nth head (snd traversal) NULL_IDX) NULL_IDX) as [E|E];
    [assumption|].
  apply (inv_listed _ _ Hinv head head_lt) in E. destruct E as [_ E].
  congruence.
Qed.

Lemma reaches_rooted (k v : nat) :
  reaches (snd traversal) head k v -> reaches rooted head k v.
Proof.
  apply reaches_stable. intros x Hx. unfold rooted.
  apply nth_update_other. intros ->. apply Hx, traversal_head_null.
Qed.

(** A listed vertex reaches the root in fewer steps than there are
    vertices, and has a parent unless it is the root. *)
Lemma listed_reaches (v : nat) :
  In v (fst traversal) ->
  (exists k, k <= n - 1 /\ reaches rooted head k v)
  /\ (v <> head -> exists p, p < n /\ nth v rooted NULL_IDX = Z.of_nat p).
Proof.
  destruct traversal_invariant as [Hinv Hclosed]. intros Hv.
  destruct (In_nth_error _ _ Hv) as [i Hi].
  destruct (inv_reaches _ _ Hinv i v Hi) as [k [Hk Hr]].
  assert (Hi' : i < length (fst traversal)).
  { apply nth_error_Some. congruence. }
  pose proof (NoDup_bounded n _ (inv_NoDup _ _ Hinv) (inv_lt _ _ Hinv)) as Hb.
  split.
  - exists k. split; [lia|]. now apply reaches_rooted.
  - intros Hne. inversion Hr as [|k' v' p Hp Hr' E1]; subst; [congruence|].
    exists p. split.
    + assert (Hpn : In p (fst traversal) \/ p = head).
      { inversion Hr' as [|k'' p' q Hq _]; subst; [now right|].
        left.
        destruct (Nat.lt_ge_cases p n) as [Hlt|Hge].
        - apply (inv_listed _ _ Hinv p Hlt). rewrite Hq. apply NULL_IDX_not_nat.
        - rewrite nth_overflow in Hq by (rewrite (inv_length _ _ Hinv); lia).
          exfalso. symmetry in Hq. now apply NULL_IDX_not_nat in Hq. }
      destruct Hpn as [Hpn| ->]; [now apply (inv_lt _ _ Hinv) | assumption].
    + unfold rooted. rewrite nth_update_other by assumption. exact Hp.
Qed.

End Traversal.


(** [ancestor tree k v w]: [w] is [k] parent links above [v]. *)
Inductive ancestor (tree : list Z) : nat -> nat -> nat -> Prop :=
| ancestor_self (v : nat) : ancestor tree 0 v v
| ancestor_parent (k v p w : nat) :
    nth v tree NULL_IDX = Z.of_nat p ->
    ancestor tree k p w ->
    ancestor tree (S k) v w.

Lemma ancestor_snoc (tree : list Z) (k v w q : nat) :
  ancestor tree k v w -> nth w tree NULL_IDX = Z.of_nat q ->
  ancestor tree (S k) v q.
Proof.
  induction 1 as [v|k v p w Hp _ IH]; intros Hq.
  - apply ancestor_parent with q; [assumption | constructor].
  - apply ancestor_parent with p; [assumption | now apply IH].
Qed.

(** A tree in which a vertex reaches a root without parent has no cycle
    through that vertex. *)
Lemma reaches_no_cycle (tree : list Z) (root : nat) :
  nth root tree NULL_IDX = (-1)%Z ->
  forall j v, reaches tree root j v ->
  forall k, ~ ancestor tree (S k) v v.
Proof.
  intros Hroot. induction 1 as [|j v p Hp _ IH]; intros k Hcycle.
  - inversion Hcycle as [|k' v' p w' Hp Hrest]; subst.
    rewrite Hroot in Hp. lia.
  - inversion Hcycle as [|k' v' q w' Hq Hrest]; subst.
    assert (q = p) by (rewrite Hp in Hq; lia). subst q.
    apply (IH k). now apply ancestor_snoc with v.
Qed.

Lemma argmin_from_lt (l : list distance) :
  forall i best vbest, best < i -> argmin_from i best vbest l < i + length l.
Proof.
  induction l as [|x l IH]; intros i best vbest Hb; simpl; [lia|].
  destruct (dle vbest x).
  - specialize (IH (S i) best vbest). lia.
  - specialize (IH (S i) i x). lia.
Qed.

Lemma argmin_lt (l : list distance) :
  l <> [] -> exists r, argmin l = Ok r /\ r < length l.
Proof.
  destruct l as [|x l]; [congruence|]. intros _. simpl.
  eexists. split; [reflexivity|].
  pose proof (argmin_from_lt l 1 0 x). lia.
Qed.

Lemma dijkstra_length (m : dense) : length (dijkstra m) = length m.
Proof.
  unfold dijkstra.
  set (n := length m). set (f := fun (d : list (list distance)) (k : nat) => _).
  set (start := map _ _).
  assert (Hstart : length start = n)
    by (unfold start; now rewrite length_map, length_seq).
  clearbody start. generalize (seq 0 n) at 1 as ks.
  intros ks. revert start Hstart.
  induction ks as [|k ks IH]; intros start Hstart; simpl; [assumption|].
  apply IH. unfold f. now rewrite length_map, length_seq.
Qed.

Lemma todense_length (n : nat) (g : list edge) : length (todense n g) = n.
Proof. unfold todense. now rewrite length_map, length_seq. Qed.

(** The edges of a predecessor array: every vertex with a parent gives the
    edge from its parent. *)
Definition tree_edges (tree : list Z) : list (nat * nat) :=
  flat_map (fun v =>
              let p := nth v tree NULL_IDX in
              if (p <? 0)%Z then [] else [(Z.to_nat p, v)])
           (seq 0 (length tree)).

(** An edge with its smaller end first. *)
Definition normalized (e : nat * nat) : nat * nat :=
  (Nat.min (fst e) (snd e), Nat.max (fst e) (snd e)).

Lemma in_tree_edges (tree : list Z) (p v : nat) :
  In (p, v) (tree_edges tree)
  <-> v < length tree /\ nth v tree NULL_IDX = Z.of_nat p.
Proof.
  unfold tree_edges. rewrite in_flat_map. split.
  - intros [x [Hx Hin]]. apply in_seq in Hx.
    destruct (Z.ltb_spec (nth x tree NULL_IDX) 0) as [Hneg|Hpos];
      [destruct Hin|].
    destruct Hin as [E|[]]. inversion E; subst. split; [lia|].
    now rewrite Z2Nat.id.
  - intros [Hv Hp]. exists v. split; [apply in_seq; lia|].
    rewrite Hp. destruct (Z.ltb_spec (Z.of_nat p) 0); [lia|].
    left. now rewrite Nat2Z.id.
Qed.

Lemma tree_edges_children (tree : list Z) :
  map snd (tree_edges tree)
  = filter (fun v => negb (nth v tree NULL_IDX <? 0)%Z) (seq 0 (length tree)).
Proof.
  unfold tree_edges. induction (seq 0 (length tree)) as [|v l IH];
    [reflexivity|].
  simpl. rewrite map_app, IH.
  destruct (nth v tree NULL_IDX <? 0)%Z; reflexivity.
Qed.

Section TreeEdges.

Variable n : nat.
Variable g : list edge.
Variable head : nat.
Hypothesis g_valid : valid n g.
Hypothesis head_lt : head < n.
Hypothesis g_connected : forall u v, u < n -> v < n -> conn (map ends g) u v.
Hypothesis g_size : length g = n - 1.

Let tree : list Z := rooted n g head.

Lemma all_listed (v : nat) : v < n -> In v (fst (traversal n g head)).
Proof.
  intros Hv. apply traversal_complete; try assumption.
  now apply g_connected.
Qed.

Lemma rooted_parent (v p : nat) :
  nth v tree NULL_IDX = Z.of_nat p -> v <> head /\ In v (neighbours g p).
Proof.
  intros Hp.
  assert (Hne : v <> head).
  { intros ->. unfold tree in Hp. rewrite rooted_root in Hp by assumption. lia. }
  split; [assumption|].
  destruct (traversal_invariant n g head g_valid head_lt) as [Hinv _].
  apply (inv_edge _ _ _ _ _ Hinv). unfold tree, rooted in Hp.
  now rewrite nth_update_other in Hp.
Qed.

Lemma rooted_negative (v : nat) :
  v < n -> ((nth v tree NULL_IDX <? 0)%Z = Nat.eqb v head).
Proof.
  intros Hv. destruct (Nat.eqb_spec v head) as [->|Hne].
  - unfold tree. rewrite rooted_root by assumption. reflexivity.
  - destruct (listed_reaches n g head g_valid head_lt v (all_listed v Hv))
      as [_ Hparent].
    destruct (Hparent Hne) as [p [_ Hp]]. fold tree in Hp. rewrite Hp.
    apply Z.ltb_ge. lia.
Qed.

Lemma tree_edges_length : length (tree_edges tree) = n - 1.
Proof.
  rewrite <- (length_map snd), tree_edges_children.
  unfold tree at 2. rewrite rooted_length by assumption.
  rewrite (filter_ext_in _ (fun v => negb (Nat.eqb v head))).
  - pose proof (length_filter_remove (seq 0 n) head (seq_NoDup n 0)) as H.
    rewrite length_seq in H. specialize (H ltac:(apply in_seq; lia)). lia.
  - intros v Hv. apply in_seq in Hv. now rewrite rooted_negative by lia.
Qed.

Lemma no_two_cycle (u v : nat) :
  u < n ->
  nth u tree NULL_IDX = Z.of_nat v -> nth v tree NULL_IDX = Z.of_nat u -> False.
Proof.
  intros Hu Huv Hvu.
  destruct (listed_reaches n g head g_valid head_lt u (all_listed u Hu))
    as [[j [_ Hj]] _].
  apply (reaches_no_cycle tree head (rooted_root n g head g_valid head_lt)
           j u Hj 1).
  apply ancestor_parent with v; [assumption|].
  apply ancestor_parent with u; [assumption | constructor].
Qed.

Lemma no_self_parent (u : nat) :
  u < n -> nth u tree NULL_IDX = Z.of_nat u -> False.
Proof.
  intros Hu Huu.
  destruct (listed_reaches n g head g_valid head_lt u (all_listed u Hu))
    as [[j [_ Hj]] _].
  apply (reaches_no_cycle tree head (rooted_root n g head g_valid head_lt)
           j u Hj 0).
  apply ancestor_parent with u; [assumption | constructor].
Qed.

Lemma tree_edges_distinct : NoDup (map normalized (tree_edges tree)).
Proof.
  apply NoDup_map_NoDup_ForallPairs.
  - intros [p1 v1] [p2 v2] H1 H2 E.
    apply in_tree_edges in H1, H2. destruct H1 as [Hv1 Hp1], H2 as [Hv2 Hp2].
    unfold tree in Hv1, Hv2. rewrite rooted_length in Hv1, Hv2 by assumption.
    unfold normalized in E. simpl in E. inversion E as [[Emin Emax]].
    assert (Hcase : (p1 = p2 /\ v1 = v2) \/ (p1 = v2 /\ v1 = p2)) by lia.
    destruct Hcase as [[-> ->]|[-> ->]]; [reflexivity|].
    exfalso. now apply (no_two_cycle p2 v2).
  - apply (NoDup_map_inv snd). rewrite tree_edges_children.
    apply NoDup_filter, seq_NoDup.
Qed.

Lemma normalized_swap (u v : nat) : normalized (u, v) = normalized (v, u).
Proof. unfold normalized. simpl. f_equal; lia. Qed.

(** The edges of the predecessor array are the edges of the graph, up to
    their direction and their order. *)
Lemma tree_edges_graph :
  Permutation (map normalized (tree_edges tree))
              (map normalized (map ends g)).
Proof.
  apply NoDup_Permutation_bis.
  - apply tree_edges_distinct.
  - rewrite !length_map, tree_edges_length. lia.
  - intros x Hx. apply in_map_iff in Hx. destruct Hx as [[p v] [<- Hin]].
    apply in_tree_edges in Hin. destruct Hin as [_ Hp].
    apply rooted_parent in Hp. destruct Hp as [_ Hnb].
    apply edge_of_neighbours in Hnb. destruct Hnb as [H|H].
    + now apply in_map.
    + rewrite normalized_swap. now apply in_map.
Qed.

End TreeEdges.

End TraversalFacts.


(* ================================================================== *)
(** ** Properties of the orchestrator *)
(* ================================================================== *)

Section OrchestratorProperties.
Import Py Tensors BasicFacts Orchestrator.
Local Open Scope Z_scope.

Variables MI RG : Type.
Variable het : matrix Q -> list bool -> result MI.
Variable cat : matrix Z -> option Z -> option Z -> result MI.
Variable gau : matrix Q -> result MI.
Variable mst : MI -> option Z -> result (list nat * list Z).
Variable t2r : list Z -> RG.

Let run := ChowLiuTree MI RG het cat gau mst t2r.

(** The mask entry of one descriptor. *)
Definition marks_categorical (d : descriptor) : bool :=
  match getitem d "name"%string with
  | Ok name => String.eqb name "categorical"%string
  | Raise _ => false
  end.

Lemma marks_categorical_spec (d : descriptor) :
  marks_categorical d = true <-> getitem d "name"%string = Ok "categorical"%string.
Proof.
  unfold marks_categorical. destruct (getitem d "name"%string) as [v|e].
  - rewrite String.eqb_eq. split; [intros ->; reflexivity | congruence].
  - split; discriminate.
Qed.

Lemma categorical_mask_named (l : list descriptor) :
  Forall (fun d => exists v, getitem d "name"%string = Ok v) l ->
  categorical_mask l = Ok (map marks_categorical l).
Proof.
  intros H. unfold categorical_mask. apply mapM_ok.
  eapply Forall_impl; [|exact H]. intros d [v Hv]. cbv beta.
  unfold marks_categorical. rewrite Hv. reflexivity.
Qed.

Lemma valid_root_assert (m : matrix Q) (root : option Z) :
  valid_root (Rank2 m) root ->
  match root with
  | None => true
  | Some r => (-1 <? r) && (r <? size_last m)
  end = true.
Proof.
  destruct root as [r|]; simpl; [|reflexivity].
  intros [H1 H2]. apply andb_true_iff. split; apply Z.ltb_lt; assumption.
Qed.

Lemma invalid_root_assert (data : tensor) (root : option Z) :
  ~ valid_root data root ->
  match root with
  | None => true
  | Some r => (-1 <? r) && (r <? size_last (as_matrix data))
  end = false.
Proof.
  destruct root as [r|]; simpl; [|intros H; exfalso; apply H; exact I].
  intros H. apply andb_false_iff.
  destruct (Z.ltb_spec (-1) r); [|now left].
  destruct (Z.ltb_spec r (size_last (as_matrix data))); [|now right].
  exfalso; apply H; split; assumption.
Qed.

(** An integer code written as a float. *)
Definition integer_code (K : Z) (q : Q) : Prop :=
  exists z, q = inject_Z z /\ 0 <= z < K.

Lemma div_floor_code (w z : Z) :
  0 < w -> long (div_floor w (inject_Z z)) = z / w.
Proof.
  intros Hw. unfold div_floor, long. simpl. rewrite Z.quot_1_r.
  destruct w as [|p|p]; try lia.
  unfold Qdiv, Qinv, inject_Z, Qmult, Qfloor. simpl.
  now rewrite Z.mul_1_r.
Qed.

(** When the bin count divides the category count, integer codes below the
    category count are rescaled to codes below the bin count, so that at
    most [num_bins] of them are seen. *)
Lemma rescale_divisible (data : matrix Q) (K B w : Z) :
  0 < B -> 0 < w -> K = B * w ->
  Forall (Forall (integer_code K)) (rows data) ->
  exists data',
    rescale data K B = Ok data'
    /\ Forall (Forall (fun c => 0 <= c < B)) (rows (map_matrix long data'))
    /\ (distinct_codes (map_matrix long data') <= Z.to_nat B)%nat.
Proof.
  intros HB Hw HK Hcodes.
  assert (Hwidth : K / B = w) by (subst K; rewrite Z.mul_comm; apply Z.div_mul; lia).
  unfold rescale. destruct (Z.eqb_spec B 0); [lia|].
  rewrite Hwidth. destruct (Z.eqb_spec w 0); [lia|].
  eexists. split; [reflexivity|].
  assert (Hrange : Forall (Forall (fun c => 0 <= c < B))
                     (rows (map_matrix long (map_matrix (div_floor w) data)))).
  { simpl. rewrite map_map. apply Forall_map.
    eapply Forall_impl; [|exact Hcodes]. intros r Hr. rewrite map_map.
    apply Forall_map. eapply Forall_impl; [|exact Hr].
    intros q [z [-> Hz]]. rewrite div_floor_code by assumption.
    split; [apply Z.div_pos; lia|]. apply Z.div_lt_upper_bound; lia. }
  split; [exact Hrange|].
  unfold distinct_codes.
  set (codes := concat (rows (map_matrix long (map_matrix (div_floor w) data)))).
  assert (Hall : forall c, In c codes -> 0 <= c < B).
  { intros c Hc. unfold codes in Hc. apply in_concat in Hc.
    destruct Hc as [r [Hr Hc]]. rewrite Forall_forall in Hrange.
    specialize (Hrange r Hr). rewrite Forall_forall in Hrange. now apply Hrange. }
  pose proof (NoDup_incl_length (l := nodup Z.eq_dec codes)
                (l' := map Z.of_nat (seq 0 (Z.to_nat B)))
                (NoDup_nodup Z.eq_dec codes)) as H.
  rewrite length_map, length_seq in H. apply H.
  intros c Hc. apply nodup_In in Hc. specialize (Hall c Hc).
  apply in_map_iff. exists (Z.to_nat c). split; [lia|]. apply in_seq. lia.
Qed.

End OrchestratorProperties.


Section OrchestratorClaims.
Import Py Tensors BasicFacts Orchestrator.
Local Open Scope Z_scope.

(** C9. With a per-column list of descriptors (each a dictionary with a
    ['name'] entry) and valid [data] and [root], the first call of the
    orchestrator is the heterogeneous estimator, on the whole data matrix and
    on the mask that holds, for every column, whether the descriptor's name is
    "categorical"; no other estimator is called afterwards. *)
Theorem ChowLiuTree_per_column_calls_heterogeneous :
  forall (MI RG : Type) het cat gau mst t2r
         (m : matrix Q) (l : list descriptor)
         (root chunk_size num_categories num_bins : option Z)
         (as_region_graph : bool),
    valid_root (Rank2 m) root ->
    Forall (fun d => exists v, getitem d "name"%string = Ok v) l ->
    exists rest,
      fst (ChowLiuTree MI RG het cat gau mst t2r (Rank2 m) (PerColumn l)
             root chunk_size num_categories num_bins as_region_graph)
      = CallHeterogeneous m (map marks_categorical l) :: rest
      /\ existsb is_estimator_call rest = false
      /\ length (map marks_categorical l) = length l
      /\ (forall d, marks_categorical d = true
                    <-> getitem d "name"%string = Ok "categorical"%string).
Proof.
  intros MI RG het cat gau mst t2r m l root chunk_size num_categories
         num_bins as_region_graph Hroot Hnames.
  unfold ChowLiuTree. simpl.
  rewrite (valid_root_assert m root Hroot). simpl.
  rewrite (categorical_mask_named l Hnames). simpl.
  destruct (het m (map marks_categorical l)) as [mi|e]; simpl.
  - destruct (mst mi root) as [bt|e]; simpl.
    + destruct as_region_graph; simpl; eexists; repeat split;
        try reflexivity; try apply length_map; apply marks_categorical_spec.
    + eexists; repeat split;
        try reflexivity; try apply length_map; apply marks_categorical_spec.
  - eexists; repeat split;
      try reflexivity; try apply length_map; apply marks_categorical_spec.
Qed.

Definition two_descriptors : list descriptor :=
  [[("name", "categorical")]; [("name", "gaussian")]]%string.

Definition two_columns : matrix Q := Matrix 2 [[0%Q; 1%Q]; [1%Q; 2%Q]].

Lemma ChowLiuTree_per_column_calls_heterogeneous_witness :
  exists rest,
    fst (ChowLiuTree unit unit (fun _ _ => Ok tt) (fun _ _ _ => Ok tt)
           (fun _ => Ok tt) (fun _ _ => Ok ([0%nat; 1%nat], [-1; 0]))
           (fun _ => tt)
           (Rank2 two_columns) (PerColumn two_descriptors)
           None None None None false)
    = CallHeterogeneous two_columns [true; false] :: rest.
Proof.
  destruct (ChowLiuTree_per_column_calls_heterogeneous unit unit
              (fun _ _ => Ok tt) (fun _ _ _ => Ok tt)
              (fun _ => Ok tt) (fun _ _ => Ok ([0%nat; 1%nat], [-1; 0]))
              (fun _ => tt) two_columns two_descriptors
              None None None None false)
    as [rest [H _]].
  - exact I.
  - repeat constructor; eexists; reflexivity.
  - exists rest. exact H.
Defined.

(** C10 as stated fails: on the "gaussian" path a bin count without a
    category count is not an error, the estimator and the tree builder run. *)
Lemma ChowLiuTree_gaussian_ignores_num_bins :
  ChowLiuTree unit unit (fun _ _ => Ok tt) (fun _ _ _ => Ok tt)
    (fun _ => Ok tt) (fun _ _ => Ok ([0%nat; 1%nat], [-1; 0]))
    (fun _ => tt)
    (Rank2 two_columns) (Tag "gaussian") None None None (Some 2) false
  = ([CallGaussian two_columns; CallSpanningTree tt None],
     Ok (Predecessors [-1; 0])).
Proof. reflexivity. Qed.

(** C10, amended.  The orchestrator fails with no call made when [data] is
    not two-dimensional, when [root] is out of range, and, on the
    "categorical" path with valid [data] and [root], when a bin count comes
    without a category count. *)
Theorem ChowLiuTree_fails_fast :
  forall (MI RG : Type) het cat gau mst t2r
         (data : tensor) (input_type : input_type_t)
         (root chunk_size num_categories num_bins : option Z)
         (as_region_graph : bool),
    ndim data <> 2%nat
    \/ ~ valid_root data root
    \/ (input_type = Tag "categorical"
        /\ num_bins <> None /\ num_categories = None) ->
    exists e,
      ChowLiuTree MI RG het cat gau mst t2r data input_type
        root chunk_size num_categories num_bins as_region_graph
      = ([], Raise e)
      /\ (e = AssertionError \/ e = ValueError).
Proof.
  intros MI RG het cat gau mst t2r data input_type root chunk_size
         num_categories num_bins as_region_graph H.
  unfold ChowLiuTree.
  destruct (Nat.eqb (ndim data) 2) eqn:Hdim; simpl.
  2:{ exists AssertionError. split; [reflexivity | now left]. }
  apply Nat.eqb_eq in Hdim.
  destruct H as [H | [H | (Hty & Hbins & Hcat)]].
  - contradiction.
  - rewrite (invalid_root_assert data root H). simpl.
    exists AssertionError. split; [reflexivity | now left].
  - destruct (match root with
              | Some r => (-1 <? r) && (r <? size_last (as_matrix data))
              | None => true
              end); simpl.
    + subst input_type num_categories. simpl.
      destruct num_bins as [b|]; [|congruence]. simpl.
      exists ValueError. split; [reflexivity | now right].
    + exists AssertionError. split; [reflexivity | now left].
Qed.

Lemma ChowLiuTree_fails_fast_witness :
  (exists e,
      ChowLiuTree unit unit (fun _ _ => Ok tt) (fun _ _ _ => Ok tt)
        (fun _ => Ok tt) (fun _ _ => Ok ([0%nat; 1%nat], [-1; 0]))
        (fun _ => tt)
        (OtherRank 1) (Tag "gaussian") None None None None false
      = ([], Raise e) /\ (e = AssertionError \/ e = ValueError))
  /\ (exists e,
      ChowLiuTree unit unit (fun _ _ => Ok tt) (fun _ _ _ => Ok tt)
        (fun _ => Ok tt) (fun _ _ => Ok ([0%nat; 1%nat], [-1; 0]))
        (fun _ => tt)
        (Rank2 two_columns) (Tag "gaussian") (Some 2) None None None false
      = ([], Raise e) /\ (e = AssertionError \/ e = ValueError))
  /\ (exists e,
      ChowLiuTree unit unit (fun _ _ => Ok tt) (fun _ _ _ => Ok tt)
        (fun _ => Ok tt) (fun _ _ => Ok ([0%nat; 1%nat], [-1; 0]))
        (fun _ => tt)
        (Rank2 two_columns) (Tag "categorical") None None None (Some 2) false
      = ([], Raise e) /\ (e = AssertionError \/ e = ValueError)).
Proof.
  split; [|split]; apply ChowLiuTree_fails_fast.
  - left. simpl. discriminate.
  - right; left. simpl. intros [_ H]. unfold size_last in H. simpl in H. lia.
  - right; right. repeat split; discriminate.
Defined.

(** C8 fails when the bin count does not divide the category count: five
    categories rescaled into two bins of width [5 // 2 = 2] leave the three
    codes 0, 1 and 2. *)
Theorem rescale_five_categories_two_bins :
  exists m',
    rescale (Matrix 1 [[0%Q]; [1%Q]; [2%Q]; [3%Q]; [4%Q]]) 5 2 = Ok m'
    /\ map_matrix long m' = Matrix 1 [[0]; [0]; [1]; [1]; [2]]
    /\ distinct_codes (map_matrix long m') = 3%nat
    /\ (Z.to_nat 2 < distinct_codes (map_matrix long m'))%nat.
Proof.
  eexists. split; [reflexivity|]. vm_compute. repeat split; reflexivity.
Qed.

End OrchestratorClaims.

Section CategoricalClaims.
Import Py Tensors BasicFacts XReal XRealFacts Categorical CategoricalFacts.
Local Open Scope Z_scope.

(** C5. The categorical mutual information does not depend on the chunk
    size: with any two chunk sizes that [split] accepts (a positive size, or
    none, which stands for the number of samples), the estimator gives the
    same outcome, matrix or failure. *)
Theorem categorical_mutual_info_chunk_size_irrelevant :
  forall (data : matrix Z) (alpha : R) (num_categories c1 c2 : option Z),
    valid_chunk_size c1 -> valid_chunk_size c2 ->
    _categorical_mutual_info data alpha num_categories c1
    = _categorical_mutual_info data alpha num_categories c2.
Proof.
  intros data alpha num_categories c1 c2 H1 H2.
  rewrite (categorical_mutual_info_closed data alpha num_categories c1 H1).
  rewrite (categorical_mutual_info_closed data alpha num_categories c2 H2).
  reflexivity.
Qed.

Definition three_samples : matrix Z := Matrix 2 [[0; 1]; [1; 1]; [0; 0]].

Lemma categorical_mutual_info_chunk_size_irrelevant_witness :
  _categorical_mutual_info three_samples (1 / 100)%R None None
  = _categorical_mutual_info three_samples (1 / 100)%R None (Some 1).
Proof.
  apply categorical_mutual_info_chunk_size_irrelevant.
  - exact I.
  - simpl. lia.
Defined.








End CategoricalClaims.

Section GaussianClaims.
Import Py Tensors BasicFacts XReal XRealFacts Gaussian GaussianFacts.
Local Open Scope R_scope.

Definition three_gaussian_samples : matrix Q :=
  Matrix 2 [[0%Q; 0%Q]; [1%Q; 2%Q]; [2%Q; 1%Q]].

Lemma cov_three_gaussian_samples : cov three_gaussian_samples 0 0 = Fin 1.
Proof.
  unfold cov. rewrite xdiv_fin by (simpl; lra). f_equal.
  unfold three_gaussian_samples, n_rows, column, floats, codeviation, mean.
  simpl. unfold Q2R. simpl. field.
Qed.

(** C1 fails on the "gaussian" path: the matrix is the formula applied to the
    whole correlation matrix and its diagonal is not overwritten.  On three
    samples of two features the first diagonal entry is [+inf], not zero. *)
Theorem gaussian_mutual_info_diagonal_not_zero :
  entry (gaussian_mutual_info three_gaussian_samples) 0 0 = PInf
  /\ entry (gaussian_mutual_info three_gaussian_samples) 0 0 <> Fin 0.
Proof.
  assert (H : entry (gaussian_mutual_info three_gaussian_samples) 0 0 = PInf).
  { rewrite gaussian_mutual_info_entry by (simpl; lia).
    rewrite (corrcoef_diagonal_one _ _ 1 cov_three_gaussian_samples) by lra.
    apply gaussian_mi_one. }
  split; [exact H | rewrite H; discriminate].
Qed.

End GaussianClaims.

Section HeterogeneousClaims.
Import Py Tensors BasicFacts XReal XRealFacts Gaussian GaussianFacts
  Heterogeneous HeterogeneousFacts.
Local Open Scope R_scope.

(** Two samples; the discrete second column takes the codes 0 and 2, so
    that category 1 of its three categories has no sample. *)
Definition skipped_category : matrix Q := Matrix 2 [[1%Q; 0%Q]; [2%Q; 2%Q]].

Lemma cross_value_skipped_category :
  cross_value skipped_category 0 1 3 [1; 0; 1]%Z = NaN.
Proof.
  unfold cross_value. rewrite xsum_nan; [apply xsub_nan_r|].
  change (Z.to_nat 3) with 3%nat. cbn [seq map combine fst snd].
  right; left.
  change (samples_of_category skipped_category 0 1 1) with (@nil R).
  rewrite gaussian_entropy_nil. reflexivity.
Qed.

(** C2 fails: a category of the discrete column without a sample gives the
    entropy of no sample, NaN, which its zero frequency does not cancel; the
    estimator returns a matrix with NaN off the diagonal. *)
Theorem heterogeneous_mutual_info_empty_category_nan :
  exists mi,
    _heterogeneous_mutual_info skipped_category [false; true] = Ok mi
    /\ entry mi 0 1 = NaN /\ entry mi 1 0 = NaN.
Proof.
  eexists. split.
  - apply (heterogeneous_one_continuous_one_discrete
             skipped_category [false; true] 0 1 3 [1; 0; 1]%Z);
      try reflexivity; simpl; lia.
  - rewrite cross_value_skipped_category. split; reflexivity.
Qed.

End HeterogeneousClaims.

Section SpanningTreeClaims.
Import Py SpanningTree GraphFacts KruskalFacts TraversalFacts.
Local Open Scope Q_scope.

(** Three features whose weights float32 cannot tell apart once one is
    added to them: [2 ^ -30] between features 0 and 1 and between 0 and 2,
    [2 ^ -28] between 1 and 2.  The matrix is symmetric and has no negative
    entry. *)
Definition close_weights : dense :=
  [[0; 1 # 2 ^ 30; 1 # 2 ^ 30];
   [1 # 2 ^ 30; 0; 1 # 2 ^ 28];
   [1 # 2 ^ 30; 1 # 2 ^ 28; 0]].

(** The path 0 - 1 - 2 is a spanning tree of three vertices. *)
Lemma path_spanning_tree : spanning_tree 3 [(0, 1); (1, 2)]%nat.
Proof.
  split; [|split].
  - intros e [<-|[<-|[]]]; simpl; lia.
  - reflexivity.
  - assert (H01 : conn [(0, 1); (1, 2)]%nat 0 1)
      by (apply conn_edge; simpl; auto).
    assert (H12 : conn [(0, 1); (1, 2)]%nat 1 2)
      by (apply conn_edge; simpl; auto).
    assert (H02 := conn_trans _ _ _ _ H01 H12).
    intros u v Hu Hv.
    destruct u as [|[|[|u]]]; [| | |lia];
      (destruct v as [|[|[|v]]]; [| | |lia]);
      first [apply conn_refl | assumption | now apply conn_sym].
Qed.

(** C3 fails: one added to a weight in float32 is 1.0 for every weight of
    [close_weights], so the costs are all -1 and the minimum-spanning-tree
    routine keeps the first edges it meets, 0 - 1 and 0 - 2.  The tree that
    the builder returns weighs [2 ^ -29], less than the spanning tree
    0 - 1 - 2, which weighs [2 ^ -30 + 2 ^ -28]. *)
Theorem maximum_spanning_tree_float32_not_maximum :
  negated_plus_one close_weights
  = [[-1; -1; -1]; [-1; -1; -1]; [-1; -1; -1]]
  /\ _maximum_spanning_tree close_weights None
     = Ok ([0; 1; 2]%nat, [-1; 0; 0]%Z)
  /\ spanning_tree 3 [(0, 1); (1, 2)]%nat
  /\ total_weight close_weights (tree_edges [-1; 0; 0]%Z) == 1 # 2 ^ 29
  /\ total_weight close_weights [(0, 1); (1, 2)]%nat == 5 # 2 ^ 30
  /\ total_weight close_weights (tree_edges [-1; 0; 0]%Z)
     < total_weight close_weights [(0, 1); (1, 2)]%nat.
Proof.
  split; [vm_compute; reflexivity|].
  split; [vm_compute; reflexivity|].
  split; [exact path_spanning_tree|].
  repeat split; vm_compute; reflexivity.
Qed.

(** A path 0 - 1 - 2 - 3 - 4 whose last edge is much heavier than the
    others. *)
Definition heavy_tail : dense :=
  [[0; 3; 0; 0; 0];
   [3; 0; 2; 0; 0];
   [0; 2; 0; 1; 0];
   [0; 0; 1; 0; 9];
   [0; 0; 0; 9; 0]].

Lemma heavy_tail_nonneg (i j : nat) :
  (i < 5)%nat -> (j < 5)%nat -> 0 <= weight heavy_tail i j.
Proof.
  intros Hi Hj.
  do 5 (destruct i as [|i]; [do 5 (destruct j as [|j]; [vm_compute; discriminate|]); lia|]).
  lia.
Qed.

(** The distances that count edges only. *)
Definition hop_distances (n : nat) (g : list edge) : list (list distance) :=
  dijkstra (todense n (map (fun e => (fst e, 1)) g)).

(** C7 fails: the distances handed to the root selection are sums of the
    costs [w + 1] of the tree edges, not numbers of edges.  On the path
    0 - 1 - 2 - 3 - 4 with a heavy last edge the selected root is 3, which
    is three edges away from vertex 0, while vertex 2 is two edges away
    from every vertex at most. *)
Theorem maximum_spanning_tree_root_not_center :
  let mst := minimum_spanning_tree (negated_plus_one heavy_tail) in
  _maximum_spanning_tree heavy_tail None
  = Ok ([3; 4; 2; 1; 0]%nat, [1; 2; 3; -1; 3]%Z)
  /\ map row_max (dijkstra (todense 5 (abs_ mst)))
     = [Some 19; Some 15; Some 12; Some 10; Some 19]
  /\ map row_max (hop_distances 5 mst)
     = [Some 4; Some 3; Some 2; Some 3; Some 4].
Proof. vm_compute. repeat split; reflexivity. Qed.

End SpanningTreeClaims.

Section PredecessorClaims.
Import Py Tensors SpanningTree GraphFacts KruskalFacts TraversalFacts.
Local Open Scope nat_scope.

(** [root is None or 0 <= root < n_features] *)
Definition root_in_range (n : nat) (root : option Z) : Prop :=
  match root with
  | Some r => (0 <= r < Z.of_nat n)%Z
  | None => True
  end.

Lemma maximum_spanning_tree_from_root (adj : dense) (root : option Z)
    (r : nat) :
  Forall (fun row => length row = length adj) adj ->
  (forall i j, i < length adj -> j < length adj -> (0 <= weight adj i j)%Q) ->
  r < length adj ->
  match root with
  | Some r' => Ok r'
  | None =>
      bind (argmin (map row_max
                      (dijkstra
                         (todense (length adj)
                            (abs_ (minimum_spanning_tree
                                     (negated_plus_one adj)))))))
           (fun r => Ok (Z.of_nat r))
  end = Ok (Z.of_nat r) ->
  let tree := rooted (length adj)
                (minimum_spanning_tree (negated_plus_one adj)) r in
  exists bfs,
    _maximum_spanning_tree adj root = Ok (bfs, tree)
    /\ length tree = length adj
    /\ nth r tree NULL_IDX = (-1)%Z
    /\ (forall v, v < length adj -> v <> r -> nth v tree NULL_IDX <> (-1)%Z)
    /\ (forall v, v < length adj ->
          exists k, k <= length adj - 1 /\ reaches tree r k v)
    /\ (forall v k, v < length adj -> ~ ancestor tree (S k) v v).
Proof.
  intros Hsq Hnn Hr Hroot tree.
  destruct (minimum_spanning_tree_spanning adj Hsq Hnn) as (Hvalid & _ & Hconn).
  set (mst := minimum_spanning_tree (negated_plus_one adj)) in *.
  assert (Hlisted : forall v, v < length adj ->
                      In v (fst (traversal (length adj) mst r))).
  { intros v Hv. apply traversal_complete; try assumption. now apply Hconn. }
  exists (fst (traversal (length adj) mst r)).
  split; [|split; [|split; [|split; [|split]]]].
  - unfold _maximum_spanning_tree. fold mst. rewrite Hroot. simpl.
    unfold breadth_first_order.
    destruct (Z.leb_spec 0 (Z.of_nat r)); [|lia].
    destruct (Z.ltb_spec (Z.of_nat r) (Z.of_nat (length adj))); [|lia].
    simpl. rewrite Nat2Z.id. reflexivity.
  - now apply rooted_length.
  - now apply rooted_root.
  - intros v Hv Hne.
    destruct (listed_reaches (length adj) mst r Hvalid Hr v (Hlisted v Hv))
      as [_ Hparent].
    destruct (Hparent Hne) as [p [_ Hp]]. fold tree in Hp. rewrite Hp. lia.
  - intros v Hv.
    now destruct (listed_reaches (length adj) mst r Hvalid Hr v (Hlisted v Hv)).
  - intros v k Hv.
    destruct (listed_reaches (length adj) mst r Hvalid Hr v (Hlisted v Hv))
      as [[j [_ Hj]] _].
    apply (reaches_no_cycle tree r) with j; [now apply rooted_root | assumption].
Qed.

(** The root is the one given, or the one selected, and it is a vertex. *)
Lemma root_selected (adj : dense) (root : option Z) :
  0 < length adj ->
  root_in_range (length adj) root ->
  exists r, r < length adj
    /\ (forall r', root = Some r' -> r' = Z.of_nat r)
    /\ match root with
       | Some r' => Ok r'
       | None =>
           bind (argmin (map row_max
                   (dijkstra
                      (todense (length adj)
                         (abs_ (minimum_spanning_tree
                                  (negated_plus_one adj)))))))
                (fun r => Ok (Z.of_nat r))
       end = Ok (Z.of_nat r).
Proof.
  intros Hn Hroot. destruct root as [r'|].
  - simpl in Hroot. exists (Z.to_nat r'). split; [lia|]. split.
    + intros x Hx. inversion Hx; subst. now rewrite Z2Nat.id by lia.
    + now rewrite Z2Nat.id by lia.
  - destruct (argmin_lt (map row_max
                (dijkstra
                   (todense (length adj)
                      (abs_ (minimum_spanning_tree (negated_plus_one adj)))))))
      as [r [Hr Hlt]].
    + intros E. apply (f_equal (@length _)) in E.
      rewrite length_map, dijkstra_length, todense_length in E.
      simpl in E. lia.
    + rewrite length_map, dijkstra_length, todense_length in Hlt.
      exists r. split; [assumption|]. split; [discriminate|].
      rewrite Hr. reflexivity.
Qed.

(** C4. For a square matrix with no negative entry over at least one
    feature, and a root forced to a valid index or left to the builder, the
    builder returns a predecessor array, one entry per feature, in which the
    root, and only the root, holds -1, every vertex reaches the root along
    its parent links in at most [n_features - 1] steps, and no vertex is its
    own ancestor. *)
Theorem maximum_spanning_tree_predecessors :
  forall (adj : dense) (root : option Z),
    0 < length adj ->
    Forall (fun row => length row = length adj) adj ->
    (forall i j, i < length adj -> j < length adj -> (0 <= weight adj i j)%Q) ->
    root_in_range (length adj) root ->
    exists bfs tree r,
      _maximum_spanning_tree adj root = Ok (bfs, tree)
      /\ r < length adj
      /\ (forall r', root = Some r' -> r' = Z.of_nat r)
      /\ length tree = length adj
      /\ nth r tree NULL_IDX = (-1)%Z
      /\ (forall v, v < length adj -> v <> r -> nth v tree NULL_IDX <> (-1)%Z)
      /\ (forall v, v < length adj ->
            exists k, k <= length adj - 1 /\ reaches tree r k v)
      /\ (forall v k, v < length adj -> ~ ancestor tree (S k) v v).
Proof.
  intros adj root Hn Hsq Hnn Hroot.
  destruct (root_selected adj root Hn Hroot) as (r & Hlt & Hsome & Hsel).
  destruct (maximum_spanning_tree_from_root adj root r Hsq Hnn Hlt Hsel)
    as (bfs & H).
  exists bfs, (rooted (length adj)
                 (minimum_spanning_tree (negated_plus_one adj)) r), r.
  tauto.
Qed.

Lemma maximum_spanning_tree_predecessors_witness :
  exists bfs tree r,
    _maximum_spanning_tree heavy_tail (Some 2%Z) = Ok (bfs, tree)
    /\ r < 5
    /\ (forall r', Some 2%Z = Some r' -> r' = Z.of_nat r)
    /\ length tree = 5
    /\ nth r tree NULL_IDX = (-1)%Z
    /\ (forall v, v < 5 -> v <> r -> nth v tree NULL_IDX <> (-1)%Z)
    /\ (forall v, v < 5 -> exists k, k <= 5 - 1 /\ reaches tree r k v)
    /\ (forall v k, v < 5 -> ~ ancestor tree (S k) v v).
Proof.
  apply (maximum_spanning_tree_predecessors heavy_tail (Some 2%Z)).
  - simpl. lia.
  - repeat constructor.
  - exact heavy_tail_nonneg.
  - simpl. lia.
Defined.

(** In a symmetric matrix the direction of the edges does not count. *)
Lemma total_weight_normalized (adj : dense) (es : list (nat * nat)) :
  (forall i j, (weight adj i j == weight adj j i)%Q) ->
  (total_weight adj es == total_weight adj (map normalized es))%Q.
Proof.
  intros Hsym. unfold total_weight. rewrite map_map.
  apply qsum_pointwise. intros [u v] _. unfold normalized. simpl.
  destruct (Nat.le_gt_cases u v) as [H|H].
  - rewrite Nat.min_l, Nat.max_r by assumption. reflexivity.
  - rewrite Nat.min_r, Nat.max_l by lia. apply Hsym.
Qed.

Lemma total_shifted_normalized (adj : dense) (es : list (nat * nat)) :
  (forall i j, i < length adj -> j < length adj -> (0 <= weight adj i j)%Q) ->
  (forall i j, (weight adj i j == weight adj j i)%Q) ->
  valid_edges (length adj) es ->
  (total_shifted adj es == total_shifted adj (map normalized es))%Q.
Proof.
  intros Hnn Hsym Hv. unfold total_shifted. rewrite map_map.
  apply qsum_pointwise. intros [u v] Hin. unfold normalized. simpl.
  destruct (Hv _ Hin) as [Hu Hv']. simpl in Hu, Hv'.
  destruct (Nat.le_gt_cases u v) as [H|H].
  - rewrite Nat.min_l, Nat.max_r by assumption. reflexivity.
  - rewrite Nat.min_r, Nat.max_l by lia.
    rewrite (float32_comp (weight adj u v + 1) (weight adj v u + 1));
      [reflexivity| |].
    + pose proof (Hnn u v Hu Hv'). lra.
    + now rewrite Hsym.
Qed.

(** Edges that are, direction aside, edges between vertices are edges
    between vertices. *)
Lemma valid_edges_normalized (n : nat) (es es' : list (nat * nat)) :
  Permutation (map normalized es) (map normalized es') ->
  valid_edges n es' -> valid_edges n es.
Proof.
  intros Hperm Hv e He.
  assert (Hin : In (normalized e) (map normalized es')).
  { eapply Permutation_in; [exact Hperm|]. now apply in_map. }
  apply in_map_iff in Hin. destruct Hin as [e' [E He']].
  destruct (Hv e' He') as [H1 H2].
  destruct e as [u v], e' as [u' v']. unfold normalized in E.
  simpl in *. inversion E. lia.
Qed.

(** The predecessor array that the builder returns for a symmetric matrix
    carries the edges kept by the minimum-spanning-tree routine: no
    spanning tree has a greater total of the weights as the routine gets
    them, and none has a greater total weight where adding one to a weight
    is exact. *)
Lemma maximum_spanning_tree_tree_weight (adj : dense) (root : option Z) :
  0 < length adj ->
  Forall (fun row => length row = length adj) adj ->
  (forall i j, i < length adj -> j < length adj -> (0 <= weight adj i j)%Q) ->
  (forall i j, (weight adj i j == weight adj j i)%Q) ->
  root_in_range (length adj) root ->
  exists bfs tree,
    _maximum_spanning_tree adj root = Ok (bfs, tree)
    /\ (forall T, spanning_tree (length adj) T ->
          (total_shifted adj T <= total_shifted adj (tree_edges tree))%Q)
    /\ ((forall i j, i < length adj -> j < length adj ->
           (float32 (weight adj i j + 1) == weight adj i j + 1)%Q) ->
        forall T, spanning_tree (length adj) T ->
          (total_weight adj T <= total_weight adj (tree_edges tree))%Q).
Proof.
  intros Hn Hsq Hnn Hsym Hroot.
  destruct (root_selected adj root Hn Hroot) as (r & Hlt & Hsome & Hsel).
  destruct (maximum_spanning_tree_from_root adj root r Hsq Hnn Hlt Hsel)
    as (bfs & Hrun & _).
  destruct (minimum_spanning_tree_spanning adj Hsq Hnn) as (Hvalid & Hlen & Hconn).
  rewrite length_map in Hlen.
  pose proof (tree_edges_graph (length adj)
                (minimum_spanning_tree (negated_plus_one adj)) r
                Hvalid Hlt Hconn Hlen) as Hperm.
  pose proof (valid_edges_normalized _ _ _ Hperm Hvalid) as Hvt.
  eexists. eexists. split; [exact Hrun|]. split.
  - intros T HT.
    pose proof (minimum_spanning_tree_optimal adj Hsq Hnn T HT) as Hopt.
    rewrite (total_shifted_normalized adj (tree_edges _) Hnn Hsym Hvt).
    rewrite (total_shifted_normalized adj (map ends _) Hnn Hsym Hvalid)
      in Hopt.
    unfold total_shifted in *.
    rewrite (qsum_perm _ _
               (Permutation_map
                  (fun e => float32 (weight adj (fst e) (snd e) + 1)%Q) Hperm)).
    exact Hopt.
  - intros Hexact T HT.
    pose proof (minimum_spanning_tree_optimal_exact adj Hsq Hnn T Hexact HT)
      as Hopt.
    rewrite (total_weight_normalized adj (tree_edges _) Hsym).
    rewrite (total_weight_normalized adj (map ends _) Hsym) in Hopt.
    unfold total_weight in *.
    rewrite (qsum_perm _ _
               (Permutation_map (fun e => weight adj (fst e) (snd e)) Hperm)).
    exact Hopt.
Qed.

End PredecessorClaims.


(* ================================================================== *)
(** ** Further properties of the orchestrator *)
(* ================================================================== *)

Section OrchestratorBehaviour.
Import Py Tensors BasicFacts Orchestrator.
Local Open Scope Z_scope.

Variables MI RG : Type.
Variable het : matrix Q -> list bool -> result MI.
Variable cat : matrix Z -> option Z -> option Z -> result MI.
Variable gau : matrix Q -> result MI.
Variable mst : MI -> option Z -> result (list nat * list Z).
Variable t2r : list Z -> RG.

(** What the estimator named by an event returns; the two other calls are
    no estimators. *)
Definition estimator_result (ev : event MI) : option (result MI) :=
  match ev with
  | CallHeterogeneous data mask => Some (het data mask)
  | CallCategorical data num_categories chunk_size =>
      Some (cat data num_categories chunk_size)
  | CallGaussian data => Some (gau data)
  | CallSpanningTree _ _ | CallTree2rg _ => None
  end.

(** The four ways a run can go. *)
Inductive run_shape (root : option Z) (as_region_graph : bool)
  : M MI (output RG) -> Prop :=
| rejected (e : exn) :
    run_shape root as_region_graph ([], Raise e)
| estimator_failed (est : event MI) (e : exn) :
    estimator_result est = Some (Raise e) ->
    run_shape root as_region_graph ([est], Raise e)
| builder_failed (est : event MI) (mi : MI) (e : exn) :
    estimator_result est = Some (Ok mi) ->
    mst mi root = Raise e ->
    run_shape root as_region_graph
      ([est; CallSpanningTree mi root], Raise e)
| returned (est : event MI) (mi : MI) (bfs : list nat) (tree : list Z) :
    estimator_result est = Some (Ok mi) ->
    mst mi root = Ok (bfs, tree) ->
    run_shape root as_region_graph
      (est :: CallSpanningTree mi root
           :: (if as_region_graph then [CallTree2rg tree] else []),
       Ok (if as_region_graph then AsRegionGraph (t2r tree)
           else Predecessors tree)).

Lemma bindM_pure (A B : Type) (a : A) (k : A -> M MI B) :
  bindM MI ([], Ok a) k = k a.
Proof. unfold bindM. now destruct (k a). Qed.

Lemma bindM_assoc (A B C : Type) (m : M MI A) (f : A -> M MI B)
    (g : B -> M MI C) :
  bindM MI (bindM MI m f) g = bindM MI m (fun x => bindM MI (f x) g).
Proof.
  destruct m as [t [a|e]]; simpl; [|reflexivity].
  destruct (f a) as [t1 [b|e]]; simpl; [|reflexivity].
  destruct (g b) as [t2 r]. now rewrite app_assoc.
Qed.

(** The end of a run, from the call of an estimator on. *)
Definition after_estimator (root : option Z) (as_region_graph : bool)
    (est : event MI) (r : result MI) : M MI (output RG) :=
  bindM MI (call MI est r)
    (fun mutual_info =>
       bindM MI
         (call MI (CallSpanningTree mutual_info root) (mst mutual_info root))
         (fun bt =>
            if as_region_graph
            then call MI (CallTree2rg (snd bt))
                      (Ok (AsRegionGraph (t2r (snd bt))))
            else ret MI (Predecessors (snd bt)))).

Lemma run_shape_after (root : option Z) (as_region_graph : bool)
    (est : event MI) (r : result MI) :
  estimator_result est = Some r ->
  run_shape root as_region_graph (after_estimator root as_region_graph est r).
Proof.
  intros Hest. unfold after_estimator. destruct r as [mi|e]; simpl.
  - destruct (mst mi root) as [[bfs tree]|e] eqn:Hmst; simpl.
    + destruct as_region_graph eqn:Harg; simpl.
      * exact (returned root true est mi bfs tree Hest Hmst).
      * exact (returned root false est mi bfs tree Hest Hmst).
    + now apply builder_failed.
  - now apply estimator_failed.
Qed.

(** X1. Every run of the orchestrator goes one of four ways: it is rejected
    before any call; or one estimator is called and fails, and its exception
    is the one of the run; or the estimator returns a matrix, the tree
    builder is called on that matrix with the caller's root and fails, and
    its exception is the one of the run; or the tree builder returns, and
    the run gives its predecessor array, through [tree2rg] exactly when a
    region graph is asked for.  So no second estimator is ever called, the
    tree builder never runs without the matrix of an estimator, and the
    breadth-first order is dropped. *)
Theorem ChowLiuTree_call_sequence :
  forall (data : tensor) (input_type : input_type_t)
         (root chunk_size num_categories num_bins : option Z)
         (as_region_graph : bool),
    run_shape root as_region_graph
      (ChowLiuTree MI RG het cat gau mst t2r data input_type
         root chunk_size num_categories num_bins as_region_graph).
Proof.
  intros data input_type root chunk_size num_categories num_bins
         as_region_graph.
  unfold ChowLiuTree, py_assert.
  destruct (Nat.eqb (ndim data) 2); [|apply rejected].
  unfold ret at 1. rewrite bindM_pure.
  destruct (match root with
            | Some r => (-1 <? r) && (r <? size_last (as_matrix data))
            | None => true
            end); [|apply rejected].
  unfold ret at 1. rewrite bindM_pure.
  destruct input_type as [s|l].
  - destruct (String.eqb s "categorical").
    + rewrite bindM_assoc.
      destruct num_bins as [b|].
      * destruct num_categories as [k|]; [|apply rejected].
        unfold lift. destruct (rescale (as_matrix data) k b) as [d|e];
          [|apply rejected].
        rewrite bindM_pure.
        apply (run_shape_after root as_region_graph
                 (CallCategorical (map_matrix long d) (Some k) chunk_size)).
        reflexivity.
      * unfold ret at 1. rewrite bindM_pure.
        apply (run_shape_after root as_region_graph
                 (CallCategorical (map_matrix long (as_matrix data))
                                  num_categories chunk_size)).
        reflexivity.
    + destruct (String.eqb s "gaussian").
      * apply (run_shape_after root as_region_graph
                 (CallGaussian (as_matrix data))).
        reflexivity.
      * apply rejected.
  - rewrite bindM_assoc.
    unfold lift. destruct (categorical_mask l) as [mask|e]; [|apply rejected].
    rewrite bindM_pure.
    apply (run_shape_after root as_region_graph
             (CallHeterogeneous (as_matrix data) mask)).
    reflexivity.
Qed.

(** X2. With valid [data] and [root], an input type that is a string other
    than "categorical" and "gaussian" raises [NotImplementedError], and
    nothing is called. *)
Theorem ChowLiuTree_unknown_input_type :
  forall (m : matrix Q) (s : string)
         (root chunk_size num_categories num_bins : option Z)
         (as_region_graph : bool),
    valid_root (Rank2 m) root ->
    s <> "categorical"%string -> s <> "gaussian"%string ->
    ChowLiuTree MI RG het cat gau mst t2r (Rank2 m) (Tag s)
      root chunk_size num_categories num_bins as_region_graph
    = ([], Raise NotImplementedError).
Proof.
  intros m s root chunk_size num_categories num_bins as_region_graph
         Hroot Hc Hg.
  unfold ChowLiuTree. simpl.
  rewrite (valid_root_assert m root Hroot). simpl.
  apply String.eqb_neq in Hc, Hg. rewrite Hc, Hg. reflexivity.
Qed.

(** X3. On the "categorical" path with valid [data] and [root], a bin count
    and a category count, the one estimator called is the categorical one,
    on the rescaled codes, and the category count handed to it is the one of
    the caller: it is not replaced by the bin count. *)
Theorem ChowLiuTree_rescaled_keeps_num_categories :
  forall (m d : matrix Q) (root chunk_size : option Z) (k b : Z)
         (as_region_graph : bool),
    valid_root (Rank2 m) root ->
    rescale m k b = Ok d ->
    exists rest,
      fst (ChowLiuTree MI RG het cat gau mst t2r (Rank2 m) (Tag "categorical")
             root chunk_size (Some k) (Some b) as_region_graph)
      = CallCategorical (map_matrix long d) (Some k) chunk_size :: rest
      /\ existsb is_estimator_call rest = false.
Proof.
  intros m d root chunk_size k b as_region_graph Hroot Hd.
  unfold ChowLiuTree. simpl.
  rewrite (valid_root_assert m root Hroot). simpl.
  rewrite Hd. simpl.
  destruct (cat (map_matrix long d) (Some k) chunk_size) as [mi|e]; simpl.
  - destruct (mst mi root) as [bt|e]; simpl.
    + destruct as_region_graph; simpl; eexists; split; reflexivity.
    + eexists; split; reflexivity.
  - eexists; split; reflexivity.
Qed.

Lemma getitem_raises (d : descriptor) (k : string) (e : exn) :
  getitem d k = Raise e -> e = KeyError.
Proof.
  induction d as [|[k' v] d IH]; simpl; intros H.
  - now inversion H.
  - destruct (String.eqb k' k); [discriminate | now apply IH].
Qed.

Lemma categorical_mask_missing_name (l : list descriptor) :
  Exists (fun d => getitem d "name"%string = Raise KeyError) l ->
  categorical_mask l = Raise KeyError.
Proof.
  unfold categorical_mask. induction l as [|d l IH]; intros H.
  - inversion H.
  - simpl. destruct (getitem d "name"%string) as [v|e] eqn:Ed; simpl.
    + inversion H as [d' l' Hd|d' l' Hl]; subst; [congruence|].
      now rewrite (IH Hl).
    + now rewrite (getitem_raises d _ e Ed).
Qed.

(** X4. With valid [data] and [root] and a per-column list in which some
    descriptor has no ['name'] entry, the orchestrator raises [KeyError]
    while it builds the mask, and nothing is called. *)
Theorem ChowLiuTree_descriptor_without_name :
  forall (m : matrix Q) (l : list descriptor)
         (root chunk_size num_categories num_bins : option Z)
         (as_region_graph : bool),
    valid_root (Rank2 m) root ->
    Exists (fun d => getitem d "name"%string = Raise KeyError) l ->
    ChowLiuTree MI RG het cat gau mst t2r (Rank2 m) (PerColumn l)
      root chunk_size num_categories num_bins as_region_graph
    = ([], Raise KeyError).
Proof.
  intros m l root chunk_size num_categories num_bins as_region_graph
         Hroot Hl.
  unfold ChowLiuTree. simpl.
  rewrite (valid_root_assert m root Hroot). simpl.
  rewrite (categorical_mask_missing_name l Hl). reflexivity.
Qed.

End OrchestratorBehaviour.

Arguments estimator_result {MI} het cat gau ev.

Section OrchestratorExamples.
Import Py Tensors BasicFacts Orchestrator.
Local Open Scope Z_scope.

Lemma ChowLiuTree_unknown_input_type_witness :
  ChowLiuTree unit unit (fun _ _ => Ok tt) (fun _ _ _ => Ok tt)
    (fun _ => Ok tt) (fun _ _ => Ok ([0%nat; 1%nat], [-1; 0]))
    (fun _ => tt)
    (Rank2 two_columns) (Tag "poisson") (Some 1) None None None true
  = ([], Raise NotImplementedError).
Proof.
  apply ChowLiuTree_unknown_input_type.
  - simpl. unfold size_last. simpl. lia.
  - discriminate.
  - discriminate.
Defined.

Lemma ChowLiuTree_rescaled_keeps_num_categories_witness :
  exists rest,
    fst (ChowLiuTree unit unit (fun _ _ => Ok tt) (fun _ _ _ => Ok tt)
           (fun _ => Ok tt) (fun _ _ => Ok ([0%nat; 1%nat], [-1; 0]))
           (fun _ => tt)
           (Rank2 two_columns) (Tag "categorical") None None
           (Some 4) (Some 2) false)
    = CallCategorical (Matrix 2 [[0; 0]; [0; 1]]) (Some 4) None :: rest
    /\ existsb is_estimator_call rest = false.
Proof.
  apply (ChowLiuTree_rescaled_keeps_num_categories unit unit
           (fun _ _ => Ok tt) (fun _ _ _ => Ok tt) (fun _ => Ok tt)
           (fun _ _ => Ok ([0%nat; 1%nat], [-1; 0])) (fun _ => tt)
           two_columns (Matrix 2 [[0%Q; 0%Q]; [0%Q; 1%Q]])).
  - exact I.
  - vm_compute. reflexivity.
Defined.

Lemma ChowLiuTree_descriptor_without_name_witness :
  ChowLiuTree unit unit (fun _ _ => Ok tt) (fun _ _ _ => Ok tt)
    (fun _ => Ok tt) (fun _ _ => Ok ([0%nat; 1%nat], [-1; 0]))
    (fun _ => tt)
    (Rank2 two_columns)
    (PerColumn [[("name", "categorical")]; [("type", "gaussian")]]%string)
    None None None None true
  = ([], Raise KeyError).
Proof.
  apply ChowLiuTree_descriptor_without_name.
  - exact I.
  - apply Exists_cons_tl, Exists_cons_hd. reflexivity.
Defined.

End OrchestratorExamples.


Section Rescaling.
Import Py Tensors BasicFacts Orchestrator.
Local Open Scope Z_scope.

(** The rescaling of integer codes below the category count, when every
    rescaled code is below [M]. *)
Lemma rescale_codes_below (data : matrix Q) (K B M : Z) :
  B <> 0 -> 0 < K / B ->
  (forall z, 0 <= z < K -> z / (K / B) < M) ->
  Forall (Forall (integer_code K)) (rows data) ->
  exists data',
    rescale data K B = Ok data'
    /\ Forall (Forall (fun c => 0 <= c < M)) (rows (map_matrix long data'))
    /\ (distinct_codes (map_matrix long data') <= Z.to_nat M)%nat.
Proof.
  intros HB Hw Hbound Hcodes. unfold rescale.
  destruct (Z.eqb_spec B 0) as [E|_]; [contradiction|].
  destruct (Z.eqb_spec (K / B) 0) as [E|_]; [lia|].
  set (w := K / B) in *.
  exists (map_matrix (div_floor w) data). split; [reflexivity|].
  assert (Hrange : forall r c,
            In r (rows (map_matrix long (map_matrix (div_floor w) data))) ->
            In c r -> 0 <= c < M).
  { intros r c Hr Hc. simpl in Hr. rewrite map_map in Hr.
    apply in_map_iff in Hr. destruct Hr as [r0 [<- Hr0]].
    rewrite map_map in Hc. apply in_map_iff in Hc.
    destruct Hc as [q [<- Hq]].
    rewrite Forall_forall in Hcodes. specialize (Hcodes r0 Hr0).
    rewrite Forall_forall in Hcodes. destruct (Hcodes q Hq) as [z [-> Hz]].
    rewrite div_floor_code by assumption.
    split; [apply Z.div_pos; lia | now apply Hbound]. }
  split.
  - apply Forall_forall. intros r Hr. apply Forall_forall. intros c Hc.
    now apply (Hrange r c).
  - unfold distinct_codes.
    set (codes := concat _).
    assert (Hall : forall c, In c codes -> 0 <= c < M).
    { intros c Hc. unfold codes in Hc. apply in_concat in Hc.
      destruct Hc as [r [Hr Hc]]. now apply (Hrange r c). }
    pose proof (NoDup_incl_length (l := nodup Z.eq_dec codes)
                  (l' := map Z.of_nat (seq 0 (Z.to_nat M)))
                  (NoDup_nodup Z.eq_dec codes)) as H.
    rewrite length_map, length_seq in H. apply H.
    intros c Hc. apply nodup_In in Hc. specialize (Hall c Hc).
    apply in_map_iff. exists (Z.to_nat c). split; [lia|]. apply in_seq. lia.
Qed.

(** X5. When the bin count divides the category count, the rescaling
    succeeds on integer codes below the category count, every rescaled code
    is below the bin count, and at most [num_bins] distinct codes are
    left. *)
Theorem rescale_within_num_bins_when_divisible :
  forall (data : matrix Q) (num_categories num_bins width : Z),
    0 < num_bins -> 0 < width -> num_categories = num_bins * width ->
    Forall (Forall (integer_code num_categories)) (rows data) ->
    exists data',
      rescale data num_categories num_bins = Ok data'
      /\ Forall (Forall (fun c => 0 <= c < num_bins))
                (rows (map_matrix long data'))
      /\ (distinct_codes (map_matrix long data') <= Z.to_nat num_bins)%nat.
Proof.
  intros data K B w HB Hw HK Hcodes.
  assert (Hwidth : K / B = w)
    by (subst K; rewrite Z.mul_comm; apply Z.div_mul; lia).
  apply rescale_codes_below; try assumption; try lia.
  intros z Hz. rewrite Hwidth. apply Z.div_lt_upper_bound; lia.
Qed.

Definition four_codes : matrix Q := Matrix 1 [[0%Q]; [1%Q]; [2%Q]; [3%Q]].

Lemma four_codes_integer : Forall (Forall (integer_code 4)) (rows four_codes).
Proof.
  repeat constructor.
  - exists 0. split; [reflexivity | lia].
  - exists 1. split; [reflexivity | lia].
  - exists 2. split; [reflexivity | lia].
  - exists 3. split; [reflexivity | lia].
Qed.

Lemma rescale_within_num_bins_when_divisible_witness :
  exists data',
    rescale four_codes 4 2 = Ok data'
    /\ Forall (Forall (fun c => 0 <= c < 2)) (rows (map_matrix long data'))
    /\ (distinct_codes (map_matrix long data') <= Z.to_nat 2)%nat.
Proof.
  apply (rescale_within_num_bins_when_divisible four_codes 4 2 2).
  - lia.
  - lia.
  - reflexivity.
  - exact four_codes_integer.
Defined.

(** X6. Whenever the bin count is positive and not above the category
    count, the rescaling succeeds on integer codes below the category count
    and leaves fewer than twice [num_bins] distinct codes: every rescaled
    code is below [2 * num_bins - 1]. *)
Theorem rescale_fewer_than_twice_num_bins :
  forall (data : matrix Q) (num_categories num_bins : Z),
    0 < num_bins <= num_categories ->
    Forall (Forall (integer_code num_categories)) (rows data) ->
    exists data',
      rescale data num_categories num_bins = Ok data'
      /\ Forall (Forall (fun c => 0 <= c < 2 * num_bins - 1))
                (rows (map_matrix long data'))
      /\ (distinct_codes (map_matrix long data')
          <= Z.to_nat (2 * num_bins - 1))%nat.
Proof.
  intros data K B HB Hcodes.
  assert (Hw : 0 < K / B) by (apply Z.div_str_pos; lia).
  apply rescale_codes_below; try assumption; try lia.
  intros z Hz. apply Z.div_lt_upper_bound; [assumption|].
  pose proof (Z.mul_succ_div_gt K B ltac:(lia)) as Hgt.
  nia.
Qed.

Lemma rescale_fewer_than_twice_num_bins_witness :
  exists data',
    rescale four_codes 4 3 = Ok data'
    /\ Forall (Forall (fun c => 0 <= c < 2 * 3 - 1))
              (rows (map_matrix long data'))
    /\ (distinct_codes (map_matrix long data') <= Z.to_nat (2 * 3 - 1))%nat.
Proof.
  apply (rescale_fewer_than_twice_num_bins four_codes 4 3).
  - lia.
  - exact four_codes_integer.
Defined.

End Rescaling.


(* ================================================================== *)
(** ** Further properties of the categorical estimator *)
(* ================================================================== *)

Module CategoricalMoreFacts.
Import Py Tensors BasicFacts XReal XRealFacts Categorical CategoricalFacts.
Local Open Scope Z_scope.

(** Every code fits in 32 bits.  With a category count of [2 ^ 31] at most,
    the joint index [code * num_categories + code] of two such codes fits
    in the 64 bits of a long tensor. *)
Definition codes_int32 (data : matrix Z) : Prop :=
  Forall (Forall (fun x => - 2 ^ 31 <= x < 2 ^ 31)) (rows data).

(** The joint index of a code with itself falls in a bin only when the
    code is a category. *)
Lemma diagonal_in_bins (K x : Z) :
  0 <= K <= 2 ^ 31 -> - 2 ^ 31 <= x < 2 ^ 31 ->
  in_bins (Z.to_nat (K * K)) (int64 (x * K + x)) = true -> 0 <= x < K.
Proof.
  intros HK Hx H. rewrite int64_same in H by nia.
  unfold in_bins in H. apply andb_true_iff in H.
  destruct H as [H0 H1]. apply Z.leb_le in H0. apply Z.ltb_lt in H1.
  rewrite Z2Nat.id in H1 by nia. nia.
Qed.

(** The codes that the loop over the chunks accepts are the categories. *)
Lemma valid_codes_range (K : Z) (data : matrix Z) :
  well_shaped data -> codes_int32 data -> 0 <= K <= 2 ^ 31 ->
  valid_codes (n_cols data) K (rows data) = true ->
  codes_in_range K data.
Proof.
  intros Hs H32 HK Hv. unfold codes_in_range.
  apply Forall_forall. intros r Hr. apply Forall_forall. intros x Hx.
  assert (Hx32 : - 2 ^ 31 <= x < 2 ^ 31).
  { unfold codes_int32 in H32. rewrite Forall_forall in H32.
    specialize (H32 r Hr). rewrite Forall_forall in H32. now apply H32. }
  destruct (In_nth r x 0 Hx) as [i [Hi E]]. subst x.
  unfold well_shaped in Hs. rewrite Forall_forall in Hs.
  rewrite (Hs r Hr) in Hi.
  unfold valid_codes in Hv. rewrite forallb_forall in Hv.
  specialize (Hv i ltac:(apply in_seq; lia)).
  rewrite forallb_forall in Hv.
  specialize (Hv i ltac:(apply in_seq; lia)).
  rewrite forallb_forall in Hv.
  apply (diagonal_in_bins K); [assumption..|].
  apply Hv. unfold joint_values.
  apply (in_map (fun row => int64 (nth i row 0 * K + nth i row 0))). exact Hr.
Qed.

(** The matrix that the estimator returns, in closed form. *)
Lemma categorical_mutual_info_returned (data : matrix Z) (alpha : R)
    (num_categories chunk_size : option Z) (mi : list (list xreal)) :
  valid_chunk_size chunk_size ->
  _categorical_mutual_info data alpha num_categories chunk_size = Ok mi ->
  exists K,
    num_categories_of data num_categories = Ok K
    /\ 0 <= K
    /\ valid_codes (n_cols data) K (rows data) = true
    /\ mi = mutual_info alpha (n_rows data) (n_cols data) K
              (counts (n_cols data) K (rows data)).
Proof.
  intros Hc H.
  rewrite (categorical_mutual_info_closed data alpha num_categories chunk_size Hc)
    in H.
  destruct (num_categories_of data num_categories) as [K|e]; simpl in H;
    [|discriminate].
  exists K. split; [reflexivity|].
  destruct (Z.ltb_spec K 0) as [Hneg|Hpos]; [discriminate|].
  destruct (valid_codes (n_cols data) K (rows data)) eqn:Hv; [|discriminate].
  split; [assumption|]. split; [reflexivity|]. now inversion H.
Qed.

(** *** The order of the samples *)

Lemma concat_perm (l l' : list (list Z)) :
  Permutation l l' -> Permutation (concat l) (concat l').
Proof.
  induction 1 as [|x l l' _ IH|x y l|l l' l'' _ IH1 _ IH2]; simpl.
  - constructor.
  - now apply Permutation_app_head.
  - rewrite !app_assoc. apply Permutation_app_tail, Permutation_app_comm.
  - now transitivity (concat l').
Qed.

(** The greatest element of a list that starts with [x]. *)
Lemma fold_left_max_spec (l : list Z) (x : Z) :
  In (fold_left Z.max l x) (x :: l)
  /\ forall y, In y (x :: l) -> y <= fold_left Z.max l x.
Proof.
  revert x. induction l as [|a l IH]; intros x; simpl.
  - split; [now left|]. intros y [<-|[]]. lia.
  - destruct (IH (Z.max x a)) as [Hin Hle]. split.
    + destruct Hin as [E|Hin]; [|now right; right].
      rewrite <- E. destruct (Z.max_spec x a) as [[_ ->]|[_ ->]];
        [right; now left | now left].
    + intros y [<-|[<-|Hy]].
      * specialize (Hle (Z.max x a) (or_introl eq_refl)). lia.
      * specialize (Hle (Z.max x a) (or_introl eq_refl)). lia.
      * apply Hle. now right.
Qed.

Lemma tensor_max_perm (n n' : nat) (l l' : list (list Z)) :
  Permutation l l' -> tensor_max (Matrix n l) = tensor_max (Matrix n' l').
Proof.
  intros H. apply concat_perm in H. unfold tensor_max. simpl.
  destruct (concat l) as [|x c] eqn:E, (concat l') as [|x' c'] eqn:E'.
  - reflexivity.
  - apply Permutation_nil in H. discriminate.
  - apply Permutation_sym, Permutation_nil in H. discriminate.
  - f_equal.
    destruct (fold_left_max_spec c x) as [Hin Hle].
    destruct (fold_left_max_spec c' x') as [Hin' Hle'].
    apply Z.le_antisymm.
    + apply Hle'. now apply (Permutation_in _ H).
    + apply Hle. now apply (Permutation_in _ (Permutation_sym H)).
Qed.

Lemma forallb_perm (A : Type) (p : A -> bool) (l l' : list A) :
  Permutation l l' -> forallb p l = forallb p l'.
Proof.
  induction 1 as [|x l l' _ IH|x y l|l l' l'' _ IH1 _ IH2]; simpl.
  - reflexivity.
  - now rewrite IH.
  - now rewrite !andb_assoc, (andb_comm (p y)).
  - congruence.
Qed.

Lemma valid_codes_perm (F : nat) (K : Z) (l l' : list (list Z)) :
  Permutation l l' -> valid_codes F K l = valid_codes F K l'.
Proof.
  intros H. unfold valid_codes.
  apply forallb_pointwise. intros i. apply forallb_pointwise. intros j.
  apply forallb_perm. unfold joint_values. now apply Permutation_map.
Qed.

Lemma counts_perm (F : nat) (K : Z) (l l' : list (list Z)) :
  Permutation l l' -> counts F K l = counts F K l'.
Proof.
  intros H. unfold counts.
  apply map_ext. intros i. apply map_ext. intros j.
  unfold add_counts. apply map_ext. intros b. f_equal.
  unfold occurrences. f_equal.
  apply Permutation_count_occ. unfold joint_values. now apply Permutation_map.
Qed.

End CategoricalMoreFacts.


Section CategoricalBehaviour.
Import Py Tensors BasicFacts XReal XRealFacts Categorical CategoricalFacts
  CategoricalMoreFacts.
Local Open Scope Z_scope.

(** X8. With a category count [0 <= K <= 2 ^ 31] given, and codes that fit
    in 32 bits, the estimator returns a matrix exactly when every code of
    the (well-shaped) data lies in [[0, K)]; one code outside, negative or
    too large, makes the [scatter_add_] of the pair of its column with
    itself fail, and the call raises a [RuntimeError]. *)
Theorem categorical_mutual_info_code_out_of_range :
  forall (data : matrix Z) (alpha : R) (chunk_size : option Z) (K : Z),
    well_shaped data ->
    codes_int32 data ->
    valid_chunk_size chunk_size ->
    0 <= K <= 2 ^ 31 ->
    (codes_in_range K data ->
     exists mi,
       _categorical_mutual_info data alpha (Some K) chunk_size = Ok mi)
    /\ (~ codes_in_range K data ->
        _categorical_mutual_info data alpha (Some K) chunk_size
        = Raise RuntimeError).
Proof.
  intros data alpha chunk_size K Hs H32 Hc HK.
  rewrite (categorical_mutual_info_closed data alpha (Some K) chunk_size Hc).
  simpl. destruct (Z.ltb_spec K 0) as [Hneg|_]; [lia|].
  split.
  - intros Hr. rewrite (valid_codes_in_range K data (proj2 HK) Hs Hr).
    eexists. reflexivity.
  - intros Hr.
    destruct (valid_codes (n_cols data) K (rows data)) eqn:Hv; [|reflexivity].
    exfalso. apply Hr. now apply valid_codes_range.
Qed.

Lemma categorical_mutual_info_code_out_of_range_witness :
  (codes_in_range 1 three_samples ->
   exists mi,
     _categorical_mutual_info three_samples (1 / 100)%R (Some 1) None = Ok mi)
  /\ (~ codes_in_range 1 three_samples ->
      _categorical_mutual_info three_samples (1 / 100)%R (Some 1) None
      = Raise RuntimeError).
Proof.
  apply (categorical_mutual_info_code_out_of_range
           three_samples (1 / 100)%R None 1).
  - repeat constructor.
  - repeat constructor; lia.
  - exact I.
  - lia.
Defined.

(** X9. The estimator does not depend on the order of the samples: two data
    matrices with the same rows in another order give the same outcome,
    matrix or failure. *)
Theorem categorical_mutual_info_sample_order_irrelevant :
  forall (n_features : nat) (samples samples' : list (list Z)) (alpha : R)
         (num_categories chunk_size : option Z),
    valid_chunk_size chunk_size ->
    Permutation samples samples' ->
    _categorical_mutual_info (Matrix n_features samples) alpha
      num_categories chunk_size
    = _categorical_mutual_info (Matrix n_features samples') alpha
        num_categories chunk_size.
Proof.
  intros F l l' alpha num_categories chunk_size Hc Hp.
  rewrite !(categorical_mutual_info_closed _ alpha num_categories chunk_size Hc).
  assert (HK : num_categories_of (Matrix F l) num_categories
               = num_categories_of (Matrix F l') num_categories).
  { destruct num_categories as [k|]; simpl; [reflexivity|].
    now rewrite (tensor_max_perm F F l l' Hp). }
  rewrite HK. apply bind_pointwise. intros K. simpl.
  rewrite (valid_codes_perm F K l l' Hp), (counts_perm F K l l' Hp).
  unfold n_rows. simpl. now rewrite (Permutation_length Hp).
Qed.

Lemma categorical_mutual_info_sample_order_irrelevant_witness :
  _categorical_mutual_info (Matrix 2 [[0; 1]; [1; 1]; [0; 0]]) (1 / 100)%R
    None None
  = _categorical_mutual_info (Matrix 2 [[1; 1]; [0; 1]; [0; 0]]) (1 / 100)%R
      None None.
Proof.
  apply categorical_mutual_info_sample_order_irrelevant.
  - exact I.
  - apply perm_swap.
Defined.

(** X10. Data without any sample: with no category count the estimator
    fails, as the greatest code of an empty tensor is asked for; with a
    category count [K > 0] it returns a matrix. *)
Theorem categorical_mutual_info_no_sample :
  forall (n_features : nat) (alpha : R) (chunk_size : option Z) (K : Z),
    valid_chunk_size chunk_size ->
    0 < K ->
    _categorical_mutual_info (Matrix n_features []) alpha None chunk_size
    = Raise RuntimeError
    /\ exists mi,
         _categorical_mutual_info (Matrix n_features []) alpha (Some K)
           chunk_size = Ok mi.
Proof.
  intros F alpha chunk_size K Hc HK. split.
  - rewrite (categorical_mutual_info_closed _ alpha None chunk_size Hc).
    reflexivity.
  - rewrite (categorical_mutual_info_closed _ alpha (Some K) chunk_size Hc).
    cbn [bind num_categories_of].
    destruct (Z.ltb_spec K 0) as [Hneg|_]; [lia|].
    replace (valid_codes (n_cols (Matrix F [])) K (rows (Matrix F [])))
      with true.
    + eexists. reflexivity.
    + symmetry. unfold valid_codes. apply forallb_forall. intros i _.
      apply forallb_forall. intros j _. reflexivity.
Qed.

Lemma categorical_mutual_info_no_sample_witness :
  _categorical_mutual_info (Matrix 2 []) (1 / 100)%R None None
  = Raise RuntimeError
  /\ exists mi,
       _categorical_mutual_info (Matrix 2 []) (1 / 100)%R (Some 3) None
       = Ok mi.
Proof.
  apply (categorical_mutual_info_no_sample 2 (1 / 100)%R None 3).
  - exact I.
  - lia.
Defined.

(** No code is negative. *)
Definition codes_nonneg (data : matrix Z) : Prop :=
  Forall (Forall (fun x => 0 <= x)) (rows data).

(** X11. With the category count left to the estimator, which takes the
    greatest code plus one, the estimator returns a matrix on well-shaped
    data with at least one code, all of which fit in 32 bits, exactly when
    no code is negative; a negative code makes it raise a
    [RuntimeError]. *)
Theorem categorical_mutual_info_inferred_categories :
  forall (data : matrix Z) (alpha : R) (chunk_size : option Z),
    well_shaped data ->
    codes_int32 data ->
    valid_chunk_size chunk_size ->
    concat (rows data) <> [] ->
    (codes_nonneg data ->
     exists mi, _categorical_mutual_info data alpha None chunk_size = Ok mi)
    /\ (~ codes_nonneg data ->
        _categorical_mutual_info data alpha None chunk_size
        = Raise RuntimeError).
Proof.
  intros data alpha chunk_size Hs H32 Hc Hne.
  rewrite (categorical_mutual_info_closed data alpha None chunk_size Hc).
  unfold num_categories_of, tensor_max.
  destruct (concat (rows data)) as [|x l] eqn:E; [congruence|].
  cbn [bind].
  destruct (fold_left_max_spec l x) as [Hin Hle].
  set (M := fold_left Z.max l x) in *.
  assert (Hcodes : forall r c, In r (rows data) -> In c r -> c <= M).
  { intros r c Hr Hcr. apply Hle. rewrite <- E. apply in_concat.
    now exists r. }
  assert (HM : exists r, In r (rows data) /\ In M r).
  { rewrite <- E in Hin. apply in_concat in Hin. exact Hin. }
  assert (HM32 : M + 1 <= 2 ^ 31).
  { destruct HM as [r [Hr HMr]].
    unfold codes_int32 in H32. rewrite Forall_forall in H32.
    specialize (H32 r Hr). rewrite Forall_forall in H32.
    specialize (H32 M HMr). lia. }
  split.
  - intros Hnn. unfold codes_nonneg in Hnn. rewrite Forall_forall in Hnn.
    assert (HM0 : 0 <= M).
    { destruct HM as [r [Hr HMr]]. specialize (Hnn r Hr).
      rewrite Forall_forall in Hnn. now apply Hnn. }
    destruct (Z.ltb_spec (M + 1) 0) as [C|_]; [lia|].
    rewrite valid_codes_in_range; [eexists; reflexivity | assumption..|].
    apply Forall_forall. intros r Hr. apply Forall_forall. intros c Hcr.
    specialize (Hnn r Hr). rewrite Forall_forall in Hnn.
    specialize (Hnn c Hcr). specialize (Hcodes r c Hr Hcr). lia.
  - intros Hneg. destruct (Z.ltb_spec (M + 1) 0) as [_|HK]; [reflexivity|].
    destruct (valid_codes (n_cols data) (M + 1) (rows data)) eqn:Hv;
      [|reflexivity].
    exfalso. apply Hneg.
    pose proof (valid_codes_range (M + 1) data Hs H32 (conj HK HM32) Hv)
      as Hr.
    unfold codes_in_range in Hr. unfold codes_nonneg.
    eapply Forall_impl; [|exact Hr]. intros r Hrr.
    eapply Forall_impl; [|exact Hrr]. intros c Hcr. cbv beta in Hcr. lia.
Qed.

Lemma categorical_mutual_info_inferred_categories_witness :
  (codes_nonneg three_samples ->
   exists mi,
     _categorical_mutual_info three_samples (1 / 100)%R None None = Ok mi)
  /\ (~ codes_nonneg three_samples ->
      _categorical_mutual_info three_samples (1 / 100)%R None None
      = Raise RuntimeError).
Proof.
  apply (categorical_mutual_info_inferred_categories
           three_samples (1 / 100)%R None).
  - repeat constructor.
  - repeat constructor; lia.
  - exact I.
  - discriminate.
Defined.

End CategoricalBehaviour.


(* ================================================================== *)
(** ** Further properties of the "gaussian" branch *)
(* ================================================================== *)

Module GaussianMoreFacts.
Import Py Tensors BasicFacts XReal XRealFacts Gaussian GaussianFacts.
Local Open Scope R_scope.








(** *** Constant columns *)

(** Every sample has the same value in column [i]. *)
Definition constant_column (data : matrix Q) (i : nat) : Prop :=
  exists c, Forall (fun a => a = c) (floats (column 0%Q data i)).

Lemma rsum_constant (c : R) (x : list R) :
  Forall (fun a => a = c) x -> rsum x = INR (length x) * c.
Proof.
  induction 1 as [|a x Ha _ IH].
  - simpl. ring.
  - change (rsum (a :: x)) with (a + rsum x).
    rewrite IH, Ha. change (length (c :: x)) with (S (length x)).
    rewrite S_INR. ring.
Qed.

Lemma constant_is_mean (c : R) (x : list R) (a : R) :
  Forall (fun a => a = c) x -> In a x -> a = mean x.
Proof.
  intros Hc Ha. unfold mean. rewrite (rsum_constant c x Hc).
  rewrite Forall_forall in Hc. rewrite (Hc a Ha).
  assert (Hlen : 0 < INR (length x)).
  { apply lt_0_INR. destruct x; [destruct Ha | simpl; lia]. }
  field. lra.
Qed.

Lemma codeviation_constant (c : R) (x y : list R) :
  Forall (fun a => a = c) x -> codeviation x y = 0.
Proof.
  intros Hc. unfold codeviation. apply CategoricalFacts.rsum_zero.
  intros [a b] Hin.
  apply in_combine_l in Hin. simpl.
  rewrite <- (constant_is_mean c x a Hc Hin). ring.
Qed.

Lemma cov_constant (data : matrix Q) (i j : nat) :
  constant_column data i ->
  cov data i j = NaN
  \/ (cov data i j = Fin 0 /\ INR (n_rows data - 1) <> 0).
Proof.
  intros [c Hc]. unfold cov. rewrite (codeviation_constant c _ _ Hc).
  destruct (Req_dec_T (INR (n_rows data - 1)) 0) as [E|E].
  - left. rewrite E. apply xdiv_zero_zero.
  - right. split; [|assumption]. rewrite xdiv_fin by assumption.
    f_equal. unfold Rdiv. ring.
Qed.

Lemma corrcoef_constant (data : matrix Q) (i j : nat) :
  constant_column data i -> corrcoef data i j = NaN.
Proof.
  intros Hc. unfold corrcoef.
  destruct (cov_constant data i j Hc) as [H | [H _]]; rewrite H.
  - reflexivity.
  - destruct (cov_constant data i i Hc) as [H' | [H' _]]; rewrite H'.
    + reflexivity.
    + simpl xsqrt. destruct (Rlt_dec 0 0) as [C|_]; [lra|].
      rewrite sqrt_0, xdiv_zero_zero. reflexivity.
Qed.

End GaussianMoreFacts.


Section GaussianBehaviour.
Import Py Tensors BasicFacts XReal XRealFacts Gaussian GaussianFacts
  GaussianMoreFacts.
Local Open Scope R_scope.




Definition constant_first_column : matrix Q :=
  Matrix 2 [[5%Q; 0%Q]; [5%Q; 1%Q]; [5%Q; 3%Q]].

(** With one sample, every column holds one value. *)
Lemma single_sample_constant (data : matrix Q) (i : nat) :
  n_rows data = 1%nat -> constant_column data i.
Proof.
  intros Hn. unfold constant_column, floats, column. unfold n_rows in Hn.
  destruct (rows data) as [|r [|r' l]]; try discriminate.
  eexists. repeat constructor.
Qed.

(** X14. Data with a single sample, over two features at least: every
    entry of the matrix of the "gaussian" branch is NaN, the covariances
    being zero divided by zero degrees of freedom. *)
Theorem gaussian_mutual_info_single_sample :
  forall (data : matrix Q) (i j : nat),
    (2 <= n_cols data)%nat ->
    n_rows data = 1%nat ->
    (i < n_cols data)%nat -> (j < n_cols data)%nat ->
    entry (gaussian_mutual_info data) i j = NaN.
Proof.
  intros data i j _ Hn Hi Hj.
  rewrite gaussian_mutual_info_entry by assumption.
  rewrite (corrcoef_constant data i j (single_sample_constant data i Hn)).
  reflexivity.
Qed.

Definition single_sample : matrix Q := Matrix 2 [[5%Q; 0%Q]].

Lemma gaussian_mutual_info_single_sample_witness :
  entry (gaussian_mutual_info single_sample) 0 1 = NaN.
Proof.
  apply gaussian_mutual_info_single_sample.
  - simpl. lia.
  - reflexivity.
  - simpl. lia.
  - simpl. lia.
Defined.

(** X15. Whatever the data over two features at least, no entry of the
    diagonal of the matrix of the "gaussian" branch is zero. *)
Theorem gaussian_mutual_info_diagonal_never_zero :
  forall (data : matrix Q) (i : nat),
    (2 <= n_cols data)%nat ->
    (i < n_cols data)%nat ->
    entry (gaussian_mutual_info data) i i <> Fin 0.
Proof.
  intros data i _ Hi.
  destruct (gaussian_mutual_info_diagonal data i Hi) as [H|H]; rewrite H;
    discriminate.
Qed.

Lemma gaussian_mutual_info_diagonal_never_zero_witness :
  entry (gaussian_mutual_info constant_first_column) 1 1 <> Fin 0.
Proof.
  apply gaussian_mutual_info_diagonal_never_zero; simpl; lia.
Defined.

End GaussianBehaviour.


(* ================================================================== *)
(** ** Further properties of the heterogeneous estimator *)
(* ================================================================== *)

Module HeterogeneousMoreFacts.
Import Py Tensors BasicFacts XReal XRealFacts Gaussian GaussianFacts
  GaussianMoreFacts Heterogeneous HeterogeneousFacts.
Local Open Scope nat_scope.

(** *** Square matrices and their entries *)

(** An [F] by [F] matrix. *)
Definition shaped (F : nat) (m : list (list xreal)) : Prop :=
  length m = F /\ Forall (fun r => length r = F) m.

Lemma shaped_row (F : nat) (m : list (list xreal)) (i : nat) :
  shaped F m -> i < F -> length (nth i m []) = F.
Proof.
  intros [Hlen Hrows] Hi. rewrite Forall_forall in Hrows.
  apply Hrows, nth_In. lia.
Qed.

Lemma zeros_shaped (F : nat) : shaped F (zeros F).
Proof.
  unfold zeros. split; [apply repeat_length|].
  apply Forall_forall. intros r Hr. apply repeat_spec in Hr. subst r.
  apply repeat_length.
Qed.

Lemma entry_zeros (F i j : nat) :
  i < F -> j < F -> entry (zeros F) i j = Fin 0%R.
Proof.
  intros Hi Hj. unfold entry, zeros.
  rewrite (repeat_map_seq _ (repeat (Fin 0%R) F) F 0).
  rewrite (nth_map_seq _ _ [] F i Hi).
  rewrite (repeat_map_seq _ (Fin 0%R) F 0).
  now rewrite nth_map_seq.
Qed.

Lemma assign_block_shaped (F : nat) (m : list (list xreal)) (idx : list nat)
    (block : list (list xreal)) :
  shaped F (assign_block F m idx block).
Proof.
  unfold assign_block. split; [now rewrite length_map, length_seq|].
  apply Forall_forall. intros r Hr. apply in_map_iff in Hr.
  destruct Hr as [i [<- _]]. now rewrite length_map, length_seq.
Qed.

Lemma entry_assign_block (F : nat) (m : list (list xreal)) (idx : list nat)
    (block : list (list xreal)) (i j : nat) :
  i < F -> j < F ->
  entry (assign_block F m idx block) i j
  = match index_of i idx, index_of j idx with
    | Some p, Some q => entry block p q
    | _, _ => entry m i j
    end.
Proof.
  intros Hi Hj. unfold entry at 1, assign_block.
  rewrite (nth_map_seq _ _ [] F i Hi). now rewrite nth_map_seq.
Qed.

Lemma Forall_update (A : Type) (P : A -> Prop) (k : nat) (v : A)
    (l : list A) :
  Forall P l -> (k < length l -> P v) -> Forall P (update k v l).
Proof.
  revert k. induction l as [|x l IH]; intros k Hl Hv; simpl.
  - destruct k; constructor.
  - inversion Hl as [|x' l' Hx Hl']; subst. destruct k as [|k].
    + constructor; [apply Hv; simpl; lia | assumption].
    + constructor; [assumption|]. apply IH; [assumption|].
      intros Hk. apply Hv. simpl. lia.
Qed.

Lemma set_entry_shaped (F : nat) (m : list (list xreal)) (i j : nat)
    (v : xreal) :
  shaped F m -> shaped F (set_entry m i j v).
Proof.
  intros Hm. pose proof Hm as [Hlen Hrows]. unfold set_entry. split.
  - now rewrite TraversalFacts.update_length.
  - apply Forall_update; [assumption|]. intros Hi.
    rewrite TraversalFacts.update_length. apply (shaped_row F m i Hm). lia.
Qed.

Lemma entry_set_entry (F : nat) (m : list (list xreal)) (i j : nat)
    (v : xreal) (i' j' : nat) :
  shaped F m -> i < F -> j < F ->
  entry (set_entry m i j v) i' j'
  = if Nat.eqb i' i && Nat.eqb j' j then v else entry m i' j'.
Proof.
  intros Hm Hi Hj. pose proof Hm as [Hlen _]. unfold entry, set_entry.
  rewrite TraversalFacts.nth_update.
  destruct (Nat.eqb_spec i' i) as [->|Hne]; simpl; [|reflexivity].
  rewrite (proj2 (Nat.ltb_lt i (length m))) by lia.
  rewrite TraversalFacts.nth_update.
  rewrite (shaped_row F m i Hm Hi).
  rewrite (proj2 (Nat.ltb_lt j F) Hj). now rewrite andb_true_r.
Qed.

(** The two writes of one step of the inner loop. *)
Lemma entry_written (F : nat) (m : list (list xreal)) (c d : nat)
    (v : xreal) (i j : nat) :
  shaped F m -> c < F -> d < F ->
  entry (set_entry (set_entry m c d v) d c
                   (entry (set_entry m c d v) c d)) i j
  = if (Nat.eqb i c && Nat.eqb j d) || (Nat.eqb i d && Nat.eqb j c)
    then v else entry m i j.
Proof.
  intros Hm Hc Hd.
  rewrite (entry_set_entry F) by (try apply set_entry_shaped; assumption).
  rewrite !(entry_set_entry F m c d v) by assumption.
  rewrite !Nat.eqb_refl. simpl.
  destruct (Nat.eqb i d && Nat.eqb j c), (Nat.eqb i c && Nat.eqb j d);
    reflexivity.
Qed.

(** *** Positions in an index list *)

Lemma index_of_Some (i : nat) (idx : list nat) (p : nat) :
  index_of i idx = Some p -> p < length idx /\ nth p idx 0 = i.
Proof.
  revert p. induction idx as [|k idx IH]; intros p H; simpl in H;
    [discriminate|].
  destruct (Nat.eqb_spec k i) as [->|Hne].
  - inversion H; subst. simpl. split; [lia | reflexivity].
  - destruct (index_of i idx) as [q|]; [|discriminate].
    inversion H; subst. destruct (IH q eq_refl) as [Hq Hn].
    simpl. split; [lia | assumption].
Qed.

Lemma index_of_In (i : nat) (idx : list nat) :
  In i idx -> exists p, index_of i idx = Some p.
Proof.
  induction idx as [|k idx IH]; intros H; [destruct H|]. simpl.
  destruct (Nat.eqb_spec k i) as [->|Hne]; [now exists 0|].
  destruct H as [H|H]; [contradiction|].
  destruct (IH H) as [p Hp]. rewrite Hp. now exists (S p).
Qed.

Lemma index_of_None (i : nat) (idx : list nat) :
  ~ In i idx -> index_of i idx = None.
Proof.
  intros H. destruct (index_of i idx) as [p|] eqn:E; [|reflexivity].
  exfalso. apply H. destruct (index_of_Some i idx p E) as [Hp <-].
  now apply nth_In.
Qed.

Lemma index_of_nth (p : nat) (idx : list nat) :
  NoDup idx -> p < length idx -> index_of (nth p idx 0) idx = Some p.
Proof.
  revert p. induction idx as [|k idx IH]; intros p Hnd Hp; simpl in Hp;
    [lia|].
  inversion Hnd as [|k' idx' Hk Hnd']; subst. destruct p as [|p]; simpl.
  - now rewrite Nat.eqb_refl.
  - destruct (Nat.eqb_spec k (nth p idx 0)) as [E|_].
    + exfalso. apply Hk. rewrite E. apply nth_In. lia.
    + rewrite IH by (assumption || lia). reflexivity.
Qed.

Lemma in_where (i : nat) (mask : list bool) :
  In i (where_ mask) <-> i < length mask /\ nth i mask false = true.
Proof.
  unfold where_. rewrite filter_In, in_seq. intuition lia.
Qed.

Lemma where_NoDup (mask : list bool) : NoDup (where_ mask).
Proof. unfold where_. apply NoDup_filter, seq_NoDup. Qed.

Lemma nth_map_negb (i : nat) (mask : list bool) :
  i < length mask ->
  nth i (map negb mask) false = negb (nth i mask false).
Proof.
  intros Hi. rewrite (nth_indep _ false (negb true))
    by now rewrite length_map.
  rewrite map_nth. f_equal. now apply nth_indep.
Qed.

Lemma in_where_negb (i : nat) (mask : list bool) :
  In i (where_ (map negb mask))
  <-> i < length mask /\ nth i mask false = false.
Proof.
  rewrite in_where, length_map. split.
  - intros [Hi H]. split; [assumption|].
    rewrite nth_map_negb in H by assumption. now apply negb_true_iff.
  - intros [Hi H]. split; [assumption|].
    rewrite nth_map_negb by assumption. now rewrite H.
Qed.

(** No column is both continuous and discrete. *)
Lemma where_disjoint (mask : list bool) (i : nat) :
  In i (where_ (map negb mask)) -> ~ In i (where_ mask).
Proof.
  rewrite in_where_negb, in_where. intros [_ H] [_ H']. congruence.
Qed.

(** [i] is one of [l]. *)
Definition mem (i : nat) (l : list nat) : bool := existsb (Nat.eqb i) l.

Lemma mem_In (i : nat) (l : list nat) : mem i l = true <-> In i l.
Proof.
  unfold mem. rewrite existsb_exists. split.
  - intros [x [Hx E]]. apply Nat.eqb_eq in E. now subst.
  - intros H. exists i. split; [assumption | apply Nat.eqb_refl].
Qed.

Lemma mem_not_In (i : nat) (l : list nat) : mem i l = false <-> ~ In i l.
Proof.
  rewrite <- mem_In. destruct (mem i l); split; congruence.
Qed.

(** *** The loops over the pairs of a continuous and a discrete column *)

Section CrossLoops.

Variable data : matrix Q.
Variable num_categories : list (nat * Z).
Variable p_D : list (nat * list xreal).
Variable F : nat.

(** [gaussian_entropy(data[:, c_index])] *)
Definition entropy_of (c : nat) : xreal :=
  gaussian_entropy (floats (column 0%Q data c)).

(** The value that one step of the inner loop writes. *)
Definition cross_result (c d : nat) : result xreal :=
  bind (conditional_entropies data c d (lookup 0%Z d num_categories))
  (fun h_C_given_D =>
  bind (tensor_mul h_C_given_D (lookup [] d p_D))
  (fun weighted => Ok (xsub (entropy_of c) (xsum weighted)))).

Definition cross_entry (c d : nat) : xreal :=
  match cross_result c d with
  | Ok v => v
  | Raise _ => NaN
  end.

Lemma cross_step_result (c : nat) (m : list (list xreal)) (d : nat) :
  cross_step data num_categories p_D c (entropy_of c) m d
  = bind (cross_result c d)
      (fun v => Ok (set_entry (set_entry m c d v) d c
                              (entry (set_entry m c d v) c d))).
Proof.
  unfold cross_step, cross_result.
  destruct (conditional_entropies _ _ _ _) as [h|e]; simpl; [|reflexivity].
  destruct (tensor_mul _ _) as [w|e]; reflexivity.
Qed.

Definition inner_loop (c : nat) (m : list (list xreal)) (ds : list nat)
  : result (list (list xreal)) :=
  foldM (cross_step data num_categories p_D c (entropy_of c)) m ds.

Definition outer_loop (m : list (list xreal)) (cs ds : list nat)
  : result (list (list xreal)) :=
  foldM (fun m c => inner_loop c m ds) m cs.

Lemma mem_cons (i k : nat) (l : list nat) :
  mem i (k :: l) = Nat.eqb i k || mem i l.
Proof. reflexivity. Qed.

Lemma inner_loop_entries (c : nat) (ds : list nat) :
  forall m m',
    shaped F m -> c < F -> (forall d, In d ds -> d < F) ->
    inner_loop c m ds = Ok m' ->
    shaped F m'
    /\ (forall d, In d ds -> exists v, cross_result c d = Ok v)
    /\ forall i j,
         entry m' i j
         = if Nat.eqb i c && mem j ds then cross_entry c j
           else if Nat.eqb j c && mem i ds then cross_entry c i
           else entry m i j.
Proof.
  induction ds as [|d ds IH]; intros m m' Hm Hc Hds H.
  - inversion H; subst. split; [assumption|]. split; [intros d []|].
    intros i j. unfold mem. simpl. now rewrite !andb_false_r.
  - unfold inner_loop in H. simpl in H. rewrite cross_step_result in H.
    destruct (cross_result c d) as [v|e] eqn:Hv; simpl in H; [|discriminate].
    assert (Hd : d < F) by (apply Hds; now left).
    destruct (IH _ m' (set_entry_shaped F _ d c _
                         (set_entry_shaped F m c d v Hm))
                 Hc (fun x Hx => Hds x (or_intror Hx)) H)
      as (Hm' & Hres & Hent).
    split; [assumption|]. split.
    + intros x [<-|Hx]; [now exists v | now apply Hres].
    + intros i j. rewrite Hent, (entry_written F) by assumption.
      rewrite !mem_cons.
      assert (Hcd : cross_entry c d = v) by (unfold cross_entry; now rewrite Hv).
      destruct (Nat.eqb_spec i c), (Nat.eqb_spec j c),
               (Nat.eqb_spec j d), (Nat.eqb_spec i d);
        subst; simpl; rewrite ?Nat.eqb_refl; simpl;
        try (destruct (mem c ds)); try (destruct (mem d ds));
        try (destruct (mem i ds)); try (destruct (mem j ds));
        simpl; congruence.
Qed.

Lemma outer_loop_entries (ds cs : list nat) :
  forall m m',
    shaped F m ->
    (forall c, In c cs -> c < F) -> (forall d, In d ds -> d < F) ->
    (forall c, In c cs -> ~ In c ds) ->
    outer_loop m cs ds = Ok m' ->
    shaped F m'
    /\ (forall c d, In c cs -> In d ds -> exists v, cross_result c d = Ok v)
    /\ forall i j,
         entry m' i j
         = if mem i cs && mem j ds then cross_entry i j
           else if mem j cs && mem i ds then cross_entry j i
           else entry m i j.
Proof.
  induction cs as [|c cs IH]; intros m m' Hm Hcs Hds Hdisj H.
  - inversion H; subst. split; [assumption|]. split; [intros c d []|].
    intros i j. reflexivity.
  - unfold outer_loop in H. simpl in H.
    destruct (inner_loop c m ds) as [m1|e] eqn:Hin; simpl in H; [|discriminate].
    destruct (inner_loop_entries c ds m m1 Hm (Hcs c (or_introl eq_refl))
                Hds Hin) as (Hm1 & Hres1 & Hent1).
    destruct (IH m1 m' Hm1 (fun x Hx => Hcs x (or_intror Hx)) Hds
                 (fun x Hx => Hdisj x (or_intror Hx)) H)
      as (Hm' & Hres & Hent).
    split; [assumption|]. split.
    + intros x d [<-|Hx] Hd; [now apply Hres1 | now apply Hres].
    + intros i j. rewrite Hent, Hent1, !mem_cons.
      assert (Hc : mem c ds = false)
        by (apply mem_not_In, Hdisj; now left).
      assert (Hboth : forall x, mem x cs = true -> mem x ds = false).
      { intros x Hx. apply mem_not_In, Hdisj. right. now apply mem_In. }
      destruct (Nat.eqb_spec i c), (Nat.eqb_spec j c); subst; simpl;
        rewrite ?Hc; simpl;
        try (destruct (mem i cs) eqn:Hics; [rewrite (Hboth _ Hics)|]);
        try (destruct (mem j cs) eqn:Hjcs; [rewrite (Hboth _ Hjcs)|]);
        simpl; rewrite ?andb_false_r; simpl;
        try (destruct (mem i ds)); try (destruct (mem j ds));
        try (destruct (mem c cs)); reflexivity.
Qed.

End CrossLoops.

(** *** The stages of the estimator *)

(** The block of the continuous columns, its diagonal put to zero before
    the formula is applied. *)
Definition continuous_block (data : matrix Q) (cont : list nat)
  : list (list xreal) :=
  map (fun p =>
         map (fun q =>
                gaussian_mi (if Nat.eqb p q then Fin 0%R
                             else corrcoef (select_columns data cont) p q))
             (seq 0 (length cont)))
      (seq 0 (length cont)).

Definition continuous_stage (data : matrix Q) (mask : list bool)
  : list (list xreal) :=
  let cont := where_ (map negb mask) in
  if Nat.ltb 1 (length cont)
  then assign_block (n_cols data) (zeros (n_cols data)) cont
         (continuous_block data cont)
  else zeros (n_cols data).

(** The categorical estimator on the discrete columns. *)
Definition discrete_block (data : matrix Q) (mask : list bool)
  : result (list (list xreal)) :=
  Categorical._categorical_mutual_info
    (map_matrix long (select_columns data (where_ mask)))
    default_alpha None None.

Definition discrete_stage (data : matrix Q) (mask : list bool)
    (m0 : list (list xreal)) : result (list (list xreal)) :=
  if Nat.ltb 1 (length (where_ mask))
  then bind (discrete_block data mask)
         (fun block => Ok (assign_block (n_cols data) m0 (where_ mask) block))
  else Ok m0.

(** The dictionary [num_categories] of the estimator. *)
Definition category_counts (data : matrix Q) (disc : list nat)
  : result (list (nat * Z)) :=
  mapM (fun d_index =>
          bind (column_categories data d_index) (fun K => Ok (d_index, K)))
       disc.

(** The dictionary [p_D] of the estimator. *)
Definition frequencies (data : matrix Q) (disc : list nat)
    (num_categories : list (nat * Z)) : result (list (nat * list xreal)) :=
  mapM (fun d_index =>
          bind (category_frequencies data d_index
                  (lookup 0%Z d_index num_categories))
               (fun p => Ok (d_index, p)))
       disc.

Lemma heterogeneous_stages (data : matrix Q) (mask : list bool) :
  _heterogeneous_mutual_info data mask
  = if Nat.ltb (n_cols data) (length mask) then Raise IndexError
    else
      bind (discrete_stage data mask (continuous_stage data mask))
      (fun m1 =>
      bind (category_counts data (where_ mask))
      (fun ncs =>
      bind (frequencies data (where_ mask) ncs)
      (fun pD =>
      bind (outer_loop data ncs pD m1 (where_ (map negb mask)) (where_ mask))
      (fun m2 => Ok (fill_diagonal_zero (n_cols data) m2))))).
Proof. reflexivity. Qed.

Lemma continuous_stage_shaped (data : matrix Q) (mask : list bool) :
  shaped (n_cols data) (continuous_stage data mask).
Proof.
  unfold continuous_stage. destruct (Nat.ltb 1 _).
  - apply assign_block_shaped.
  - apply zeros_shaped.
Qed.

Lemma discrete_stage_shaped (data : matrix Q) (mask : list bool)
    (m0 m1 : list (list xreal)) :
  shaped (n_cols data) m0 -> discrete_stage data mask m0 = Ok m1 ->
  shaped (n_cols data) m1.
Proof.
  intros Hm0 H. unfold discrete_stage in H. destruct (Nat.ltb 1 _).
  - apply bind_ok in H. destruct H as [block [_ H]]. inversion H; subst.
    apply assign_block_shaped.
  - now inversion H; subst.
Qed.

(** What a matrix returned by the estimator is made of. *)
Lemma heterogeneous_returned (data : matrix Q) (mask : list bool)
    (mi : list (list xreal)) :
  _heterogeneous_mutual_info data mask = Ok mi ->
  exists m1 ncs pD,
    length mask <= n_cols data
    /\ discrete_stage data mask (continuous_stage data mask) = Ok m1
    /\ category_counts data (where_ mask) = Ok ncs
    /\ frequencies data (where_ mask) ncs = Ok pD
    /\ (forall c d, In c (where_ (map negb mask)) -> In d (where_ mask) ->
          exists v, cross_result data ncs pD c d = Ok v)
    /\ forall i j, i < n_cols data -> j < n_cols data ->
         entry mi i j
         = if Nat.eqb i j then Fin 0%R
           else if mem i (where_ (map negb mask)) && mem j (where_ mask)
                then cross_entry data ncs pD i j
           else if mem j (where_ (map negb mask)) && mem i (where_ mask)
                then cross_entry data ncs pD j i
           else entry m1 i j.
Proof.
  intros H. rewrite heterogeneous_stages in H.
  destruct (Nat.ltb_spec (n_cols data) (length mask)) as [C|Hlen];
    [discriminate|].
  apply bind_ok in H. destruct H as [m1 [H1 H]].
  apply bind_ok in H. destruct H as [ncs [Hncs H]].
  apply bind_ok in H. destruct H as [pD [HpD H]].
  apply bind_ok in H. destruct H as [m2 [H2 H]].
  inversion H; subst mi. clear H.
  exists m1, ncs, pD.
  pose proof (discrete_stage_shaped data mask _ m1
                (continuous_stage_shaped data mask) H1) as Hm1.
  destruct (outer_loop_entries data ncs pD (n_cols data)
              (where_ mask) (where_ (map negb mask)) m1 m2 Hm1)
    as (_ & Hres & Hent); try assumption.
  - intros c Hc. apply in_where_negb in Hc. lia.
  - intros d Hd. apply in_where in Hd. lia.
  - intros c. apply where_disjoint.
  - repeat (split; [assumption|]).
    intros i j Hi Hj. rewrite fill_diagonal_zero_entry by assumption.
    now rewrite Hent.
Qed.

(** *** The two blocks *)

Lemma entry_continuous_block (data : matrix Q) (cont : list nat) (p q : nat) :
  p < length cont -> q < length cont ->
  entry (continuous_block data cont) p q
  = gaussian_mi (if Nat.eqb p q then Fin 0%R
                 else corrcoef (select_columns data cont) p q).
Proof.
  intros Hp Hq. unfold entry, continuous_block.
  rewrite (nth_map_seq _ _ [] _ p Hp). now rewrite nth_map_seq.
Qed.

(** The diagonal of the block of the discrete columns is zero. *)
Lemma discrete_block_diagonal (data : matrix Q) (mask : list bool)
    (block : list (list xreal)) (p : nat) :
  discrete_block data mask = Ok block ->
  p < length (where_ mask) ->
  entry block p p = Fin 0%R.
Proof.
  intros H Hp. unfold discrete_block in H.
  destruct (CategoricalMoreFacts.categorical_mutual_info_returned
              (map_matrix long (select_columns data (where_ mask)))
              default_alpha None None block I H)
    as (K & _ & _ & _ & ->).
  now apply CategoricalFacts.mutual_info_diagonal.
Qed.

(** *** Entries off the two blocks *)

Lemma continuous_stage_outside (data : matrix Q) (mask : list bool)
    (i j : nat) :
  i < n_cols data -> j < n_cols data ->
  ~ In i (where_ (map negb mask)) \/ ~ In j (where_ (map negb mask)) ->
  entry (continuous_stage data mask) i j = Fin 0%R.
Proof.
  intros Hi Hj Hout. unfold continuous_stage.
  destruct (Nat.ltb 1 _); [|now apply entry_zeros].
  rewrite entry_assign_block by assumption.
  destruct Hout as [H|H]; rewrite (index_of_None _ _ H).
  - now apply entry_zeros.
  - destruct (index_of i _); now apply entry_zeros.
Qed.

Lemma discrete_stage_outside (data : matrix Q) (mask : list bool)
    (m0 m1 : list (list xreal)) (i j : nat) :
  discrete_stage data mask m0 = Ok m1 ->
  i < n_cols data -> j < n_cols data ->
  ~ In i (where_ mask) \/ ~ In j (where_ mask) ->
  entry m1 i j = entry m0 i j.
Proof.
  intros H Hi Hj Hout. unfold discrete_stage in H.
  destruct (Nat.ltb 1 _); [|now inversion H].
  apply bind_ok in H. destruct H as [block [_ H]]. inversion H; subst.
  rewrite entry_assign_block by assumption.
  destruct Hout as [Ho|Ho]; rewrite (index_of_None _ _ Ho).
  - reflexivity.
  - now destruct (index_of i _).
Qed.

(** *** The columns of a selection *)

Lemma column_select (data : matrix Q) (idx : list nat) (p : nat) :
  p < length idx ->
  column 0%Q (select_columns data idx) p = column 0%Q data (nth p idx 0).
Proof.
  intros Hp. unfold column, select_columns. simpl. rewrite map_map.
  apply map_ext. intros r.
  rewrite (nth_indep _ 0%Q (nth 0 r 0%Q)) by now rewrite length_map.
  now rewrite (map_nth (fun i => nth i r 0%Q)).
Qed.

Lemma cov_select (data : matrix Q) (idx : list nat) (p q : nat) :
  p < length idx -> q < length idx ->
  cov (select_columns data idx) p q = cov data (nth p idx 0) (nth q idx 0).
Proof.
  intros Hp Hq. unfold cov. rewrite !column_select by assumption.
  unfold n_rows, select_columns. simpl. now rewrite length_map.
Qed.

Lemma corrcoef_select (data : matrix Q) (idx : list nat) (p q : nat) :
  p < length idx -> q < length idx ->
  corrcoef (select_columns data idx) p q
  = corrcoef data (nth p idx 0) (nth q idx 0).
Proof.
  intros Hp Hq. unfold corrcoef. now rewrite !cov_select.
Qed.

Lemma two_of_NoDup (l : list nat) (i j : nat) :
  In i l -> In j l -> i <> j -> 1 < length l.
Proof.
  intros Hi Hj Hne.
  destruct l as [|x [|y l]]; simpl in *; [tauto | | lia].
  destruct Hi as [<-|[]], Hj as [<-|[]]. congruence.
Qed.

(** *** No discrete column *)



End HeterogeneousMoreFacts.


Section HeterogeneousBehaviour.
Import Py Tensors BasicFacts XReal XRealFacts Gaussian GaussianFacts
  GaussianMoreFacts Heterogeneous HeterogeneousFacts HeterogeneousMoreFacts.
Local Open Scope nat_scope.

(** Three samples of a continuous column, of a discrete column whose two
    categories both occur, and of a third column that a mask of length two
    does not reach. *)
Definition mixed_samples : matrix Q :=
  Matrix 3 [[1%Q; 0%Q; 7%Q]; [2%Q; 1%Q; 8%Q]; [4%Q; 1%Q; 9%Q]].

Definition mixed_samples_mi : list (list xreal) :=
  fill_diagonal_zero 3
    (set_entry
       (set_entry (zeros 3) 0 1 (cross_value mixed_samples 0 1 2 [1; 2]%Z))
       1 0
       (entry (set_entry (zeros 3) 0 1
                         (cross_value mixed_samples 0 1 2 [1; 2]%Z))
              0 1)).

Lemma mixed_samples_returns :
  _heterogeneous_mutual_info mixed_samples [false; true]
  = Ok mixed_samples_mi.
Proof.
  apply (heterogeneous_one_continuous_one_discrete
           mixed_samples [false; true] 0 1 2 [1; 2]%Z);
    try reflexivity; simpl; lia.
Qed.

(** Two continuous columns. *)
Definition two_continuous_mi : list (list xreal) :=
  fill_diagonal_zero 2 (continuous_stage three_gaussian_samples [false; false]).

Lemma two_continuous_returns :
  _heterogeneous_mutual_info three_gaussian_samples [false; false]
  = Ok two_continuous_mi.
Proof. reflexivity. Qed.

(** Two discrete columns. *)
Definition two_discrete : matrix Q :=
  Matrix 2 [[0%Q; 1%Q]; [1%Q; 1%Q]; [0%Q; 0%Q]].

Lemma two_discrete_returns :
  exists mi, _heterogeneous_mutual_info two_discrete [true; true] = Ok mi.
Proof.
  rewrite heterogeneous_stages.
  change (Nat.ltb (n_cols two_discrete) (length [true; true])) with false.
  cbv iota. unfold discrete_stage, discrete_block.
  change (where_ [true; true]) with [0; 1].
  change (Nat.ltb 1 (length [0; 1])) with true. cbv iota.
  rewrite (CategoricalFacts.categorical_mutual_info_closed
             _ default_alpha None None I).
  replace (CategoricalFacts.num_categories_of
             (map_matrix long (select_columns two_discrete [0; 1])) None)
    with (@Ok Z 2%Z) by (vm_compute; reflexivity).
  cbn [bind]. change (2 <? 0)%Z with false. cbv iota.
  replace (CategoricalFacts.valid_codes
             (n_cols (map_matrix long (select_columns two_discrete [0; 1])))
             2 (rows (map_matrix long (select_columns two_discrete [0; 1]))))
    with true by (vm_compute; reflexivity).
  cbn [bind].
  replace (category_counts two_discrete [0; 1])
    with (@Ok (list (nat * Z)) [(0, 2%Z); (1, 2%Z)])
    by (vm_compute; reflexivity).
  cbn [bind]. unfold frequencies, category_frequencies.
  cbn [mapM lookup Nat.eqb].
  replace (bincount (map long (column 0%Q two_discrete 0)) 2)
    with (@Ok (list Z) [2; 1]%Z) by (vm_compute; reflexivity).
  replace (bincount (map long (column 0%Q two_discrete 1)) 2)
    with (@Ok (list Z) [1; 2]%Z) by (vm_compute; reflexivity).
  cbn [bind mapM]. eexists. reflexivity.
Qed.

(** X16. Whatever matrix the heterogeneous estimator returns has an
    exactly zero diagonal, and the entry of a discrete column [d] with a
    continuous column [c] is the entry of [c] with [d]: the loop computes
    the second and copies it to the first. *)
Theorem heterogeneous_mutual_info_zero_diagonal :
  forall (data : matrix Q) (mask : list bool) (mi : list (list xreal)),
    _heterogeneous_mutual_info data mask = Ok mi ->
    (forall i, i < n_cols data -> entry mi i i = Fin 0%R)
    /\ (forall c d,
          c < length mask -> nth c mask false = false ->
          d < length mask -> nth d mask false = true ->
          entry mi d c = entry mi c d).
Proof.
  intros data mask mi H.
  destruct (heterogeneous_returned data mask mi H)
    as (m1 & ncs & pD & Hlen & _ & _ & _ & _ & Hent).
  split.
  - intros i Hi. rewrite Hent by assumption. now rewrite Nat.eqb_refl.
  - intros c d Hc Mc Hd Md.
    assert (Cc : In c (where_ (map negb mask))) by now apply in_where_negb.
    assert (Dd : In d (where_ mask)) by now apply in_where.
    assert (Hne : c <> d) by (intros ->; now apply (where_disjoint mask d)).
    assert (Dc : mem d (where_ (map negb mask)) = false).
    { apply mem_not_In. intros C. now apply (where_disjoint mask d). }
    rewrite !Hent by lia.
    rewrite (proj2 (Nat.eqb_neq c d) Hne).
    rewrite (proj2 (Nat.eqb_neq d c) (not_eq_sym Hne)).
    rewrite (proj2 (mem_In _ _) Cc), (proj2 (mem_In _ _) Dd), Dc.
    reflexivity.
Qed.

Lemma heterogeneous_mutual_info_zero_diagonal_witness :
  (forall i, i < 3 -> entry mixed_samples_mi i i = Fin 0%R)
  /\ (forall c d,
        c < 2 -> nth c [false; true] false = false ->
        d < 2 -> nth d [false; true] false = true ->
        entry mixed_samples_mi d c = entry mixed_samples_mi c d).
Proof.
  exact (heterogeneous_mutual_info_zero_diagonal
           mixed_samples [false; true] mixed_samples_mi
           mixed_samples_returns).
Defined.

(** X17. A column that the mask does not reach is ignored without a word:
    when the mask is shorter than the number of columns and the estimator
    returns, the rows and the columns of the matrix beyond the mask are
    zero. *)
Theorem heterogeneous_mutual_info_short_mask :
  forall (data : matrix Q) (mask : list bool) (mi : list (list xreal)),
    _heterogeneous_mutual_info data mask = Ok mi ->
    forall i j, i < n_cols data -> j < n_cols data -> length mask <= i ->
      entry mi i j = Fin 0%R /\ entry mi j i = Fin 0%R.
Proof.
  intros data mask mi H i j Hi Hj Hout.
  destruct (heterogeneous_returned data mask mi H)
    as (m1 & ncs & pD & Hlen & H1 & _ & _ & _ & Hent).
  assert (Hc : ~ In i (where_ (map negb mask)))
    by (intros C; apply in_where_negb in C; lia).
  assert (Hd : ~ In i (where_ mask))
    by (intros C; apply in_where in C; lia).
  rewrite !Hent by assumption. rewrite (Nat.eqb_sym j i).
  destruct (Nat.eqb i j); [split; reflexivity|].
  rewrite (proj2 (mem_not_In _ _) Hc), (proj2 (mem_not_In _ _) Hd).
  rewrite !andb_false_r. simpl.
  rewrite (discrete_stage_outside data mask _ m1 i j H1) by tauto.
  rewrite (discrete_stage_outside data mask _ m1 j i H1) by tauto.
  rewrite !continuous_stage_outside by tauto.
  split; reflexivity.
Qed.

Lemma heterogeneous_mutual_info_short_mask_witness :
  entry mixed_samples_mi 2 0 = Fin 0%R /\ entry mixed_samples_mi 0 2 = Fin 0%R.
Proof.
  apply (heterogeneous_mutual_info_short_mask
           mixed_samples [false; true] mixed_samples_mi
           mixed_samples_returns 2 0); simpl; lia.
Defined.

(** X18. Two different continuous columns get, in the matrix of the
    heterogeneous estimator, the entry that the "gaussian" branch gives
    them on the whole data: the formula on their correlation. *)
Theorem heterogeneous_mutual_info_continuous_pair :
  forall (data : matrix Q) (mask : list bool) (mi : list (list xreal)),
    _heterogeneous_mutual_info data mask = Ok mi ->
    forall i j, i < length mask -> j < length mask -> i <> j ->
      nth i mask false = false -> nth j mask false = false ->
      entry mi i j = gaussian_mi (corrcoef data i j)
      /\ entry mi i j = entry (gaussian_mutual_info data) i j.
Proof.
  intros data mask mi H i j Hi Hj Hne Mi Mj.
  destruct (heterogeneous_returned data mask mi H)
    as (m1 & ncs & pD & Hlen & H1 & _ & _ & _ & Hent).
  assert (Ci : In i (where_ (map negb mask))) by now apply in_where_negb.
  assert (Cj : In j (where_ (map negb mask))) by now apply in_where_negb.
  pose proof (where_disjoint mask i Ci) as Di.
  pose proof (where_disjoint mask j Cj) as Dj.
  rewrite gaussian_mutual_info_entry by lia.
  assert (E : entry mi i j = gaussian_mi (corrcoef data i j));
    [|split; [exact E | now rewrite E]].
  rewrite Hent by lia.
  rewrite (proj2 (Nat.eqb_neq i j) Hne).
  rewrite (proj2 (mem_not_In _ _) Di), (proj2 (mem_not_In _ _) Dj).
  rewrite !andb_false_r.
  rewrite (discrete_stage_outside data mask _ m1 i j H1) by (tauto || lia).
  unfold continuous_stage.
  rewrite (proj2 (Nat.ltb_lt 1 _) (two_of_NoDup _ i j Ci Cj Hne)).
  rewrite entry_assign_block by lia.
  destruct (index_of_In i _ Ci) as [p Hp], (index_of_In j _ Cj) as [q Hq].
  rewrite Hp, Hq.
  destruct (index_of_Some _ _ _ Hp) as [Hpl Hpn].
  destruct (index_of_Some _ _ _ Hq) as [Hql Hqn].
  rewrite entry_continuous_block by assumption.
  destruct (Nat.eqb_spec p q) as [->|_]; [congruence|].
  rewrite corrcoef_select by assumption. now rewrite Hpn, Hqn.
Qed.

Lemma heterogeneous_mutual_info_continuous_pair_witness :
  entry two_continuous_mi 0 1
  = gaussian_mi (corrcoef three_gaussian_samples 0 1)
  /\ entry two_continuous_mi 0 1
     = entry (gaussian_mutual_info three_gaussian_samples) 0 1.
Proof.
  apply (heterogeneous_mutual_info_continuous_pair
           three_gaussian_samples [false; false] two_continuous_mi
           two_continuous_returns 0 1);
    try reflexivity; simpl; lia.
Defined.

(** X19. With two discrete columns or more, the block of the discrete
    columns in the matrix of the heterogeneous estimator is the matrix of
    the categorical estimator on these columns alone, truncated to
    integers, with the default smoothing, the category count inferred from
    all of them together, and no chunks. *)
Theorem heterogeneous_mutual_info_discrete_block :
  forall (data : matrix Q) (mask : list bool) (mi : list (list xreal)),
    _heterogeneous_mutual_info data mask = Ok mi ->
    1 < length (where_ mask) ->
    exists block,
      Categorical._categorical_mutual_info
        (map_matrix long (select_columns data (where_ mask)))
        default_alpha None None = Ok block
      /\ forall p q, p < length (where_ mask) -> q < length (where_ mask) ->
           entry mi (nth p (where_ mask) 0) (nth q (where_ mask) 0)
           = entry block p q.
Proof.
  intros data mask mi H Htwo.
  destruct (heterogeneous_returned data mask mi H)
    as (m1 & ncs & pD & Hlen & H1 & _ & _ & _ & Hent).
  unfold discrete_stage in H1.
  rewrite (proj2 (Nat.ltb_lt 1 _) Htwo) in H1.
  apply bind_ok in H1. destruct H1 as [block [Hb H1]].
  inversion H1; subst m1. clear H1.
  exists block. split; [exact Hb|]. intros p q Hp Hq.
  set (i := nth p (where_ mask) 0). set (j := nth q (where_ mask) 0).
  assert (Di : In i (where_ mask)) by now apply nth_In.
  assert (Dj : In j (where_ mask)) by now apply nth_In.
  assert (Hi : i < n_cols data) by (apply in_where in Di; lia).
  assert (Hj : j < n_cols data) by (apply in_where in Dj; lia).
  rewrite Hent by assumption.
  destruct (Nat.eqb_spec i j) as [E|Hne].
  - assert (p = q)
      by (apply (proj1 (NoDup_nth _ 0) (where_NoDup mask)); assumption).
    subst q. symmetry.
    now apply (discrete_block_diagonal data mask block p Hb).
  - assert (Ci : mem i (where_ (map negb mask)) = false).
    { apply mem_not_In. intros C. now apply (where_disjoint mask i). }
    assert (Cj : mem j (where_ (map negb mask)) = false).
    { apply mem_not_In. intros C. now apply (where_disjoint mask j). }
    rewrite Ci, Cj. simpl.
    rewrite entry_assign_block by assumption.
    unfold i, j.
    now rewrite !index_of_nth by (assumption || apply where_NoDup).
Qed.

Lemma heterogeneous_mutual_info_discrete_block_witness :
  exists mi,
    _heterogeneous_mutual_info two_discrete [true; true] = Ok mi
    /\ exists block,
         Categorical._categorical_mutual_info
           (map_matrix long (select_columns two_discrete (where_ [true; true])))
           default_alpha None None = Ok block
         /\ forall p q, p < length (where_ [true; true]) ->
                        q < length (where_ [true; true]) ->
              entry mi (nth p (where_ [true; true]) 0)
                       (nth q (where_ [true; true]) 0)
              = entry block p q.
Proof.
  destruct two_discrete_returns as [mi H]. exists mi. split; [exact H|].
  apply (heterogeneous_mutual_info_discrete_block
           two_discrete [true; true] mi H).
  simpl. lia.
Defined.

(** X22. Data without any sample and a mask with at least one discrete
    column: the estimator raises a [RuntimeError], as the greatest code of
    an empty column is asked for. *)
Theorem heterogeneous_mutual_info_no_sample :
  forall (n_features : nat) (mask : list bool) (d : nat),
    length mask <= n_features ->
    d < length mask -> nth d mask false = true ->
    _heterogeneous_mutual_info (Matrix n_features []) mask
    = Raise RuntimeError.
Proof.
  intros F mask d Hlen Hd Md.
  assert (Dd : In d (where_ mask)) by now apply in_where.
  rewrite heterogeneous_stages.
  destruct (Nat.ltb_spec (n_cols (@Matrix Q F [])) (length mask)) as [C|_];
    [simpl in C; lia|].
  unfold discrete_stage, discrete_block.
  destruct (Nat.ltb 1 (length (where_ mask))).
  - rewrite (CategoricalFacts.categorical_mutual_info_closed
               _ default_alpha None None I).
    reflexivity.
  - cbn [bind]. unfold category_counts.
    destruct (where_ mask) as [|d0 ds]; [destruct Dd|].
    reflexivity.
Qed.

Lemma heterogeneous_mutual_info_no_sample_witness :
  _heterogeneous_mutual_info (Matrix 2 []) [false; true] = Raise RuntimeError.
Proof.
  apply (heterogeneous_mutual_info_no_sample 2 [false; true] 1).
  - simpl. lia.
  - simpl. lia.
  - reflexivity.
Defined.



End HeterogeneousBehaviour.


(* ================================================================== *)
(** ** Further properties of the tree builder *)
(* ================================================================== *)

Module TraversalMoreFacts.
Import Py Tensors SpanningTree GraphFacts KruskalFacts TraversalFacts.
Local Open Scope nat_scope.

(** The list of nodes keeps its first node. *)
Lemma bfs_loop_first (g : list edge) (head x : nat) (fuel : nat) :
  forall (queue l : list nat) (predecessors : list Z),
    exists rest,
      fst (bfs_loop fuel g head queue (x :: l) predecessors) = x :: rest.
Proof.
  induction fuel as [|fuel IH]; intros queue l predecessors; simpl.
  - now exists l.
  - destruct queue as [|p queue]; [now exists l|]. apply IH.
Qed.

Section Order.

Variable n : nat.
Variable g : list edge.
Variable head : nat.
Hypothesis g_valid : valid n g.
Hypothesis head_lt : head < n.

(** Every parent is listed before its children. *)
Definition parents_first (nodes : list nat) (predecessors : list Z) : Prop :=
  forall i v p,
    nth_error nodes i = Some v ->
    nth v predecessors NULL_IDX = Z.of_nat p ->
    exists ip, ip < i /\ nth_error nodes ip = Some p.

Lemma visit_parents_first (nodes new : list nat) (predecessors : list Z)
    (p ip c : nat) :
  invariant n g head (nodes ++ new) predecessors ->
  parents_first (nodes ++ new) predecessors ->
  nth_error nodes ip = Some p -> In c (neighbours g p) ->
  let st := visit head p (new, predecessors) c in
  parents_first (nodes ++ fst st) (snd st).
Proof.
  intros Hinv Hord Hp Hnb.
  pose proof (neighbours_lt n g g_valid p c Hnb) as Hc.
  unfold visit. simpl.
  destruct (Nat.eqb_spec c head) as [E|E]; [exact Hord|].
  destruct (Z.eqb_spec (nth c predecessors NULL_IDX) NULL_IDX)
    as [Hnull|Hset]; [|exact Hord].
  simpl.
  assert (Hnew : ~ In c (nodes ++ new)).
  { intros Hin.
    apply (proj2 (inv_listed _ _ _ _ _ Hinv c Hc)); [|assumption].
    now split. }
  assert (Hip : ip < length nodes) by (apply nth_error_Some; congruence).
  intros i v q Hi Hq. rewrite app_assoc in Hi.
  destruct (Nat.lt_ge_cases i (length (nodes ++ new))) as [Hlt|Hge].
  - rewrite nth_error_app1 in Hi by assumption.
    assert (Hvc : v <> c).
    { intros ->. apply Hnew. eapply nth_error_In. exact Hi. }
    rewrite nth_update_other in Hq by assumption.
    destruct (Hord i v q Hi Hq) as [iq [Hiq Hnq]].
    exists iq. split; [assumption|].
    rewrite app_assoc, nth_error_app1 by lia. exact Hnq.
  - rewrite nth_error_app2 in Hi by assumption.
    destruct (i - length (nodes ++ new)) as [|k] eqn:Ek;
      [|destruct k; discriminate].
    simpl in Hi. inversion Hi; subst v.
    rewrite nth_update_same in Hq
      by (rewrite (inv_length _ _ _ _ _ Hinv); assumption).
    apply Nat2Z.inj in Hq. subst q.
    rewrite length_app in Hge.
    exists ip. split; [lia|].
    rewrite nth_error_app1 by assumption. exact Hp.
Qed.

Lemma visit_all_parents_first (cs : list nat) :
  forall (nodes new : list nat) (predecessors : list Z) (p ip : nat),
    invariant n g head (nodes ++ new) predecessors ->
    parents_first (nodes ++ new) predecessors ->
    nth_error nodes ip = Some p ->
    (forall c, In c cs -> In c (neighbours g p)) ->
    let st := fold_left (visit head p) cs (new, predecessors) in
    parents_first (nodes ++ fst st) (snd st).
Proof.
  induction cs as [|c cs IH];
    intros nodes new predecessors p ip Hinv Hord Hp Hcs.
  - exact Hord.
  - simpl.
    destruct (visit_invariant n g head g_valid head_lt nodes new predecessors
                p ip c Hinv Hp (Hcs c (or_introl eq_refl)))
      as (Hinv1 & _ & _).
    pose proof (visit_parents_first nodes new predecessors p ip c Hinv Hord
                  Hp (Hcs c (or_introl eq_refl))) as Hord1.
    destruct (visit head p (new, predecessors) c) as [new1 pred1].
    simpl in Hinv1, Hord1.
    apply (IH nodes new1 pred1 p ip Hinv1 Hord1 Hp).
    intros x Hx. apply Hcs. now right.
Qed.

Lemma bfs_loop_parents_first (fuel : nat) :
  forall (done queue : list nat) (predecessors : list Z),
    invariant n g head (done ++ queue) predecessors ->
    parents_first (done ++ queue) predecessors ->
    let r := bfs_loop fuel g head queue (done ++ queue) predecessors in
    parents_first (fst r) (snd r).
Proof.
  induction fuel as [|fuel IH]; intros done queue predecessors Hinv Hord.
  - exact Hord.
  - destruct queue as [|p queue]; [exact Hord|]. simpl.
    assert (Hp : nth_error (done ++ p :: queue) (length done) = Some p).
    { rewrite nth_error_app2 by lia. now rewrite Nat.sub_diag. }
    assert (Hinv0 : invariant n g head ((done ++ p :: queue) ++ []) predecessors)
      by now rewrite app_nil_r.
    assert (Hord0 : parents_first ((done ++ p :: queue) ++ []) predecessors)
      by now rewrite app_nil_r.
    destruct (visit_all_invariant n g head g_valid head_lt (neighbours g p)
                (done ++ p :: queue) [] predecessors p (length done)
                Hinv0 Hp) as (Hinv1 & _ & _); [now intros c Hc|].
    pose proof (visit_all_parents_first (neighbours g p)
                  (done ++ p :: queue) [] predecessors p (length done)
                  Hinv0 Hord0 Hp (fun c Hc => Hc)) as Hord1.
    destruct (fold_left (visit head p) (neighbours g p) ([], predecessors))
      as [new pred1].
    simpl in Hinv1, Hord1. cbn [fst snd].
    assert (Eq : (done ++ p :: queue) ++ new = (done ++ [p]) ++ (queue ++ new)).
    { rewrite <- !app_assoc. reflexivity. }
    rewrite Eq in *. now apply IH.
Qed.

Lemma traversal_parents_first :
  parents_first (fst (traversal n g head)) (snd (traversal n g head)).
Proof.
  apply (bfs_loop_parents_first n [] [head]).
  - now apply invariant_start.
  - intros i v p Hi Hp. rewrite nth_repeat in Hp. symmetry in Hp.
    now apply NULL_IDX_not_nat in Hp.
Qed.

Lemma traversal_first :
  nth_error (fst (traversal n g head)) 0 = Some head.
Proof.
  unfold traversal.
  destruct (bfs_loop_first g head head n [head] [] (repeat NULL_IDX n))
    as [rest ->].
  reflexivity.
Qed.

End Order.

(** The run of the builder from the vertex [r]. *)
Lemma maximum_spanning_tree_run (adj : dense) (root : option Z) (r : nat) :
  r < length adj ->
  match root with
  | Some r' => Ok r'
  | None =>
      bind (argmin (map row_max
                      (dijkstra
                         (todense (length adj)
                            (abs_ (minimum_spanning_tree
                                     (negated_plus_one adj)))))))
           (fun r => Ok (Z.of_nat r))
  end = Ok (Z.of_nat r) ->
  _maximum_spanning_tree adj root
  = Ok (fst (traversal (length adj)
               (minimum_spanning_tree (negated_plus_one adj)) r),
        rooted (length adj)
          (minimum_spanning_tree (negated_plus_one adj)) r).
Proof.
  intros Hr Hroot. unfold _maximum_spanning_tree. rewrite Hroot. simpl.
  unfold breadth_first_order.
  destruct (Z.leb_spec 0 (Z.of_nat r)); [|lia].
  destruct (Z.ltb_spec (Z.of_nat r) (Z.of_nat (length adj))); [|lia].
  simpl. rewrite Nat2Z.id. reflexivity.
Qed.

(** *** The symmetric path of five vertices *)

Lemma heavy_tail_symmetric (i j : nat) :
  (weight heavy_tail i j == weight heavy_tail j i)%Q.
Proof.
  do 5 (destruct i as [|i];
        [do 5 (destruct j as [|j]; [reflexivity|]);
         unfold weight; simpl; now destruct j|]).
  do 5 (destruct j as [|j];
        [unfold weight; simpl; now destruct i|]).
  unfold weight. simpl. destruct i, j; reflexivity.
Qed.

End TraversalMoreFacts.


Section SpanningTreeBehaviour.
Import Py Tensors SpanningTree GraphFacts KruskalFacts TraversalFacts
  TraversalMoreFacts.
Local Open Scope nat_scope.

(** X24. For a square matrix with no negative entry over at least one
    feature, and a root forced to a valid index or left to the builder, the
    breadth-first order that the builder returns lists every vertex exactly
    once, starts with the root, and lists every vertex after its parent in
    the returned predecessor array. *)
Theorem maximum_spanning_tree_bfs_order :
  forall (adj : dense) (root : option Z),
    0 < length adj ->
    Forall (fun row => length row = length adj) adj ->
    (forall i j, i < length adj -> j < length adj -> (0 <= weight adj i j)%Q) ->
    root_in_range (length adj) root ->
    exists bfs tree r,
      _maximum_spanning_tree adj root = Ok (bfs, tree)
      /\ (forall r', root = Some r' -> r' = Z.of_nat r)
      /\ Permutation bfs (seq 0 (length adj))
      /\ nth_error bfs 0 = Some r
      /\ forall i v p,
           nth_error bfs i = Some v ->
           nth v tree NULL_IDX = Z.of_nat p ->
           exists ip, ip < i /\ nth_error bfs ip = Some p.
Proof.
  intros adj root Hn Hsq Hnn Hroot.
  destruct (root_selected adj root Hn Hroot) as (r & Hlt & Hsome & Hsel).
  destruct (minimum_spanning_tree_spanning adj Hsq Hnn)
    as (Hvalid & _ & Hconn).
  set (mst := minimum_spanning_tree (negated_plus_one adj)) in *.
  destruct (traversal_invariant (length adj) mst r Hvalid Hlt) as [Hinv _].
  exists (fst (traversal (length adj) mst r)), (rooted (length adj) mst r), r.
  split; [now apply maximum_spanning_tree_run|].
  split; [exact Hsome|]. split; [|split].
  - apply NoDup_Permutation.
    + apply (inv_NoDup _ _ _ _ _ Hinv).
    + apply seq_NoDup.
    + intros v. rewrite in_seq. split.
      * intros Hv. pose proof (inv_lt _ _ _ _ _ Hinv v Hv). lia.
      * intros Hv. apply traversal_complete; try assumption.
        apply Hconn; lia.
  - now apply traversal_first.
  - intros i v p Hi Hp.
    apply (traversal_parents_first (length adj) mst r Hvalid Hlt i v p Hi).
    unfold rooted in Hp.
    destruct (Nat.eq_dec v r) as [->|Hne].
    + rewrite nth_update_same in Hp
        by (rewrite (inv_length _ _ _ _ _ Hinv); assumption).
      lia.
    + now rewrite nth_update_other in Hp.
Qed.

Lemma maximum_spanning_tree_bfs_order_witness :
  exists bfs tree r,
    _maximum_spanning_tree heavy_tail (Some 2%Z) = Ok (bfs, tree)
    /\ (forall r', Some 2%Z = Some r' -> r' = Z.of_nat r)
    /\ Permutation bfs (seq 0 5)
    /\ nth_error bfs 0 = Some r
    /\ forall i v p,
         nth_error bfs i = Some v ->
         nth v tree NULL_IDX = Z.of_nat p ->
         exists ip, ip < i /\ nth_error bfs ip = Some p.
Proof.
  apply (maximum_spanning_tree_bfs_order heavy_tail (Some 2%Z)).
  - simpl. lia.
  - repeat constructor.
  - exact heavy_tail_nonneg.
  - simpl. lia.
Defined.

(** Adding one to a weight of [heavy_tail] is exact in float32. *)
Lemma heavy_tail_exact (i j : nat) :
  i < 5 -> j < 5 ->
  (float32 (weight heavy_tail i j + 1) == weight heavy_tail i j + 1)%Q.
Proof.
  intros Hi Hj.
  do 5 (destruct i as [|i];
        [do 5 (destruct j as [|j]; [vm_compute; reflexivity|]); lia|]).
  lia.
Qed.

(** X25. For a symmetric square matrix with no negative entry over at least
    one feature, the edges [(tree[v], v)] of the predecessor array that the
    builder returns, whatever the root, have the greatest total that the
    edges of a spanning tree of the complete graph can have of the weights
    as the routine gets them, one added to each in float32.  Where that
    addition is exact for every weight, they weigh at least as much as the
    edges of any spanning tree. *)
Theorem maximum_spanning_tree_predecessors_weight :
  forall (adj : dense) (root : option Z),
    0 < length adj ->
    Forall (fun row => length row = length adj) adj ->
    (forall i j, i < length adj -> j < length adj -> (0 <= weight adj i j)%Q) ->
    (forall i j, (weight adj i j == weight adj j i)%Q) ->
    root_in_range (length adj) root ->
    exists bfs tree,
      _maximum_spanning_tree adj root = Ok (bfs, tree)
      /\ (forall T, spanning_tree (length adj) T ->
            (total_shifted adj T <= total_shifted adj (tree_edges tree))%Q)
      /\ ((forall i j, i < length adj -> j < length adj ->
             (float32 (weight adj i j + 1) == weight adj i j + 1)%Q) ->
          forall T, spanning_tree (length adj) T ->
            (total_weight adj T <= total_weight adj (tree_edges tree))%Q).
Proof. exact maximum_spanning_tree_tree_weight. Qed.

Lemma maximum_spanning_tree_predecessors_weight_witness :
  exists bfs tree,
    _maximum_spanning_tree heavy_tail None = Ok (bfs, tree)
    /\ (forall T, spanning_tree 5 T ->
          (total_shifted heavy_tail T
           <= total_shifted heavy_tail (tree_edges tree))%Q)
    /\ (forall T, spanning_tree 5 T ->
          (total_weight heavy_tail T
           <= total_weight heavy_tail (tree_edges tree))%Q).
Proof.
  destruct (maximum_spanning_tree_predecessors_weight heavy_tail None)
    as (bfs & tree & Hrun & Hshifted & Hexact).
  - simpl. lia.
  - repeat constructor.
  - exact heavy_tail_nonneg.
  - exact heavy_tail_symmetric.
  - exact I.
  - exists bfs, tree. split; [exact Hrun|]. split; [exact Hshifted|].
    apply Hexact. exact heavy_tail_exact.
Defined.

(** X26. The root only orients the tree: for a square matrix with no
    negative entry over at least one feature, the predecessor arrays that
    the builder returns for two roots (forced or selected) have the same
    edges up to their direction, the edges kept by the
    minimum-spanning-tree routine. *)
Theorem maximum_spanning_tree_root_orients :
  forall (adj : dense) (root1 root2 : option Z),
    0 < length adj ->
    Forall (fun row => length row = length adj) adj ->
    (forall i j, i < length adj -> j < length adj -> (0 <= weight adj i j)%Q) ->
    root_in_range (length adj) root1 ->
    root_in_range (length adj) root2 ->
    exists bfs1 tree1 bfs2 tree2,
      _maximum_spanning_tree adj root1 = Ok (bfs1, tree1)
      /\ _maximum_spanning_tree adj root2 = Ok (bfs2, tree2)
      /\ Permutation (map normalized (tree_edges tree1))
           (map normalized
              (map ends (minimum_spanning_tree (negated_plus_one adj))))
      /\ Permutation (map normalized (tree_edges tree1))
           (map normalized (tree_edges tree2)).
Proof.
  intros adj root1 root2 Hn Hsq Hnn Hroot1 Hroot2.
  destruct (root_selected adj root1 Hn Hroot1) as (r1 & Hlt1 & _ & Hsel1).
  destruct (root_selected adj root2 Hn Hroot2) as (r2 & Hlt2 & _ & Hsel2).
  destruct (minimum_spanning_tree_spanning adj Hsq Hnn)
    as (Hvalid & Hlen & Hconn).
  rewrite length_map in Hlen.
  set (mst := minimum_spanning_tree (negated_plus_one adj)) in *.
  pose proof (tree_edges_graph (length adj) mst r1 Hvalid Hlt1 Hconn Hlen)
    as Hp1.
  pose proof (tree_edges_graph (length adj) mst r2 Hvalid Hlt2 Hconn Hlen)
    as Hp2.
  exists (fst (traversal (length adj) mst r1)), (rooted (length adj) mst r1),
         (fst (traversal (length adj) mst r2)), (rooted (length adj) mst r2).
  split; [now apply maximum_spanning_tree_run|].
  split; [now apply maximum_spanning_tree_run|].
  split; [exact Hp1|].
  now rewrite Hp1, Hp2.
Qed.

Lemma maximum_spanning_tree_root_orients_witness :
  exists bfs1 tree1 bfs2 tree2,
    _maximum_spanning_tree heavy_tail (Some 0%Z) = Ok (bfs1, tree1)
    /\ _maximum_spanning_tree heavy_tail None = Ok (bfs2, tree2)
    /\ Permutation (map normalized (tree_edges tree1))
         (map normalized
            (map ends (minimum_spanning_tree (negated_plus_one heavy_tail))))
    /\ Permutation (map normalized (tree_edges tree1))
         (map normalized (tree_edges tree2)).
Proof.
  apply (maximum_spanning_tree_root_orients heavy_tail (Some 0%Z) None).
  - simpl. lia.
  - repeat constructor.
  - exact heavy_tail_nonneg.
  - simpl. lia.
  - exact I.
Defined.

End SpanningTreeBehaviour.
